(** * Boost Graph Library examples: a shallow embedding

    The development follows four source files:
    - [example/implicit_graph.cpp]    the implicit ring graph and its graph
      concept functions (module [Ring]), with the shortest path search that
      [main] runs on it (module [Dijkstra]);
    - [example/kevin-bacon.cpp]       the actor graph builder and the Bacon
      number recorder (module [Bacon]);
    - [example/file_dependencies.cpp] the parallel make ordering
      (module [FileDeps]);
    - [test/hawick_circuits.cpp]      the two circuit enumerations it calls
      (module [Circuits]).

    The library headers that these files include are not part of the
    sources at hand.  What the examples call from them - the searches, the
    stored graph - is modelled from the specification; every such
    definition says so in its comment.

    [std::size_t] is a 64-bit unsigned integer, modelled as [Z] with the
    reduction modulo [2^64] written at every arithmetic operation; [double]
    values are modelled by the rational they denote.

    The definitions come first, the properties after them. *)

From Stdlib Require Import ZArith Lia List QArith Bool.
From stdpp Require Import gmap strings list.

Open Scope Z_scope.

(** ** Machine integers and doubles *)

Definition size_t_modulus : Z := 2 ^ 64.

(** Unsigned arithmetic is performed modulo [2^64]; converting a negative
    [int] to [std::size_t] adds [2^64]. *)
Definition to_size_t (z : Z) : Z := z mod size_t_modulus.

Definition is_size_t (z : Z) : Prop := 0 <= z < size_t_modulus.

(** Conversion of a non negative integer to [double]: exact below [2^53],
    otherwise rounded to 53 significant bits, ties to even. *)
Definition double_of_size_t (z : Z) : Q :=
  if z <? 2 ^ 53 then inject_Z z
  else
    let sh := Z.log2 z - 52 in
    let q := Z.shiftr z sh in
    let r := z mod 2 ^ sh in
    let half := 2 ^ (sh - 1) in
    let q' := if r <? half then q
              else if half <? r then q + 1
              else if Z.even q then q else q + 1 in
    inject_Z (q' * 2 ^ sh).

(** The positions visited by [for (it = first; it != last; ++it)] when the
    iterator is (an adaptor over) a [counting_iterator]. *)
Definition counting_range (first last : Z) : list Z :=
  map (fun k : nat => first + Z.of_nat k) (seq 0 (Z.to_nat (last - first))).

(** ** The implicit ring graph of [implicit_graph.cpp] *)

Module Ring.

Definition vertex_descriptor : Type := Z.
Definition edge_descriptor : Type := (Z * Z)%type.

(** [class ring_graph]: the only member is the number of vertices. *)
Record ring_graph : Type := mk_ring_graph { n : Z }.

(** [class ring_incident_edge_iterator]: the adapted counting iterator
    (the offset into [ring_offset]) together with [m_n] and [m_u]. *)
Record ring_incident_edge_iterator : Type := mk_incident
  { ie_base : Z; m_n : Z; m_u : Z }.

Definition incident_start (g : ring_graph) (u : Z) : ring_incident_edge_iterator :=
  {| ie_base := 0; m_n := n g; m_u := u |}.

Definition incident_end (g : ring_graph) (u : Z) : ring_incident_edge_iterator :=
  {| ie_base := if 2 <? n g then 2 else 1; m_n := n g; m_u := u |}.

(** [static const int ring_offset[] = {1, -1}]; the iterators of a range
    only hold the positions 0 and 1. *)
Definition ring_offset (p : Z) : Z := if p =? 0 then 1 else -1.

Definition dereference (it : ring_incident_edge_iterator) : edge_descriptor :=
  let p := ie_base it in
  let v :=
    if (m_u it =? 0) && (p =? 1)
    then to_size_t (m_n it - 1)
    else to_size_t (m_u it + to_size_t (ring_offset p)) mod m_n it in
  (m_u it, v).

Definition source (e : edge_descriptor) (g : ring_graph) : Z := fst e.
Definition target (e : edge_descriptor) (g : ring_graph) : Z := snd e.

(** [out_edges(u, g)], read as the sequence between the two iterators. *)
Definition out_edges (u : Z) (g : ring_graph) : list edge_descriptor :=
  map (fun p => dereference {| ie_base := p; m_n := n g; m_u := u |})
      (counting_range (ie_base (incident_start g u)) (ie_base (incident_end g u))).

Definition out_degree (u : Z) (g : ring_graph) : Z := 2.

Definition in_edges (u : Z) (g : ring_graph) : list edge_descriptor := out_edges u g.
Definition in_degree (u : Z) (g : ring_graph) : Z := out_degree u g.
Definition degree (u : Z) (g : ring_graph) : Z := out_degree u g.

(** [ring_adjacency_iterator]: the targets of the incident edges. *)
Definition adjacent_vertices (u : Z) (g : ring_graph) : list Z :=
  map (fun e => target e g) (out_edges u g).

Definition num_vertices (g : ring_graph) : Z := n g.

Definition vertices (g : ring_graph) : list Z := counting_range 0 (num_vertices g).

(** [ring_edge_iterator]: a vertex iterator whose dereference is the first
    element of the incident edge list of the current vertex. *)
Definition edge_iterator_start (g : ring_graph) : Z := 0.
Definition edge_iterator_end (g : ring_graph) : Z :=
  if n g =? 2 then 0 + 1 else num_vertices g.

Definition edge_dereference (g : ring_graph) (v : Z) : edge_descriptor :=
  dereference (incident_start g v).

Definition edges (g : ring_graph) : list edge_descriptor :=
  map (edge_dereference g) (counting_range (edge_iterator_start g) (edge_iterator_end g)).

Definition num_edges (g : ring_graph) : Z := if n g =? 2 then 1 else n g.

(** [edge(u, v, g)]; [edge_descriptor()] is the pair [(0, 0)]. *)
Definition edge (u v : Z) (g : ring_graph) : edge_descriptor * bool :=
  if ((u =? to_size_t (v + 1)) || (v =? to_size_t (u + 1)))
     && (0 <? u) && (u <? num_vertices g) && (0 <? v) && (v <? num_vertices g)
  then ((u, v), true)
  else ((0, 0), false).

(** [edge_weight_map::operator[]] and the three [get] overloads.  The map
    has no data member: the value is computed from the key alone. *)
Definition edge_weight_map_at (e : edge_descriptor) : Q :=
  double_of_size_t (to_size_t (fst e + snd e)) / 2.

Definition get_edge_weight (g : ring_graph) (e : edge_descriptor) : Q :=
  edge_weight_map_at e.

(** Adjacency on the ring, as the header comment of the file has it: vertex
    [i] is adjacent to [i-1] for [i > 0] and to [i+1] for [i < n-1], and
    vertex [0] is also adjacent to vertex [n-1]. *)
Definition ring_adjacent (nn u v : Z) : Prop :=
  u = v + 1 \/ v = u + 1 \/ (u = 0 /\ v = nn - 1) \/ (u = nn - 1 /\ v = 0).

(** Two descriptors name the same undirected connection when they agree up
    to the orientation of the pair. *)
Definition same_connection (e1 e2 : edge_descriptor) : bool :=
  ((fst e1 =? fst e2) && (snd e1 =? snd e2)) || ((fst e1 =? snd e2) && (snd e1 =? fst e2)).

(** A walk of [k] edges from [u]: every step follows an edge that
    [out_edges] yields at the vertex reached so far, from its source to its
    target. *)
Inductive walk (g : ring_graph) (u : Z) : nat -> Z -> Prop :=
  | walk_here : walk g u 0 u
  | walk_edge k v e :
      walk g u k v -> In e (out_edges v g) -> walk g u (S k) (target e g).

(** The sum of a list of sizes, as [std::accumulate] would form it over
    unbounded integers. *)
Definition sum_Z (l : list Z) : Z := fold_right Z.add 0 l.

End Ring.


(** ** Single-source shortest paths over a ring graph *)

Module Dijkstra.
Import Ring.

(** Tentative distances: [None] is the infinite distance; finite distances
    are kept as reduced fractions, so that equal doubles are equal terms. *)
Definition distance : Type := option Q.

Definition distance_lt (a b : distance) : bool :=
  match a, b with
  | Some x, Some y => negb (Qle_bool y x)
  | Some _, None => true
  | None, _ => false
  end.

Definition distance_le (a b : distance) : bool := negb (distance_lt b a).

(** The caller-owned result arrays, indexed by vertex, and the set of
    settled vertices. *)
Record state : Type := mk_state
  { dist : list distance;
    pred : list (option Z);
    settled : list bool }.

Definition index (v : Z) : nat := Z.to_nat v.

Definition dist_of (st : state) (v : Z) : distance := default None (dist st !! index v).

Definition is_settled (st : state) (v : Z) : bool := default true (settled st !! index v).

(** Modelled from the spec: [dijkstra_shortest_paths] (declared in
    boost/graph/dijkstra_shortest_paths.hpp, called by [main]) is not among
    the sources.  "maintain tentative distance/predecessor per vertex, init
    (infinity, undefined) except source (0, source)". *)
Definition init (g : ring_graph) (s : Z) : state :=
  let nv := Z.to_nat (num_vertices g) in
  {| dist := <[index s := Some 0%Q]> (replicate nv None);
     pred := <[index s := Some s]> (replicate nv None);
     settled := replicate nv false |}.

(** Modelled from the spec: "relax each outgoing edge (u,v,w): if
    dist[u]+w < dist[v] update dist[v], pred[v]". *)
Definition relax (g : ring_graph) (st : state) (e : edge_descriptor) : state :=
  let u := source e g in
  let v := target e g in
  match dist_of st u with
  | None => st
  | Some du =>
      let d := Some (Qred (du + get_edge_weight g e)) in
      if distance_lt d (dist_of st v)
      then {| dist := <[index v := d]> (dist st);
              pred := <[index v := Some u]> (pred st);
              settled := settled st |}
      else st
  end.

(** Modelled from the spec: "settle the unsettled vertex ..., relax each
    outgoing edge": settling [u] marks it and relaxes its out-edges in the
    order in which [out_edges] yields them. *)
Definition settle (g : ring_graph) (u : Z) (st : state) : state :=
  fold_left (relax g)
    (out_edges u g)
    {| dist := dist st; pred := pred st;
       settled := <[index u := true]> (settled st) |}.

(** The vertices not settled yet, in index order. *)
Definition unsettled (g : ring_graph) (st : state) : list Z :=
  List.filter (fun v => negb (is_settled st v)) (vertices g).

(** Modelled from the spec: "repeatedly settle the unsettled vertex of
    minimum tentative distance".  The spec does not say how ties are
    broken, so every unsettled vertex of minimum tentative distance is a
    candidate. *)
Definition candidates (g : ring_graph) (st : state) : list Z :=
  List.filter
    (fun u => forallb (fun v => distance_le (dist_of st u) (dist_of st v)) (unsettled g st))
    (unsettled g st).

Definition all_settled (g : ring_graph) (st : state) : bool :=
  match unsettled g st with [] => true | _ => false end.

(** Modelled from the spec: one round of "repeatedly settle the unsettled
    vertex of minimum tentative distance". *)
Inductive step (g : ring_graph) : state -> state -> Prop :=
  | step_settle st u : In u (candidates g st) -> step g st (settle g u st).

(** Modelled from the spec: "Terminates when all vertices settled". *)
Inductive run (g : ring_graph) : state -> state -> Prop :=
  | run_done st : all_settled g st = true -> run g st st
  | run_step st st' final : step g st st' -> run g st' final -> run g st final.

(** All the results of the runs from [st], following every candidate;
    [None] records a run that is still unfinished after [fuel] steps. *)
Fixpoint outcomes (g : ring_graph) (fuel : nat) (st : state) : list (option state) :=
  if all_settled g st then [Some st]
  else match fuel with
       | O => [None]
       | S fuel' => flat_map (fun u => outcomes g fuel' (settle g u st)) (candidates g st)
       end.

(** [steps g k st st']: [k] settling steps lead from [st] to [st']. *)
Inductive steps (g : ring_graph) : nat -> state -> state -> Prop :=
  | steps_none st : steps g 0 st st
  | steps_more k st st' st'' : step g st st' -> steps g k st' st'' -> steps g (S k) st st''.

(** Scenario B: the ring of size 5 and the arrays expected at the end. *)
Definition ring5 : ring_graph := mk_ring_graph 5.

Definition expected_dist : list distance :=
  [Some 0%Q; Some (1 # 2)%Q; Some (2 # 1)%Q; Some (9 # 2)%Q; Some (2 # 1)%Q].

Definition expected_pred : list (option Z) :=
  [Some 0; Some 0; Some 1; Some 2; Some 0].

(** The run that settles the vertices in the order 0, 1, 2, 4, 3. *)
Definition ring5_trace : list state :=
  let s0 := init ring5 0 in
  let s1 := settle ring5 0 s0 in
  let s2 := settle ring5 1 s1 in
  let s3 := settle ring5 2 s2 in
  let s4 := settle ring5 4 s3 in
  let s5 := settle ring5 3 s4 in
  [s0; s1; s2; s3; s4; s5].

Definition ring5_final : state := List.last ring5_trace (init ring5 0).

(** *** Notions used to state what the search computes *)

(** A walk from [s] along out-edges, with the sum of the weights that
    [get(edge_weight, g, e)] gives for its edges. *)
Inductive wwalk (g : ring_graph) (s : Z) : Z -> Q -> Prop :=
  | wwalk_here : wwalk g s s 0
  | wwalk_edge v q e :
      wwalk g s v q -> In e (out_edges v g) ->
      wwalk g s (target e g) (q + get_edge_weight g e).

Definition pred_of (st : state) (v : Z) : option Z := default None (pred st !! index v).

(** The invariant of the search from [s].  [cur] is the vertex being
    settled, if any, and [seen] the out-edges of it relaxed so far. *)
Record dijkstra_inv (g : ring_graph) (s : Z) (st : state)
    (cur : option Z) (seen : list edge_descriptor) : Prop := mk_dijkstra_inv
  { di_len : length (dist st) = Z.to_nat (n g) /\
             length (pred st) = Z.to_nat (n g) /\
             length (settled st) = Z.to_nat (n g);
    di_src : dist_of st s = Some 0%Q /\ pred_of st s = Some s;
    (* a tentative distance is the weight of some walk *)
    di_real : forall v d, 0 <= v < n g -> dist_of st v = Some d ->
      exists q, wwalk g s v q /\ (q == d)%Q;
    (* the distance of a settled vertex is final: no walk is lighter *)
    di_opt : forall u, 0 <= u < n g -> is_settled st u = true ->
      exists d, dist_of st u = Some d /\ forall q, wwalk g s u q -> (d <= q)%Q;
    (* the out-edges of the settled vertices have been relaxed *)
    di_relaxed : forall u e, 0 <= u < n g -> is_settled st u = true ->
      In e (out_edges u g) -> (cur = Some u -> In e seen) ->
      exists du dv, dist_of st u = Some du /\ dist_of st (target e g) = Some dv /\
                    (dv <= du + get_edge_weight g e)%Q;
    (* the predecessor is a settled vertex one edge before *)
    di_pred : forall v d, 0 <= v < n g -> v <> s -> dist_of st v = Some d ->
      exists p e dp, pred_of st v = Some p /\ 0 <= p < n g /\
        is_settled st p = true /\ In e (out_edges p g) /\ target e g = v /\
        dist_of st p = Some dp /\ d = Qred (dp + get_edge_weight g e) }.

(** The tentative distances are half-integers of bounded size; on a ring of
    at most [2^26] vertices the bound is below [2^53], the range in which a
    [double] holds every integer and every half-integer exactly. *)
Definition dist_bounded (g : ring_graph) (st : state) : Prop :=
  forall v d, 0 <= v < n g -> dist_of st v = Some d ->
  exists k : Z, 0 <= k <= 2 * (n g * (n g - 1)) /\ (d == inject_Z k / 2)%Q.

End Dijkstra.

(** ** The actor graph and the Bacon numbers of [kevin-bacon.cpp] *)

(** [int] arithmetic: signed overflow is undefined in the source language;
    the model wraps in two's complement, and the theorems state the size
    bound under which no addition overflows. *)
Definition int_wrap (z : Z) : Z := (z + 2 ^ 31) mod 2 ^ 32 - 2 ^ 31.
Definition int_add (a b : Z) : Z := int_wrap (a + b).

Module Bacon.

(** [graph_traits<Graph>::vertex_descriptor]: with [vecS] an index. *)
Abbreviation Vertex := nat (only parsing).

(** An edge descriptor of the stored graph: the two endpoints as seen from
    the vertex whose incidence list yielded it, and the handle of the
    stored edge (its position in the edge store). *)
Record Edge : Type := mk_edge { m_source : Vertex; m_target : Vertex; m_eid : nat }.

(** [adjacency_list<vecS, vecS, undirectedS, property<vertex_name_t,
    std::string>, property<edge_name_t, std::string>>]. *)
Record Graph : Type := mk_graph
  { actor_name : list string;             (* vertex_name property, by vertex *)
    m_edges : list (Vertex * Vertex);     (* the edge store, in insertion order *)
    connecting_movie : list string;       (* edge_name property, by edge handle *)
    m_out_edges : list (list (Vertex * nat)) (* per vertex: (target, edge handle) *) }.

Definition empty_graph : Graph :=
  {| actor_name := []; m_edges := []; connecting_movie := []; m_out_edges := [] |}.

Definition num_vertices (g : Graph) : nat := length (m_out_edges g).
Definition num_edges (g : Graph) : nat := length (m_edges g).

(** Modelled from the spec: [add_vertex] and [add_edge] of
    boost/graph/adjacency_list.hpp are not among the sources.  "add_vertex()
    appends and returns a new index." *)
Definition add_vertex (g : Graph) : Vertex * Graph :=
  (num_vertices g,
   {| actor_name := actor_name g ++ [String.EmptyString];
      m_edges := m_edges g;
      connecting_movie := connecting_movie g;
      m_out_edges := m_out_edges g ++ [[]] |}).

(** Modelled from the spec: "add_edge(u,v) appends an edge, returns
    (descriptor, inserted-flag); for undirected/bidirectional modes the edge
    is reflected in both endpoints' incidence lists." *)
Definition add_edge (u v : Vertex) (g : Graph) : (Edge * bool) * Graph :=
  let e := num_edges g in
  let at_u := alter (fun l => l ++ [(v, e)]) u (m_out_edges g) in
  let at_v := alter (fun l => l ++ [(u, e)]) v at_u in
  ((mk_edge u v e, true),
   {| actor_name := actor_name g;
      m_edges := m_edges g ++ [(u, v)];
      connecting_movie := connecting_movie g ++ [String.EmptyString];
      m_out_edges := at_v |}).

(** Modelled from the spec: "Vertex/edge properties (name, weight) are
    separate key->value attachments": the writes [actor_name[u] = ...] and
    [connecting_movie[e] = ...] through the property maps. *)
Definition put_actor_name (u : Vertex) (s : string) (g : Graph) : Graph :=
  {| actor_name := <[u := s]> (actor_name g);
     m_edges := m_edges g;
     connecting_movie := connecting_movie g;
     m_out_edges := m_out_edges g |}.

Definition put_connecting_movie (e : Edge) (s : string) (g : Graph) : Graph :=
  {| actor_name := actor_name g;
     m_edges := m_edges g;
     connecting_movie := <[m_eid e := s]> (connecting_movie g);
     m_out_edges := m_out_edges g |}.

(** Modelled from the spec: "Incidence: out_edges(u)"; "source(e),
    target(e): endpoint projections". *)
Definition out_edges (u : Vertex) (g : Graph) : list Edge :=
  map (fun te => mk_edge u (fst te) (snd te)) (default [] (m_out_edges g !! u)).

Definition source (e : Edge) (g : Graph) : Vertex := m_source e.
Definition target (e : Edge) (g : Graph) : Vertex := m_target e.

(** *** The builder loop of [main] *)

(** One line of the data file, already split at the semicolons. *)
Record record : Type := mk_record { r_actor : string; r_movie : string; r_coactor : string }.

(** The state of the loop: the graph and the [std::map] from names to
    vertices. *)
Record builder : Type := mk_builder { b_graph : Graph; actors : gmap string Vertex }.

(** [actors.insert(std::make_pair(name, Vertex()))] followed by the
    [if (inserted)] statement: a new name gets a new vertex, whose name
    property is set; a known name yields the vertex stored for it. *)
Definition lookup_or_insert (name : string) (b : builder) : Vertex * builder :=
  match actors b !! name with
  | Some u => (u, b)
  | None =>
      let '(u, g1) := add_vertex (b_graph b) in
      let g2 := put_actor_name u name g1 in
      (u, {| b_graph := g2; actors := <[name := u]> (actors b) |})
  end.

Definition add_record (b : builder) (r : record) : builder :=
  let '(u, b1) := lookup_or_insert (r_actor r) b in
  let '(v, b2) := lookup_or_insert (r_coactor r) b1 in
  let '((e, insertede), g3) := add_edge u v (b_graph b2) in
  let g4 := if insertede then put_connecting_movie e (r_movie r) g3 else g3 in
  {| b_graph := g4; actors := actors b2 |}.

Definition empty_builder : builder := {| b_graph := empty_graph; actors := ∅ |}.

Definition build (rs : list record) : builder :=
  fold_left add_record rs empty_builder.

Definition build_from (b : builder) (rs : list record) : builder :=
  fold_left add_record rs b.

(** The names occurring in the records, as actor or as co-actor. *)
Definition names_of (rs : list record) : gset string :=
  list_to_set (flat_map (fun r => [r_actor r; r_coactor r]) rs).

Definition vertex_of (b : builder) (name : string) : Vertex :=
  default 0%nat (actors b !! name).

(** The invariant of the builder loop. *)
Record builder_inv (b : builder) : Prop := mk_builder_inv
  { binv_names : forall a u,
      actors b !! a = Some u <-> actor_name (b_graph b) !! u = Some a;
    binv_len : length (actor_name (b_graph b)) = num_vertices (b_graph b);
    binv_size : size (actors b) = num_vertices (b_graph b);
    binv_targets : forall u l te, m_out_edges (b_graph b) !! u = Some l -> In te l ->
      (fst te < num_vertices (b_graph b))%nat;
    binv_movies : length (connecting_movie (b_graph b)) = length (m_edges (b_graph b)) }.

(** *** The Bacon number recorder *)

(** [bacon_number_recorder::tree_edge]: [d[v] = d[u] + 1] on the caller's
    array.  Both indices are vertices of the graph, hence within the array
    whenever the array has [num_vertices] slots. *)
Definition tree_edge (e : Edge) (g : Graph) (d : list Z) : list Z :=
  let u := source e g in
  let v := target e g in
  <[v := int_add (default 0 (d !! u)) 1]> d.

(** The state of a breadth first search: the queue, the discovered (non
    white) vertices, the array written by the visitor, and the log of the
    tree-edge events fired so far. *)
Record bfs_state : Type := mk_bfs
  { queue : list Vertex;
    discovered : gset Vertex;
    bacon_number : list Z;
    tree_edges : list Edge }.

(** Modelled from the spec: [breadth_first_search] of
    boost/graph/breadth_first_search.hpp is not among the sources.
    "explores vertices in non-decreasing hop-distance order from a source;
    each non-source vertex fires exactly one tree-edge event": the search
    keeps a first-in first-out queue, examines the out-edges of the vertex
    it dequeues, and an edge to an undiscovered vertex is a tree edge: the
    visitor is called, the target is marked and enqueued. *)
Definition examine_edge (g : Graph) (st : bfs_state) (e : Edge) : bfs_state :=
  let v := target e g in
  if decide (v ∈ discovered st) then st
  else {| queue := queue st ++ [v];
          discovered := {[v]} ∪ discovered st;
          bacon_number := tree_edge e g (bacon_number st);
          tree_edges := tree_edges st ++ [e] |}.

(** Modelled from the spec: the out-edges of the dequeued vertex are
    examined in the order of its incidence list. *)
Definition examine_vertex (g : Graph) (u : Vertex) (st : bfs_state) : bfs_state :=
  fold_left (examine_edge g) (out_edges u g) st.

(** Modelled from the spec: the loop of the search, which ends when the
    queue is empty; [fuel] bounds the number of vertices dequeued. *)
Fixpoint bfs_loop (g : Graph) (fuel : nat) (st : bfs_state) : bfs_state :=
  match fuel with
  | O => st
  | S fuel' =>
      match queue st with
      | [] => st
      | u :: q =>
          bfs_loop g fuel'
            (examine_vertex g u
               {| queue := q; discovered := discovered st;
                  bacon_number := bacon_number st; tree_edges := tree_edges st |})
      end
  end.

(** Modelled from the spec: the search from [s] starts with [s] discovered
    and alone in the queue.  Every vertex is enqueued at most once, so
    [num_vertices] iterations empty the queue (lemma [bfs_loop_inv]). *)
Definition breadth_first_search (g : Graph) (s : Vertex) (d : list Z) : bfs_state :=
  bfs_loop g (num_vertices g)
    {| queue := [s]; discovered := {[s]}; bacon_number := d; tree_edges := [] |}.

(** [std::vector<int> bacon_number(num_vertices(g)); bacon_number[src] = 0;
    breadth_first_search(g, src, visitor(record_bacon_number(...)))]. *)
Definition bacon_search (g : Graph) (src : Vertex) : bfs_state :=
  breadth_first_search g src (<[src := 0]> (replicate (num_vertices g) 0)).

(** [actors["Kevin Bacon"]]: a missing key is inserted with the value 0. *)
Definition kevin_bacon (b : builder) : Vertex :=
  default 0%nat (actors b !! "Kevin Bacon"%string).

(** *** Paths in the graph *)

(** [walk g s k v]: some sequence of [k] out-edges leads from [s] to [v]. *)
Inductive walk (g : Graph) (s : Vertex) : nat -> Vertex -> Prop :=
  | walk_here : walk g s 0 s
  | walk_edge k u e : walk g s k u -> In e (out_edges u g) -> walk g s (S k) (m_target e).

Definition reachable (g : Graph) (s v : Vertex) : Prop := exists k, walk g s k v.

Definition shortest (g : Graph) (s v : Vertex) (k : nat) : Prop :=
  walk g s k v /\ forall j, walk g s j v -> (k <= j)%nat.

(** Every target stored in an incidence list is a vertex of the graph. *)
Definition wf_graph (g : Graph) : Prop :=
  forall u e, In e (out_edges u g) -> (m_target e < num_vertices g)%nat.

Definition events_into (v : Vertex) (st : bfs_state) : list Edge :=
  List.filter (fun e => Nat.eqb (m_target e) v) (tree_edges st).

(** *** The invariant of the search *)

(** The array holds the natural number [k] at vertex [v]. *)
Definition labelled (d : list Z) (v : Vertex) (k : nat) : Prop :=
  d !! v = Some (Z.of_nat k).

Definition measure (g : Graph) (st : bfs_state) : nat :=
  (length (queue st) + (num_vertices g - size (discovered st)))%nat.

(** [cur] is the vertex whose out-edges are being examined, if any, and
    [seen] the out-edges of it examined so far; [d0] is the array as it was
    handed to the search. *)
Record bfs_inv (g : Graph) (s : Vertex) (d0 : list Z)
    (cur : option Vertex) (seen : list Edge) (st : bfs_state) : Prop := mk_bfs_inv
  { inv_src : s ∈ discovered st;
    inv_range : forall v, v ∈ discovered st -> (v < num_vertices g)%nat;
    inv_len : length (bacon_number st) = num_vertices g;
    inv_short : forall v, v ∈ discovered st ->
      exists k, shortest g s v k /\ labelled (bacon_number st) v k /\
                (k < size (discovered st))%nat;
    inv_closed : forall v, v ∈ discovered st -> ~ In v (queue st) -> cur <> Some v ->
      forall e, In e (out_edges v g) -> m_target e ∈ discovered st;
    inv_cur : forall u, cur = Some u ->
      u ∈ discovered st /\ forall e, In e seen -> m_target e ∈ discovered st;
    inv_queue : forall v, In v (queue st) -> v ∈ discovered st;
    inv_levels : exists k A B, queue st = A ++ B /\
      (forall a, In a A -> labelled (bacon_number st) a k) /\
      (forall b, In b B -> labelled (bacon_number st) b (S k)) /\
      (forall u, cur = Some u -> labelled (bacon_number st) u k);
    inv_untouched : forall v, v ∉ discovered st -> bacon_number st !! v = d0 !! v;
    inv_events : forall e, In e (tree_edges st) ->
      In e (out_edges (m_source e) g) /\
      m_source e ∈ discovered st /\ m_target e ∈ discovered st /\ m_target e <> s /\
      exists k, labelled (bacon_number st) (m_source e) k /\
                labelled (bacon_number st) (m_target e) (S k);
    inv_events_nodup : List.NoDup (map m_target (tree_edges st));
    inv_events_all : forall v, v ∈ discovered st -> v <> s ->
      In v (map m_target (tree_edges st)) }.

(** *** Notions used to describe the graph that the loop builds *)

(** The names of the data file in reading order: of every record the
    actor, then the co-actor. *)
Definition names_in_order (rs : list record) : list string :=
  flat_map (fun r => [r_actor r; r_coactor r]) rs.

(** The distinct elements of a list in the order of their first
    occurrence. *)
Definition append_new (seen : list string) (x : string) : list string :=
  if decide (x ∈ seen) then seen else seen ++ [x].

Definition first_occurrences (l : list string) : list string :=
  fold_left append_new l [].

(** The number of entries of all the incidence lists together. *)
Definition incidence_entries (g : Graph) : nat :=
  list_sum (map (@length _) (m_out_edges g)).

(** The incidence lists and the edge store agree: the edge with handle [i]
    between [u] and [v] is listed at [u] towards [v] and at [v] towards
    [u], and the lists hold nothing but stored edges. *)
Definition incidence_ok (g : Graph) : Prop :=
  (forall i u v, m_edges g !! i = Some (u, v) ->
     exists lu lv, m_out_edges g !! u = Some lu /\ In (v, i) lu /\
                   m_out_edges g !! v = Some lv /\ In (u, i) lv) /\
  (forall w l t i, m_out_edges g !! w = Some l -> In (t, i) l ->
     m_edges g !! i = Some (w, t) \/ m_edges g !! i = Some (t, w)) /\
  incidence_entries g = (2 * num_edges g)%nat.

End Bacon.

(** ** The parallel make ordering of [file_dependencies.cpp] *)

Module FileDeps.

(** [enum files_e]. *)
Definition dax_h : nat := 0.
Definition yow_h : nat := 1.
Definition boz_h : nat := 2.
Definition zow_h : nat := 3.
Definition foo_cpp : nat := 4.
Definition foo_o : nat := 5.
Definition bar_cpp : nat := 6.
Definition bar_o : nat := 7.
Definition libfoobar_a : nat := 8.
Definition zig_cpp : nat := 9.
Definition zig_o : nat := 10.
Definition zag_cpp : nat := 11.
Definition zag_o : nat := 12.
Definition libzigzag_a : nat := 13.
Definition killerapp : nat := 14.
Definition N : nat := 15.

Abbreviation Edge := (nat * nat)%type (only parsing).

Definition used_by : list Edge :=
  [ (dax_h, foo_cpp); (dax_h, bar_cpp); (dax_h, yow_h);
    (yow_h, bar_cpp); (yow_h, zag_cpp);
    (boz_h, bar_cpp); (boz_h, zig_cpp); (boz_h, zag_cpp);
    (zow_h, foo_cpp);
    (foo_cpp, foo_o);
    (foo_o, libfoobar_a);
    (bar_cpp, bar_o);
    (bar_o, libfoobar_a);
    (libfoobar_a, libzigzag_a);
    (zig_cpp, zig_o);
    (zig_o, libzigzag_a);
    (zag_cpp, zag_o);
    (zag_o, libzigzag_a);
    (libzigzag_a, killerapp) ].

(** [adjacency_list<vecS, vecS, bidirectionalS>], built from an edge array
    and a vertex count. *)
Record Graph : Type := mk_graph { num_vertices : nat; m_edges : list Edge }.

Definition g : Graph := {| num_vertices := N; m_edges := used_by |}.

(** Modelled from the spec: the accessors of boost/graph/adjacency_list.hpp
    are not among the sources.  "BidirectionalIncidence: in_edges(u)": the
    stored edges whose target is [v], in insertion order. *)
Definition in_edges (v : nat) (gr : Graph) : list Edge :=
  List.filter (fun e => Nat.eqb (snd e) v) (m_edges gr).

(** Modelled from the spec: "BidirectionalIncidence: in_degree(u)", the
    number of in-edges. *)
Definition in_degree (v : nat) (gr : Graph) : nat := length (in_edges v gr).

(** Modelled from the spec: "source(e), target(e): endpoint projections". *)
Definition source (e : Edge) (gr : Graph) : nat := fst e.
Definition target (e : Edge) (gr : Graph) : nat := snd e.

(** A [std::list<Vertex>::iterator]: either it designates an element of a
    list, whose value [*i] then reads, or it is singular - as after the
    declaration [MakeOrder::iterator i;] - and [*i] has no defined value. *)
Inductive list_iterator : Type :=
  | singular
  | at_element (x : nat).

Definition deref (i : list_iterator) : option nat :=
  match i with
  | singular => None
  | at_element x => Some x
  end.

(** The inner loop: [maxdist = (std::max)(time[source(edge, g)], maxdist)]
    over the in-edges, from [maxdist = 0].  [None] stands for an access
    outside the vector. *)
Definition max_in_time (gr : Graph) (time : list Z) (vertex : nat) : option Z :=
  fold_left
    (fun acc e => maxdist ← acc; t ← time !! source e gr; Some (Z.max t maxdist))
    (in_edges vertex gr) (Some 0).

(** The body of [for (const auto& vertex : make_order)].  The slot that is
    written is [time[*i]], where [i] is the iterator declared before the
    loop; the loop never assigns it.  [None] stands for undefined
    behaviour. *)
Definition time_step (gr : Graph) (i : list_iterator)
    (acc : option (list Z)) (vertex : nat) : option (list Z) :=
  time ← acc;
  if (0 <? in_degree vertex gr)%nat then
    maxdist ← max_in_time gr time vertex;
    k ← deref i;
    if (k <? length time)%nat then Some (<[k := int_add maxdist 1]> time) else None
  else Some time.

(** [std::vector<int> time(N, 0)] followed by the loop. *)
Definition parallel_times (gr : Graph) (i : list_iterator) (make_order : list nat)
  : option (list Z) :=
  fold_left (time_step gr i) make_order (Some (replicate N 0)).

(** The declaration [MakeOrder::iterator i;] of [main]. *)
Definition i_of_main : list_iterator := singular.

(** The level scheduling as the spec words it, for comparison: "for each
    vertex in that order, level[v] = 1 + max(level[u]) over in-edges (u,v),
    or 0 if none"; the slot of the vertex itself is written. *)
Definition level_step (gr : Graph) (acc : option (list Z)) (vertex : nat)
  : option (list Z) :=
  time ← acc;
  if (0 <? in_degree vertex gr)%nat then
    maxdist ← max_in_time gr time vertex;
    if (vertex <? length time)%nat then Some (<[vertex := int_add maxdist 1]> time) else None
  else Some time.

Definition level_schedule (gr : Graph) (make_order : list nat) : option (list Z) :=
  fold_left (level_step gr) make_order (Some (replicate (num_vertices gr) 0)).

(** Every edge goes from an earlier to a later position of the order, which
    lists every vertex once. *)
Fixpoint position (order : list nat) (v : nat) : nat :=
  match order with
  | [] => 0
  | x :: rest => if Nat.eqb x v then 0 else S (position rest v)
  end.

Definition is_topological_order (gr : Graph) (order : list nat) : bool :=
  Nat.eqb (length order) (num_vertices gr) &&
  forallb (fun v => existsb (Nat.eqb v) order) (seq 0 (num_vertices gr)) &&
  forallb (fun e => (position order (fst e) <? position order (snd e))%nat) (m_edges gr).

(** The order printed for this graph in the library documentation. *)
Definition documented_make_order : list nat :=
  [zow_h; boz_h; zig_cpp; zig_o; dax_h; yow_h; zag_cpp; zag_o; bar_cpp; bar_o;
   foo_cpp; foo_o; libfoobar_a; libzigzag_a; killerapp].

(** The time slots of the claim: one more than the largest slot among the
    sources of the in-edges, 0 without in-edges. *)
Definition expected_time : list Z :=
  [0; 1; 0; 0; 1; 2; 2; 3; 4; 1; 2; 2; 3; 5; 6].

(** *** The depth first searches of [main] *)

(** Modelled from the spec: "Incidence: out_edges(u)", the stored edges
    whose source is [u], in insertion order. *)
Definition out_edges (u : nat) (gr : Graph) : list Edge :=
  List.filter (fun e => Nat.eqb (fst e) u) (m_edges gr).

(** Modelled from the spec: "add_edge(u,v) appends an edge", as called by
    [add_edge(bar_cpp, dax_h, g)] on two vertices of the graph. *)
Definition add_edge (u v : nat) (gr : Graph) : Graph :=
  {| num_vertices := num_vertices gr; m_edges := m_edges gr ++ [(u, v)] |}.

(** The events at which a depth first search calls its visitor. *)
Inductive event : Type :=
  | discover_vertex (u : nat)
  | tree_edge (e : Edge)
  | back_edge (e : Edge)
  | forward_or_cross_edge (e : Edge)
  | finish_vertex (u : nat).

(** The state of a search: the vertices visited so far, the active
    recursion stack (innermost call first), and the events in the order in
    which the visitor received them. *)
Record dfs_state : Type := mk_dfs
  { visited : gset nat;
    stack : list nat;
    events : list event }.

Definition log (ev : event) (st : dfs_state) : dfs_state :=
  {| visited := visited st; stack := stack st; events := events st ++ [ev] |}.

(** Modelled from the spec: [depth_first_search] of
    boost/graph/depth_first_search.hpp is not among the sources.
    "classifies traversed edges as tree/back/forward/cross"; "a back edge
    (to a vertex on the active recursion stack)": one out-edge [e] of the
    vertex on top of the stack.  An edge to an unvisited vertex is a tree
    edge and the search continues from its target, which is [rec]. *)
Definition examine (gr : Graph) (rec : nat -> dfs_state -> option dfs_state)
    (acc : option dfs_state) (e : Edge) : option dfs_state :=
  match acc with
  | None => None
  | Some st =>
      let v := target e gr in
      if decide (v ∈ visited st) then
        if decide (v ∈ stack st) then Some (log (back_edge e) st)
        else Some (log (forward_or_cross_edge e) st)
      else rec v (log (tree_edge e) st)
  end.

(** Modelled from the spec: "recursively visit unvisited out-neighbors
    before recording the current vertex (post-order)".  [None] is a search
    cut short by [fuel]. *)
Fixpoint dfs_visit (gr : Graph) (fuel : nat) (u : nat) (st : dfs_state)
  : option dfs_state :=
  match fuel with
  | O => None
  | S fuel' =>
      match fold_left (examine gr (dfs_visit gr fuel')) (out_edges u gr)
              (Some {| visited := {[u]} ∪ visited st;
                       stack := u :: stack st;
                       events := events st ++ [discover_vertex u] |}) with
      | None => None
      | Some st' =>
          Some {| visited := visited st';
                  stack := tail (stack st');
                  events := events st' ++ [finish_vertex u] |}
      end
  end.

(** Modelled from the spec: "Boolean predicate over the whole graph": the
    search is started from every vertex, in index order, that no earlier
    start has visited.  A call never nests deeper than the number of
    vertices, which is the fuel. *)
Definition start_from (gr : Graph) (acc : option dfs_state) (u : nat)
  : option dfs_state :=
  match acc with
  | None => None
  | Some st =>
      if decide (u ∈ visited st) then Some st
      else dfs_visit gr (num_vertices gr) u st
  end.

Definition depth_first_search (gr : Graph) : option dfs_state :=
  fold_left (start_from gr) (seq 0 (num_vertices gr))
    (Some {| visited := ∅; stack := []; events := [] |}).

(** [cycle_detector::back_edge]: [m_has_cycle = true]; the visitor leaves
    every other event to the default, which does nothing. *)
Definition cycle_detector (m_has_cycle : bool) (ev : event) : bool :=
  match ev with
  | back_edge _ => true
  | _ => m_has_cycle
  end.

(** [bool has_cycle = false; cycle_detector vis(has_cycle);
    depth_first_search(g, visitor(vis));] and the value of [has_cycle]
    that [main] prints afterwards. *)
Definition has_cycle (gr : Graph) : option bool :=
  st ← depth_first_search gr;
  Some (fold_left cycle_detector (events st) false).

(** Modelled from the spec: [topological_sort] of
    boost/graph/topological_sort.hpp is not among the sources.  "DFS-based:
    ... recording the current vertex (post-order), then reverse the
    recorded order.  A back edge ... signals CycleDetected; no order is
    produced in that case."  [main] passes [std::front_inserter(make_order)],
    so every recorded vertex goes to the front of the list.  The error is
    absorbing: the events after it change nothing. *)
Inductive sort_result : Type :=
  | not_a_dag
  | sorted (make_order : list nat).

Definition topo_sort_visitor (acc : sort_result) (ev : event) : sort_result :=
  match acc, ev with
  | sorted l, finish_vertex u => sorted (u :: l)
  | sorted l, back_edge _ => not_a_dag
  | _, _ => acc
  end.

Definition topological_sort (gr : Graph) : option sort_result :=
  st ← depth_first_search gr;
  Some (fold_left topo_sort_visitor (events st) (sorted [])).

(** *** Notions used to state what the searches find *)

Definition arc (gr : Graph) (x y : nat) : Prop := In (x, y) (m_edges gr).

(** A directed cycle: some vertex reaches itself along at least one edge. *)
Definition cyclic (gr : Graph) : Prop := exists x, tc (arc gr) x x.

(** Both ends of every stored edge are vertices of the graph. *)
Definition wf_graph (gr : Graph) : Prop :=
  forall e, In e (m_edges gr) -> (fst e < num_vertices gr)%nat /\ (snd e < num_vertices gr)%nat.

(** The vertices recorded by the finish events, first recorded first. *)
Definition finished (evs : list event) : list nat :=
  omap (fun ev => match ev with finish_vertex u => Some u | _ => None end) evs.

Definition no_back (evs : list event) : Prop := forall e, back_edge e ∉ evs.

(** In the post-order [l] every successor of a vertex is recorded before
    the vertex. *)
Definition closed (gr : Graph) (l : list nat) : Prop :=
  forall i x y, l !! i = Some x -> arc gr x y -> exists j, (j < i)%nat /\ l !! j = Some y.

Record dfs_ok (gr : Graph) (st : dfs_state) : Prop := mk_dfs_ok
  { ok_range : forall x, x ∈ visited st -> (x < num_vertices gr)%nat;
    ok_stack : forall x, x ∈ stack st -> x ∈ visited st;
    ok_fin : forall x, x ∈ finished (events st) <-> x ∈ visited st /\ x ∉ stack st;
    ok_nodup : NoDup (finished (events st));
    ok_back : (exists e, back_edge e ∈ events st) -> cyclic gr;
    ok_closed : no_back (events st) -> closed gr (finished (events st)) }.

(** What a visit of [u] achieves, for a search [rec] that may use [budget]
    further levels of recursion. *)
Definition visit_spec (gr : Graph) (rec : nat -> dfs_state -> option dfs_state)
    (budget : nat) : Prop :=
  forall u st,
    dfs_ok gr st -> (u < num_vertices gr)%nat -> u ∉ visited st ->
    (forall x, x ∈ stack st -> tc (arc gr) x u) ->
    (num_vertices gr <= size (visited st) + budget)%nat ->
    exists st', rec u st = Some st' /\ dfs_ok gr st' /\ stack st' = stack st /\
                visited st ⊆ visited st' /\ u ∈ visited st' /\
                events st `prefix_of` events st'.

(** *** The breadth first search of [main] *)

(** [const char* name[]]. *)
Definition name : list string :=
  [ "dax.h"; "yow.h"; "boz.h"; "zow.h"; "foo.cpp";
    "foo.o"; "bar.cpp"; "bar.o"; "libfoobar.a";
    "zig.cpp"; "zig.o"; "zag.cpp"; "zag.o";
    "libzigzag.a"; "killerapp" ]%string.

(** The state of a breadth first search: the queue, and the vertices in the
    order of their [discover_vertex] events. *)
Record bfs_state : Type := mk_bfs
  { queue : list nat;
    discovered : list nat }.

(** Modelled from the spec: [breadth_first_search] of
    boost/graph/breadth_first_search.hpp is not among the sources.
    "explores vertices in non-decreasing hop-distance order from a source":
    an out-edge of the dequeued vertex towards a vertex not seen before
    discovers that vertex, which calls the visitor and enqueues it. *)
Definition bfs_examine (gr : Graph) (st : bfs_state) (e : Edge) : bfs_state :=
  let v := target e gr in
  if decide (v ∈ discovered st) then st
  else {| queue := queue st ++ [v]; discovered := discovered st ++ [v] |}.

(** Modelled from the spec: the loop of the search, which ends when the
    queue is empty.  [None] is a search cut short by [fuel]. *)
Fixpoint bfs_loop (gr : Graph) (fuel : nat) (st : bfs_state) : option bfs_state :=
  match queue st with
  | [] => Some st
  | u :: q =>
      match fuel with
      | O => None
      | S fuel' =>
          bfs_loop gr fuel'
            (fold_left (bfs_examine gr) (out_edges u gr)
               {| queue := q; discovered := discovered st |})
      end
  end.

(** Every vertex is dequeued at most once, so [num_vertices] rounds are
    enough. *)
Definition breadth_first_search (gr : Graph) (s : nat) : option bfs_state :=
  bfs_loop gr (num_vertices gr) {| queue := [s]; discovered := [s] |}.

(** [print_visitor::discover_vertex]: [std::cout << name[v] << " "]; the
    names printed by [breadth_first_search(g, vertex(yow_h, g),
    visitor(vis))], in order. *)
Definition print_visitor (out : list string) (v : nat) : list string :=
  out ++ [default String.EmptyString (name !! v)].

Definition printed (gr : Graph) (s : nat) : option (list string) :=
  st ← breadth_first_search gr s;
  Some (fold_left print_visitor (discovered st) []).

(** The invariant of the loop: the queue is the end of the discovery list,
    and the out-edges of the vertices before it lead to discovered
    vertices. *)
Record bfs_ok (gr : Graph) (s : nat) (st : bfs_state) : Prop := mk_bfs_ok
  { bfs_split : exists done, discovered st = done ++ queue st /\
      forall u v, u ∈ done -> arc gr u v -> v ∈ discovered st;
    bfs_nodup : NoDup (discovered st);
    bfs_reach : forall v, v ∈ discovered st ->
      (v < num_vertices gr)%nat /\ rtc (arc gr) s v;
    bfs_start : head (discovered st) = Some s }.

End FileDeps.

(** ** Elementary circuits, as called from [test/hawick_circuits.cpp] *)

Module Circuits.

Local Open Scope nat_scope.

(** A directed graph over the vertices [0 .. length g - 1]: the list of the
    out-neighbours of every vertex, in the order of its out-edges.  A
    self-loop lists the vertex itself, parallel arcs repeat the target. *)
Abbreviation graph := (list (list nat)) (only parsing).

Definition num_vertices (g : graph) : nat := length g.

Definition adjacent_vertices (g : graph) (v : nat) : list nat := default [] (g !! v).

Definition wf_graph (g : graph) : Prop :=
  forall v w, w ∈ adjacent_vertices g v -> w < num_vertices g.

(** Modelled from the spec: "per-start blocked/closed bookkeeping", the
    state of one search: the per-vertex "blocked" flags, for every vertex
    [w] the vertices that are closed to [w] (blocked until [w] is
    unblocked), and the sequences handed to the visitor so far. *)
Record search : Type := mk_search
  { blocked : gset nat;
    closed : gmap nat (list nat);
    cycles : list (list nat) }.

Definition empty_search : search := {| blocked := ∅; closed := ∅; cycles := [] |}.

Definition closed_to (st : search) (w : nat) : list nat := default [] (closed st !! w).

Definition block (v : nat) (st : search) : search :=
  {| blocked := {[v]} ∪ blocked st; closed := closed st; cycles := cycles st |}.

Definition close_to (w v : nat) (st : search) : search :=
  {| blocked := blocked st; closed := <[w := closed_to st w ++ [v]]> (closed st);
     cycles := cycles st |}.

Definition report (c : list nat) (st : search) : search :=
  {| blocked := blocked st; closed := closed st; cycles := cycles st ++ [c] |}.

(** Modelled from the spec: "propagate "unblock" back along the successful
    path so revisited prefixes remain explorable".  Unblocking [u] takes the
    vertices closed to [u], last first, and unblocks those that are still
    blocked.  [None] is a search cut short by [fuel]. *)
Fixpoint unblock (fuel : nat) (u : nat) (st : search) : option search :=
  match fuel with
  | O => None
  | S fuel' =>
      fold_left
        (fun (acc : option search) (w : nat) =>
           match acc with
           | None => None
           | Some st' => if decide (w ∈ blocked st') then unblock fuel' w st' else Some st'
           end)
        (reverse (closed_to st u))
        (Some {| blocked := blocked st ∖ {[u]};
                 closed := <[u := []]> (closed st);
                 cycles := cycles st |})
  end.

Section Enumeration.

Variable g : graph.
(** The start vertex of the search. *)
Variable s : nat.

(** Modelled from the spec: one out-neighbour [w] of the vertex on top of
    [path].  "restricting exploration to vertices with index >= s": [w] is
    skipped below [s]; "on reaching s again, report the circuit"; a
    blocked [w] is skipped; otherwise the search continues from [w], which
    is [rec]. *)
Definition explore (rec : list nat -> nat -> search -> option (bool * search))
    (path : list nat) (acc : option (bool * search)) (w : nat)
  : option (bool * search) :=
  match acc with
  | None => None
  | Some (found, st) =>
      if w <? s then acc
      else if w =? s then Some (true, report path st)
      else if decide (w ∈ blocked st) then acc
      else match rec path w st with
           | None => None
           | Some (found', st') => Some (found || found', st')
           end
  end.

(** Modelled from the spec: "blocked/closed bookkeeping".  A vertex below
    which no circuit was found stays blocked and is closed to each of its
    explorable out-neighbours. *)
Definition close_all (v : nat) (st : search) : search :=
  fold_left
    (fun (st' : search) (w : nat) =>
       if w <? s then st'
       else if decide (v ∈ closed_to st' w) then st'
       else close_to w v st')
    (adjacent_vertices g v) st.

(** Modelled from the spec: [hawick_circuits] and [hawick_unique_circuits]
    of boost/graph/hawick_circuits.hpp are not among the sources, which only
    forward to them.  "run a DFS from s maintaining per-vertex "blocked"
    flags; on reaching s again, report the circuit and propagate "unblock"
    back along the successful path".  The boolean tells whether a circuit
    was reported below [v]; [None] is a search cut short by [fuel]. *)
Fixpoint circuit (fuel : nat) (stack : list nat) (v : nat) (st : search)
  : option (bool * search) :=
  match fuel with
  | O => None
  | S fuel' =>
      let path := stack ++ [v] in
      match fold_left (explore (circuit fuel') path)
              (adjacent_vertices g v) (Some (false, block v st)) with
      | None => None
      | Some (true, st') =>
          match unblock (S (size (blocked st'))) v st' with
          | None => None
          | Some st'' => Some (true, st'')
          end
      | Some (false, st') => Some (false, close_all v st')
      end
  end.

(** Modelled from the spec: "reset all blocking state between starts":
    every start begins with nothing blocked or closed.  The stack holds no
    vertex twice, so [num_vertices] levels of recursion are enough. *)
Definition circuits_from : option (list (list nat)) :=
  match circuit (num_vertices g) [] s empty_search with
  | None => None
  | Some (_, st) => Some (cycles st)
  end.

End Enumeration.

(** Modelled from the spec: "for each start vertex s (processed in
    increasing index order ...)"; the sequences reported from the starts
    are handed to the visitor one start after the other. *)
Fixpoint for_each_start (from : nat -> option (list (list nat))) (starts : list nat)
  : option (list (list nat)) :=
  match starts with
  | [] => Some []
  | s :: rest =>
      match from s, for_each_start from rest with
      | Some cs, Some cs' => Some (cs ++ cs')
      | _, _ => None
      end
  end.

(** Modelled from the spec: [hawick_circuits], the all-circuits mode.
    "enumerate every closed walk that repeats no vertex except start/end,
    including self-loops and parallel arcs"; "for each start vertex s
    (processed in increasing index order, restricting exploration to
    vertices with index >= s to avoid duplicate reports across starts)".
    The restriction belongs to the algorithm, so it holds in both modes;
    the out-neighbours are followed as they are listed, a parallel arc
    once more. *)
Definition hawick_circuits (g : graph) : option (list (list nat)) :=
  for_each_start (circuits_from g) (seq 0 (num_vertices g)).

(** The out-neighbours of every vertex, each listed once. *)
Definition unique_adjacency (g : graph) : graph := remove_dups <$> g.

(** Modelled from the spec: [hawick_unique_circuits], the unique-circuits
    mode.  "unique circuits (one representative per rotation-equivalence
    class, canonicalized by, e.g., smallest-index-first)".  The restriction
    to indices >= s already reports a circuit from its smallest vertex
    only.  Closed walks that differ in a parallel arc only visit the same
    vertices in the same order, and the unique mode reports one of them: it
    runs the same search and follows every out-neighbour of a vertex
    once. *)
Definition hawick_unique_circuits (g : graph) : option (list (list nat)) :=
  hawick_circuits (unique_adjacency g).

(** *** Elementary circuits *)

Definition arc (g : graph) (a b : nat) : Prop := b ∈ adjacent_vertices g a.

(** The number of arcs from [a] to [b]. *)
Definition arcs (g : graph) (a b : nat) : nat :=
  length (filter (fun w => w = b) (adjacent_vertices g a)).

Fixpoint path (g : graph) (p : list nat) : Prop :=
  match p with
  | [] => True
  | a :: q => match q with
              | [] => True
              | b :: _ => arc g a b /\ path g q
              end
  end.

(** A closed walk that repeats no vertex, given by the sequence of its
    vertices from some start: consecutive vertices are joined by arcs, and
    so are the last and the first. *)
Definition is_circuit (g : graph) (c : list nat) : Prop :=
  NoDup c /\ path g c /\
  exists a b, last c = Some a /\ head c = Some b /\ arc g a b.

(** The rotation of [c] that starts at its vertex [s]. *)
Fixpoint index_of (s : nat) (l : list nat) : nat :=
  match l with
  | [] => 0
  | x :: l' => if decide (x = s) then 0 else S (index_of s l')
  end.

Definition rotation_from (c : list nat) (s : nat) : list nat :=
  rotate (index_of s c) c.

(** The directed cycle 0 -> 1 -> 0. *)
Definition two_cycle : graph := [[1]; [0]].

(** The same cycle, with two parallel arcs from 0 to a vertex 2 that has no
    out-arc. *)
Definition cycle_with_doubled_exit : graph := [[1; 2; 2]; [0]; []].

(** The same cycle, with its arc from 0 to 1 doubled. *)
Definition doubled_two_cycle : graph := [[1; 1]; [0]].

(** *** Notions used by the proofs *)

(** [p] can be continued to an elementary circuit within the vertices of
    index at least [s]. *)
Definition good (g : graph) (s : nat) (p : list nat) : Prop :=
  exists c, is_circuit g c /\ (forall x, x ∈ c -> s <= x) /\ p `prefix_of` c.

(** No vertex of the set [on] is closed to any vertex. *)
Definition closed_ok (on : nat -> Prop) (st : search) : Prop :=
  forall w x, x ∈ closed_to st w -> ~ on x.

(** What a search that reports nothing may change: it blocks vertices
    outside [on] and closes them to others. *)
Definition frame (on : nat -> Prop) (st st' : search) : Prop :=
  cycles st' = cycles st /\
  blocked st ⊆ blocked st' /\
  (forall x, x ∈ blocked st' -> x ∈ blocked st \/ ~ on x) /\
  (closed_ok on st -> closed_ok on st').

(** The stack with [v] pushed is a simple path from [s] within the
    explorable vertices, and the vertices below [v] are blocked. *)
Definition call_ok (g : graph) (s : nat) (stack : list nat) (v : nat)
    (st : search) : Prop :=
  NoDup (stack ++ [v]) /\
  path g (stack ++ [v]) /\
  head (stack ++ [v]) = Some s /\
  (forall x, x ∈ stack ++ [v] -> s <= x < num_vertices g) /\
  (forall x, x ∈ stack -> x ∈ blocked st).

End Circuits.

(** * Properties *)

(** ** Lists *)

Lemma filter_none {A} (f : A -> bool) (l : list A) :
  (forall y, In y l -> f y = false) -> List.filter f l = [].
Proof.
  induction l as [|a l IH]; intros Hf; [done|]. simpl.
  rewrite (Hf a) by (by left). apply IH. intros y Hy. apply Hf. by right.
Qed.

(** A duplicate free list in which exactly one element passes a test has a
    filter of length one. *)
Lemma filter_unique_length {A} (f : A -> bool) (l : list A) (x : A) :
  List.NoDup l -> In x l -> (forall y, In y l -> f y = true <-> y = x) ->
  length (List.filter f l) = 1%nat.
Proof.
  induction l as [|a l IH]; intros Hnd Hin Hf; [destruct Hin|].
  inversion Hnd as [|? ? Hnotin Hnd']; subst. simpl.
  destruct (f a) eqn:Hfa.
  - assert (a = x) as -> by (apply Hf; [by left | done]).
    simpl. f_equal.
    assert (List.filter f l = []) as ->; [|done].
    apply filter_none. intros y Hy.
    destruct (f y) eqn:Hfy; [|done].
    assert (y = x) as -> by (apply Hf; [by right | done]). done.
  - destruct Hin as [->|Hin].
    + assert (f x = true) by (apply Hf; [by left | done]). congruence.
    + apply IH; [done..|]. intros y Hy. apply Hf. by right.
Qed.

Module RingFacts.
Import Ring.

Lemma counting_range_length a b : length (counting_range a b) = Z.to_nat (b - a).
Proof. unfold counting_range. by rewrite length_map, length_seq. Qed.

Lemma counting_range_In a b x : In x (counting_range a b) <-> a <= x < b.
Proof.
  unfold counting_range. rewrite in_map_iff. split.
  - intros (k & <- & Hk). apply in_seq in Hk. lia.
  - intros Hx. exists (Z.to_nat (x - a)). split; [lia|]. apply in_seq. lia.
Qed.

Lemma counting_range_NoDup a b : List.NoDup (counting_range a b).
Proof.
  unfold counting_range. apply Finite.Injective_map_NoDup.
  - intros i j Hij. lia.
  - apply List.seq_NoDup.
Qed.

Lemma counting_range_one a : counting_range a (a + 1) = [a].
Proof.
  unfold counting_range. replace (a + 1 - a) with 1 by lia.
  simpl. f_equal. lia.
Qed.

Lemma counting_range_two a : counting_range a (a + 2) = [a; a + 1].
Proof.
  unfold counting_range. replace (a + 2 - a) with 2 by lia.
  simpl. f_equal. lia.
Qed.

Lemma to_size_t_small z : is_size_t z -> to_size_t z = z.
Proof. unfold is_size_t, to_size_t. intros. by apply Z.mod_small. Qed.

Lemma to_size_t_minus_one : to_size_t (-1) = size_t_modulus - 1.
Proof. reflexivity. Qed.

Lemma succ_mod nn u : 0 <= u < nn -> (u + 1) mod nn = if u =? nn - 1 then 0 else u + 1.
Proof.
  intros Hu. destruct (Z.eqb_spec u (nn - 1)) as [->|Hne].
  - replace (nn - 1 + 1) with nn by lia. apply Z.mod_same. lia.
  - apply Z.mod_small. lia.
Qed.

Lemma pred_mod nn u : 0 <= u < nn -> (u - 1) mod nn = if u =? 0 then nn - 1 else u - 1.
Proof.
  intros Hu. destruct (Z.eqb_spec u 0) as [->|Hne].
  - symmetry. apply (Z.mod_unique _ _ (-1)); lia.
  - apply Z.mod_small. lia.
Qed.

Lemma dereference_first g u :
  0 <= u < n g -> n g < size_t_modulus ->
  dereference (incident_start g u) = (u, (u + 1) mod n g).
Proof.
  intros Hu Hn. unfold dereference, incident_start. simpl.
  rewrite andb_false_r. unfold ring_offset. simpl.
  rewrite (to_size_t_small 1) by (unfold is_size_t, size_t_modulus; lia).
  rewrite to_size_t_small by (unfold is_size_t; lia). done.
Qed.

Lemma dereference_second g u :
  0 <= u < n g -> n g < size_t_modulus ->
  dereference {| ie_base := 1; m_n := n g; m_u := u |} = (u, (u - 1) mod n g).
Proof.
  intros Hu Hn. unfold dereference. simpl. rewrite andb_true_r.
  rewrite pred_mod by done.
  destruct (Z.eqb_spec u 0) as [->|Hne].
  - rewrite to_size_t_small by (unfold is_size_t; lia). done.
  - unfold ring_offset. simpl. rewrite to_size_t_minus_one.
    replace (to_size_t (u + (size_t_modulus - 1))) with (u - 1).
    + rewrite Z.mod_small by lia. done.
    + unfold to_size_t. apply (Z.mod_unique _ _ 1); unfold size_t_modulus in *; lia.
Qed.

Lemma out_edges_small g u :
  0 <= u < n g -> n g <= 2 ->
  out_edges u g = [(u, (u + 1) mod n g)].
Proof.
  intros Hu Hn. unfold out_edges.
  replace (ie_base (incident_end g u)) with (0 + 1)
    by (simpl; destruct (Z.ltb_spec 2 (n g)); lia).
  simpl ie_base at 1. rewrite counting_range_one. simpl.
  rewrite <- (dereference_first g u) by (unfold size_t_modulus; lia). done.
Qed.

Lemma out_edges_large g u :
  0 <= u < n g -> 2 < n g < size_t_modulus ->
  out_edges u g = [(u, (u + 1) mod n g); (u, (u - 1) mod n g)].
Proof.
  intros Hu Hn. unfold out_edges.
  replace (ie_base (incident_end g u)) with (0 + 2)
    by (simpl; destruct (Z.ltb_spec 2 (n g)); lia).
  simpl ie_base at 1. rewrite counting_range_two. simpl.
  rewrite <- (dereference_first g u), <- (dereference_second g u) by lia. done.
Qed.


Lemma same_connection_spec e1 e2 :
  same_connection e1 e2 = true <-> e1 = e2 \/ e1 = (snd e2, fst e2).
Proof.
  destruct e1 as [a b], e2 as [c d]. unfold same_connection. simpl.
  rewrite orb_true_iff, !andb_true_iff, !Z.eqb_eq.
  split; intros [H|H]; [left|right|left|right]; first [by destruct H; subst | by inversion H].
Qed.

Lemma edges_eq g :
  1 <= n g < size_t_modulus ->
  edges g = map (fun v => (v, (v + 1) mod n g)) (counting_range 0 (num_edges g)).
Proof.
  intros Hn. unfold edges, edge_iterator_start, edge_iterator_end, num_edges, num_vertices.
  apply map_ext_in. intros v Hv. apply counting_range_In in Hv.
  unfold edge_dereference. apply dereference_first; [|lia].
  destruct (Z.eqb_spec (n g) 2); lia.
Qed.

Lemma out_edges_In g u e :
  1 <= n g < size_t_modulus -> 0 <= u < n g ->
  In e (out_edges u g) ->
  e = (u, (u + 1) mod n g) \/ (2 < n g /\ e = (u, (u - 1) mod n g)).
Proof.
  intros Hn Hu. destruct (Z.le_gt_cases (n g) 2).
  - rewrite out_edges_small by done. intros [<-|[]]. by left.
  - rewrite out_edges_large by lia. intros [<-|[<-|[]]]; [by left|right]. split; [lia|done].
Qed.

(** C1 (evaluation of the code): every connection that [out_edges] reports
    at vertex 0 - among them (0, 1) and the wraparound (0, n-1) - is denied
    by [edge], in both orientations, because of the tests [u > 0] and
    [v > 0]. *)
Theorem edge_denies_out_edges_of_vertex_zero (g : ring_graph) :
  2 <= n g < size_t_modulus ->
  In (0, 1) (out_edges 0 g) /\
  In (0, n g - 1) (out_edges 0 g) /\
  ring_adjacent (n g) 0 1 /\ ring_adjacent (n g) 0 (n g - 1) /\
  forall e, In e (out_edges 0 g) ->
    edge (fst e) (snd e) g = ((0, 0), false) /\
    edge (snd e) (fst e) g = ((0, 0), false).
Proof.
  intros Hn.
  assert (H0 : 0 <= 0 < n g) by lia.
  repeat split.
  - destruct (Z.le_gt_cases (n g) 2).
    + rewrite out_edges_small, succ_mod by lia.
      destruct (Z.eqb_spec 0 (n g - 1)); [lia|]. by left.
    + rewrite out_edges_large, succ_mod by lia.
      destruct (Z.eqb_spec 0 (n g - 1)); [lia|]. by left.
  - destruct (Z.le_gt_cases (n g) 2).
    + rewrite out_edges_small, succ_mod by lia.
      destruct (Z.eqb_spec 0 (n g - 1)); [lia|]. left. f_equal. lia.
    + rewrite out_edges_large, pred_mod by lia. right. left. done.
  - unfold ring_adjacent. lia.
  - unfold ring_adjacent. lia.
  - apply out_edges_In in H; [|lia..].
    destruct H as [->|[_ ->]]; simpl; unfold edge; simpl;
      by rewrite ?andb_false_r.
  - apply out_edges_In in H; [|lia..].
    destruct H as [->|[_ ->]]; simpl; unfold edge; simpl;
      by rewrite ?andb_false_r.
Qed.

Lemma edge_denies_out_edges_of_vertex_zero_witness :
  In (0, 1) (out_edges 0 (mk_ring_graph 5)) /\
  edge 0 4 (mk_ring_graph 5) = ((0, 0), false).
Proof.
  pose proof (edge_denies_out_edges_of_vertex_zero (mk_ring_graph 5)) as H.
  destruct H as (H1 & H2 & _ & _ & H3).
  - simpl. unfold size_t_modulus. lia.
  - split; [exact H1|]. exact (proj1 (H3 (0, 4) H2)).
Defined.

(** C4 (counterexample): on the ring of size 2, [out_degree] reports 2 while
    [out_edges] yields a single edge. *)
Lemma out_degree_differs_from_out_edges_size_two :
  out_degree 0 (mk_ring_graph 2) = 2 /\
  out_edges 0 (mk_ring_graph 2) = [(0, 1)] /\
  out_degree 0 (mk_ring_graph 2) <> Z.of_nat (length (out_edges 0 (mk_ring_graph 2))).
Proof. split; [reflexivity|split; [reflexivity|]]. vm_compute. discriminate. Qed.

(** C4 (amended): [out_degree] is always 2; [out_edges(u)] has two elements
    for [n >= 3], where the Incidence equation holds, and exactly one for
    the degenerate sizes: the self-loop [(0,0)] for [n = 1] and the shared
    edge [(u, 1-u)] for [n = 2]. *)
Theorem out_degree_vs_out_edges (g : ring_graph) (u : Z) :
  1 <= n g < size_t_modulus -> 0 <= u < n g ->
  out_degree u g = 2 /\
  (3 <= n g -> Z.of_nat (length (out_edges u g)) = out_degree u g) /\
  (n g = 1 -> out_edges u g = [(0, 0)]) /\
  (n g = 2 -> out_edges u g = [(u, 1 - u)]).
Proof.
  intros Hn Hu. repeat split.
  - intros H3. rewrite out_edges_large by lia. done.
  - intros H1. rewrite out_edges_small, succ_mod by lia.
    assert (u = 0) as -> by lia. rewrite H1. done.
  - intros H2. rewrite out_edges_small, succ_mod by lia.
    rewrite H2. destruct (Z.eqb_spec u (2 - 1)); do 2 f_equal; lia.
Qed.

Lemma out_degree_vs_out_edges_witness :
  out_degree 3 (mk_ring_graph 5) = 2 /\
  Z.of_nat (length (out_edges 3 (mk_ring_graph 5))) = out_degree 3 (mk_ring_graph 5).
Proof.
  assert (Hn : 1 <= n (mk_ring_graph 5) < size_t_modulus)
    by (simpl; unfold size_t_modulus; lia).
  assert (Hu : 0 <= 3 < n (mk_ring_graph 5)) by (simpl; lia).
  destruct (out_degree_vs_out_edges (mk_ring_graph 5) 3 Hn Hu) as (H1 & H2 & _).
  split; [exact H1|]. apply H2. simpl. lia.
Defined.

Lemma num_edges_range g : 1 <= n g -> 1 <= num_edges g <= n g.
Proof. unfold num_edges. destruct (Z.eqb_spec (n g) 2); lia. Qed.

(** C7: [num_edges] is [n], except 1 for [n = 2]; [edges] has that many
    elements, vertex [v] contributing [(v, (v+1) mod n)] in increasing
    order of [v] (for [n = 2] only vertex 0 contributes); and every
    connection reported by some [out_edges(u)] occurs exactly once in
    [edges], up to the orientation of the descriptor. *)
Theorem edges_enumerates_each_edge_once (g : ring_graph) :
  1 <= n g < size_t_modulus ->
  num_edges g = (if n g =? 2 then 1 else n g) /\
  Z.of_nat (length (edges g)) = num_edges g /\
  edges g = map (fun v => (v, (v + 1) mod n g)) (counting_range 0 (num_edges g)) /\
  (n g = 2 -> edges g = [(0, 1)]) /\
  forall u e, 0 <= u < n g -> In e (out_edges u g) ->
    length (List.filter (same_connection e) (edges g)) = 1%nat.
Proof.
  intros Hn. pose proof (num_edges_range g ltac:(lia)) as Hm.
  split; [done|]. split; [|split; [by apply edges_eq|split]].
  - rewrite edges_eq, length_map, counting_range_length by done. lia.
  - intros H2. rewrite edges_eq by done. unfold num_edges. rewrite H2. done.
  - intros u e Hu He. rewrite edges_eq by done.
    apply out_edges_In in He; [|done..].
    set (w := if decide (e = (u, (u + 1) mod n g) /\ (n g = 2 -> u = 0))
              then u else (u - 1) mod n g).
    assert (Hw : 0 <= w < num_edges g /\
                 forall v, 0 <= v < num_edges g ->
                   same_connection e (v, (v + 1) mod n g) = true <-> v = w).
    { unfold num_edges in *. subst w.
      destruct He as [->|[H3 ->]].
      - case_decide as Hd.
        + split; [destruct (Z.eqb_spec (n g) 2); lia|].
          intros v Hv. rewrite same_connection_spec. simpl.
          rewrite !succ_mod by (destruct (Z.eqb_spec (n g) 2); lia).
          destruct (Z.eqb_spec (n g) 2), (Z.eqb_spec u (n g - 1)),
            (Z.eqb_spec v (n g - 1)); split;
            first [ intros [[=]|[=]]; lia | intros ->; left; f_equal; lia | lia ].
        + assert (n g = 2 /\ u = 1) as [H2 ->].
          { destruct (decide (n g = 2)) as [H2|H2].
            - split; [done|]. destruct (decide (u = 0)) as [->|]; [|lia].
              exfalso. by apply Hd.
            - exfalso. apply Hd. split; [done|]. intros; lia. }
          rewrite H2. change ((1 - 1) mod 2) with 0. change (2 =? 2) with true.
          cbv iota. split; [lia|].
          intros v Hv. assert (v = 0) as -> by lia. split; [done|]. intros _.
          apply same_connection_spec. by right.
      - case_decide as Hd.
        + exfalso. destruct Hd as [[=Hd] _]. revert Hd.
          rewrite succ_mod, pred_mod by lia.
          destruct (Z.eqb_spec u (n g - 1)), (Z.eqb_spec u 0); lia.
        + split.
          * rewrite pred_mod by lia.
            destruct (Z.eqb_spec (n g) 2), (Z.eqb_spec u 0); lia.
          * intros v Hv. rewrite same_connection_spec. simpl.
            destruct (Z.eqb_spec (n g) 2); [lia|].
            rewrite succ_mod, pred_mod by lia.
            destruct (Z.eqb_spec u 0), (Z.eqb_spec v (n g - 1)); split;
              first [ intros [[=]|[=]]; lia | intros ->; right; f_equal; lia | lia ]. }
    destruct Hw as [Hw1 Hw2].
    assert (Hfm : forall (l : list Z),
      map (fun v => (v, (v + 1) mod n g))
          (List.filter (fun v => same_connection e (v, (v + 1) mod n g)) l)
      = List.filter (same_connection e) (map (fun v => (v, (v + 1) mod n g)) l)).
    { induction l as [|a l IH]; [done|]. simpl.
      destruct (same_connection e (a, (a + 1) mod n g)); simpl; by rewrite IH. }
    rewrite <- Hfm, length_map.
    apply (filter_unique_length _ _ w).
    + apply counting_range_NoDup.
    + apply counting_range_In. lia.
    + intros v Hv. apply counting_range_In in Hv. apply Hw2. lia.
Qed.

Lemma edges_enumerates_each_edge_once_witness :
  edges (mk_ring_graph 5) = [(0, 1); (1, 2); (2, 3); (3, 4); (4, 0)] /\
  length (List.filter (same_connection (0, 4)) (edges (mk_ring_graph 5))) = 1%nat.
Proof.
  assert (Hn : 1 <= n (mk_ring_graph 5) < size_t_modulus)
    by (simpl; unfold size_t_modulus; lia).
  destruct (edges_enumerates_each_edge_once (mk_ring_graph 5) Hn) as (_ & _ & _ & _ & H).
  split; [reflexivity|]. apply (H 0); [simpl; lia|]. right. left. reflexivity.
Defined.

(** C8 (counterexample): in the ring of size [2^64 - 1] the edge
    [(2^63, 2^63 + 1)] is an out-edge of vertex [2^63]; the sum of its
    endpoints wraps around to 1, so its weight is 1/2 and not
    [(2^63 + (2^63 + 1)) / 2]. *)
Lemma edge_weight_wraps_for_large_vertices :
  let g := mk_ring_graph (2 ^ 64 - 1) in
  let e := (2 ^ 63, 2 ^ 63 + 1) in
  In e (out_edges (2 ^ 63) g) /\
  get_edge_weight g e == 1 # 2 /\
  ~ get_edge_weight g e == inject_Z (source e g + target e g) / 2.
Proof.
  split; [by left|]. split; [reflexivity|].
  intros H. vm_compute in H. discriminate.
Qed.

(** Above [2^53] the conversion to [double] rounds: the sum [2^53 + 1] of
    the endpoints of an edge of a ring of [2^52 + 2] vertices becomes
    [2^53]. *)
Lemma edge_weight_rounds_above_2_53 :
  In (2 ^ 52, 2 ^ 52 + 1) (out_edges (2 ^ 52) (mk_ring_graph (2 ^ 52 + 2))) /\
  get_edge_weight (mk_ring_graph (2 ^ 52 + 2)) (2 ^ 52, 2 ^ 52 + 1) == inject_Z (2 ^ 52).
Proof. split; [by left|reflexivity]. Qed.

(** C8 (amended): when the endpoints are non negative and their sum is below
    [2^53] - in particular in every ring of at most [2^52] vertices - the
    weight read from the map is exactly the average of source and target; it
    depends on the descriptor only; and the five edges of the ring of size 5
    weigh 0.5, 1.5, 2.5, 3.5 and 2. *)
Theorem edge_weight_is_average (g : ring_graph) (e : edge_descriptor) :
  0 <= fst e -> 0 <= snd e -> fst e + snd e < 2 ^ 53 ->
  get_edge_weight g e == inject_Z (source e g + target e g) / 2 /\
  (forall g', get_edge_weight g' e = get_edge_weight g e) /\
  Forall2 Qeq (map (get_edge_weight (mk_ring_graph 5)) (edges (mk_ring_graph 5)))
              [1 # 2; 3 # 2; 5 # 2; 7 # 2; 2 # 1].
Proof.
  intros H1 H2 H3. split; [|split].
  - unfold get_edge_weight, edge_weight_map_at, source, target.
    rewrite to_size_t_small by (unfold is_size_t, size_t_modulus; lia).
    unfold double_of_size_t.
    destruct (Z.ltb_spec (fst e + snd e) (2 ^ 53)); [reflexivity|lia].
  - done.
  - repeat constructor.
Qed.

Lemma edge_weight_is_average_witness :
  get_edge_weight (mk_ring_graph 5) (4, 0) == 2 # 1.
Proof.
  destruct (edge_weight_is_average (mk_ring_graph 5) (4, 0)) as (H & _); simpl; try lia.
  rewrite H. reflexivity.
Defined.

(** C10 (counterexample): on the ring of size 2 the wraparound connection
    is the descriptor [(0, n-1) = (0, 1)] in [out_edges(0)] and in [edges]
    alike; [(n-1, 0) = (1, 0)] does not occur in [edges]. *)
Lemma wraparound_descriptor_is_shared_for_size_two :
  In (0, 2 - 1) (out_edges 0 (mk_ring_graph 2)) /\
  In (0, 2 - 1) (edges (mk_ring_graph 2)) /\
  ~ In (2 - 1, 0) (edges (mk_ring_graph 2)).
Proof.
  split; [by left|]. split; [by left|].
  intros [H|[]]. discriminate H.
Qed.

(** C10 (amended): every descriptor yielded by [out_edges(u)] has source [u]
    and a target in [[0, n)].  On a ring of at least three vertices the
    wraparound connection is therefore [(0, n-1)] in [out_edges(0)] but
    [(n-1, 0)] in [edges], where [(0, n-1)] does not occur, and the two
    pairs differ.  On the degenerate rings both accessors yield the same
    descriptor: [(0, 1)] for [n = 2], [(0, 0)] for [n = 1]. *)
Theorem out_edges_source_is_vertex (g : ring_graph) (u : Z) :
  1 <= n g < size_t_modulus -> 0 <= u < n g ->
  (forall e, In e (out_edges u g) ->
     source e g = u /\ 0 <= target e g < n g) /\
  (3 <= n g ->
     In (0, n g - 1) (out_edges 0 g) /\
     In (n g - 1, 0) (edges g) /\
     ~ In (0, n g - 1) (edges g) /\
     (0, n g - 1) <> (n g - 1, 0)) /\
  (n g = 2 -> out_edges 0 g = [(0, 1)] /\ edges g = [(0, 1)]) /\
  (n g = 1 -> out_edges 0 g = [(0, 0)] /\ edges g = [(0, 0)]).
Proof.
  intros Hn Hu. split; [|split; [|split]].
  - intros e He. apply out_edges_In in He; [|done..].
    destruct He as [->|[_ ->]]; simpl; (split; [done|]); apply Z.mod_pos_bound; lia.
  - intros H3. split; [|split; [|split]].
    + rewrite out_edges_large, pred_mod by lia. right. left. done.
    + rewrite edges_eq by done. apply in_map_iff. exists (n g - 1). split.
      * rewrite succ_mod by lia. rewrite Z.eqb_refl. done.
      * apply counting_range_In. pose proof (num_edges_range g). unfold num_edges in *.
        destruct (Z.eqb_spec (n g) 2); lia.
    + rewrite edges_eq by done. intros Hin. apply in_map_iff in Hin.
      destruct Hin as (v & [= -> Hv] & Hr). apply counting_range_In in Hr.
      rewrite succ_mod in Hv by lia. destruct (Z.eqb_spec 0 (n g - 1)); lia.
    + intros [= H]. lia.
  - destruct g as [nn]. simpl. intros ->. split; reflexivity.
  - destruct g as [nn]. simpl. intros ->. split; reflexivity.
Qed.

Lemma out_edges_source_is_vertex_witness :
  In (0, 4) (out_edges 0 (mk_ring_graph 5)) /\
  In (4, 0) (edges (mk_ring_graph 5)) /\
  ~ In (0, 4) (edges (mk_ring_graph 5)).
Proof.
  assert (Hn : 1 <= n (mk_ring_graph 5) < size_t_modulus)
    by (simpl; unfold size_t_modulus; lia).
  assert (Hu : 0 <= 0 < n (mk_ring_graph 5)) by (simpl; lia).
  destruct (out_edges_source_is_vertex (mk_ring_graph 5) 0 Hn Hu) as (_ & H & _).
  destruct H as (H1 & H2 & H3 & _); [simpl; lia|].
  split; [exact H1|]. split; [exact H2|exact H3].
Defined.

(** ** Further properties of the ring graph *)

Lemma adjacent_vertices_small g u :
  0 <= u < n g -> n g <= 2 -> adjacent_vertices u g = [(u + 1) mod n g].
Proof. intros Hu Hn. unfold adjacent_vertices. by rewrite out_edges_small. Qed.

Lemma adjacent_vertices_large g u :
  0 <= u < n g -> 2 < n g < size_t_modulus ->
  adjacent_vertices u g = [(u + 1) mod n g; (u - 1) mod n g].
Proof. intros Hu Hn. unfold adjacent_vertices. by rewrite out_edges_large. Qed.

(** X1: [adjacent_vertices]: on a ring of at least three vertices every vertex
    has exactly two adjacent vertices, its successor and then its
    predecessor modulo [n]; both are vertices, they differ from each other
    and from the vertex itself.  The degenerate rings list one vertex: the
    vertex itself for [n = 1], the other vertex for [n = 2]. *)
Theorem adjacent_vertices_are_the_two_neighbours (g : ring_graph) (u : Z) :
  1 <= n g < size_t_modulus -> 0 <= u < n g ->
  (3 <= n g ->
     adjacent_vertices u g = [(u + 1) mod n g; (u - 1) mod n g] /\
     (u + 1) mod n g <> u /\ (u - 1) mod n g <> u /\
     (u + 1) mod n g <> (u - 1) mod n g) /\
  (n g = 1 -> adjacent_vertices u g = [u]) /\
  (n g = 2 -> adjacent_vertices u g = [1 - u]) /\
  List.NoDup (adjacent_vertices u g) /\
  (forall v, In v (adjacent_vertices u g) -> 0 <= v < n g).
Proof.
  intros Hn Hu.
  assert (Hs := succ_mod (n g) u Hu). assert (Hp := pred_mod (n g) u Hu).
  split; [|split; [|split; [|split]]].
  - intros H3. rewrite adjacent_vertices_large by lia.
    split; [done|]. rewrite Hs, Hp.
    destruct (Z.eqb_spec u (n g - 1)), (Z.eqb_spec u 0); lia.
  - intros H1. rewrite adjacent_vertices_small, Hs by lia.
    destruct (Z.eqb_spec u (n g - 1)); f_equal; lia.
  - intros H2. rewrite adjacent_vertices_small, Hs by lia.
    destruct (Z.eqb_spec u (n g - 1)); f_equal; lia.
  - destruct (Z.le_gt_cases (n g) 2).
    + rewrite adjacent_vertices_small by lia. repeat constructor. intros [].
    + rewrite adjacent_vertices_large by lia. repeat constructor.
      * intros [Heq|[]]. revert Heq. rewrite Hs, Hp.
        destruct (Z.eqb_spec u (n g - 1)), (Z.eqb_spec u 0); lia.
      * intros [].
  - intros v Hv. apply in_map_iff in Hv as (e & <- & He).
    apply out_edges_In in He; [|done..].
    destruct He as [->|[_ ->]]; simpl; apply Z.mod_pos_bound; lia.
Qed.

Lemma adjacent_vertices_are_the_two_neighbours_witness :
  adjacent_vertices 4 (mk_ring_graph 5) = [0; 3] /\
  adjacent_vertices 0 (mk_ring_graph 5) = [1; 4].
Proof.
  assert (Hn : 1 <= n (mk_ring_graph 5) < size_t_modulus)
    by (simpl; unfold size_t_modulus; lia).
  split.
  - assert (Hu : 0 <= 4 < n (mk_ring_graph 5)) by (simpl; lia).
    destruct (adjacent_vertices_are_the_two_neighbours (mk_ring_graph 5) 4 Hn Hu) as (H & _).
    destruct H as (H & _); [simpl; lia|]. exact H.
  - assert (Hu : 0 <= 0 < n (mk_ring_graph 5)) by (simpl; lia).
    destruct (adjacent_vertices_are_the_two_neighbours (mk_ring_graph 5) 0 Hn Hu) as (H & _).
    destruct H as (H & _); [simpl; lia|]. exact H.
Defined.

Lemma out_edges_mem g u v :
  1 <= n g < size_t_modulus -> 0 <= u < n g ->
  In (u, v) (out_edges u g) <->
  v = (u + 1) mod n g \/ (2 < n g /\ v = (u - 1) mod n g).
Proof.
  intros Hn Hu. split.
  - intros H. apply out_edges_In in H; [|done..].
    destruct H as [[= ->]|[H3 [= ->]]]; [by left|by right].
  - intros [->|[H3 ->]].
    + destruct (Z.le_gt_cases (n g) 2).
      * rewrite out_edges_small by lia. by left.
      * rewrite out_edges_large by lia. by left.
    + rewrite out_edges_large by lia. right. by left.
Qed.

(** X2: The ring is undirected: [v] is at the end of an out-edge of [u] exactly
    when [u] is at the end of an out-edge of [v], the same holds of
    [adjacent_vertices], and the two descriptors of the connection carry
    the same weight. *)
Theorem out_edges_are_symmetric (g : ring_graph) (u v : Z) :
  1 <= n g < size_t_modulus -> 0 <= u < n g -> 0 <= v < n g ->
  (In (u, v) (out_edges u g) <-> In (v, u) (out_edges v g)) /\
  (In v (adjacent_vertices u g) <-> In u (adjacent_vertices v g)) /\
  get_edge_weight g (u, v) = get_edge_weight g (v, u).
Proof.
  intros Hn Hu Hv.
  assert (Hsym : In (u, v) (out_edges u g) <-> In (v, u) (out_edges v g)).
  { rewrite !out_edges_mem by done.
    rewrite !succ_mod, !pred_mod by done.
    destruct (Z.eqb_spec u (n g - 1)), (Z.eqb_spec u 0),
      (Z.eqb_spec v (n g - 1)), (Z.eqb_spec v 0); lia. }
  assert (Hadj : forall a b, 0 <= a < n g ->
            In b (adjacent_vertices a g) <-> In (a, b) (out_edges a g)).
  { intros a b Ha. unfold adjacent_vertices. rewrite in_map_iff. split.
    - intros ([a' b'] & <- & He).
      apply out_edges_In in He as He'; [|done..].
      assert (a' = a) as -> by (destruct He' as [[= -> _]|[_ [= -> _]]]; done). done.
    - intros He. by exists (a, b). }
  split; [done|]. split.
  - by rewrite !Hadj.
  - unfold get_edge_weight, edge_weight_map_at. simpl. by rewrite Z.add_comm.
Qed.

Lemma out_edges_are_symmetric_witness :
  In (0, 4) (out_edges 0 (mk_ring_graph 5)) <-> In (4, 0) (out_edges 4 (mk_ring_graph 5)).
Proof.
  apply (out_edges_are_symmetric (mk_ring_graph 5) 0 4);
    simpl; unfold size_t_modulus; lia.
Defined.

Lemma to_size_t_succ_vertex g v : v < n g -> n g < size_t_modulus -> 0 <= v ->
  to_size_t (v + 1) = v + 1.
Proof. intros. apply to_size_t_small. unfold is_size_t. lia. Qed.

(** X3: [edge] agrees with [out_edges] exactly away from vertex 0: it reports
    true if and only if both arguments are vertices other than 0 and
    [(u, v)] is an out-edge of [u]; the descriptor returned is then
    [(u, v)], and the default descriptor [(0, 0)] otherwise. *)
Theorem edge_reports_out_edges_away_from_zero (g : ring_graph) (u v : Z) :
  n g < size_t_modulus -> is_size_t u -> is_size_t v ->
  (snd (edge u v g) = true <->
     0 < u < n g /\ 0 < v < n g /\ In (u, v) (out_edges u g)) /\
  fst (edge u v g) = (if snd (edge u v g) then (u, v) else (0, 0)).
Proof.
  intros Hn Hu Hv. split.
  - unfold edge, num_vertices.
    destruct (((u =? to_size_t (v + 1)) || (v =? to_size_t (u + 1)))
              && (0 <? u) && (u <? n g) && (0 <? v) && (v <? n g)) eqn:Hc; simpl.
    + rewrite !andb_true_iff, orb_true_iff, !Z.eqb_eq, !Z.ltb_lt in Hc.
      destruct Hc as [[[[Hadj H0u] Hun] H0v] Hvn].
      rewrite !(to_size_t_succ_vertex g) in Hadj by lia.
      split; [intros _|done]. split; [lia|]. split; [lia|].
      apply out_edges_mem; [lia..|].
      rewrite succ_mod, pred_mod by lia.
      destruct (Z.eqb_spec u (n g - 1)), (Z.eqb_spec u 0); lia.
    + split; [done|]. intros (H0u & H0v & Hin). exfalso.
      apply out_edges_mem in Hin; [|lia..].
      rewrite succ_mod, pred_mod in Hin by lia.
      apply not_true_iff_false in Hc. apply Hc.
      rewrite !andb_true_iff, orb_true_iff, !Z.eqb_eq, !Z.ltb_lt.
      rewrite !(to_size_t_succ_vertex g) by lia.
      destruct (Z.eqb_spec u (n g - 1)), (Z.eqb_spec u 0); lia.
  - unfold edge. by destruct (_ && _).
Qed.

Lemma edge_reports_out_edges_away_from_zero_witness :
  snd (edge 2 3 (mk_ring_graph 5)) = true /\ fst (edge 2 3 (mk_ring_graph 5)) = (2, 3).
Proof.
  assert (H : snd (edge 2 3 (mk_ring_graph 5)) = true).
  { apply (edge_reports_out_edges_away_from_zero (mk_ring_graph 5) 2 3);
      [simpl; unfold size_t_modulus; lia
      |unfold is_size_t, size_t_modulus; lia
      |unfold is_size_t, size_t_modulus; lia|].
    split; [simpl; lia|]. split; [simpl; lia|]. left. reflexivity. }
  split; [exact H|reflexivity].
Defined.

(** X4: [edge] answers the same for both orientations of a pair, and it can be
    called with any two values: a pair with an argument that is not a
    vertex, with vertex 0, or with twice the same vertex is reported as not
    found, with the default descriptor. *)
Theorem edge_is_symmetric_and_rejects_non_vertices (g : ring_graph) (u v : Z) :
  is_size_t u -> is_size_t v ->
  snd (edge u v g) = snd (edge v u g) /\
  (n g <= u \/ n g <= v \/ u = 0 \/ v = 0 \/ u = v -> edge u v g = ((0, 0), false)).
Proof.
  intros Hu Hv. split.
  - unfold edge.
    destruct (u =? to_size_t (v + 1)), (v =? to_size_t (u + 1)),
      (0 <? u), (u <? num_vertices g), (0 <? v), (v <? num_vertices g); reflexivity.
  - intros Hout. unfold edge, num_vertices.
    destruct (((u =? to_size_t (v + 1)) || (v =? to_size_t (u + 1)))
              && (0 <? u) && (u <? n g) && (0 <? v) && (v <? n g)) eqn:Hc; [|done].
    exfalso.
    rewrite !andb_true_iff, orb_true_iff, !Z.eqb_eq, !Z.ltb_lt in Hc.
    destruct Hc as [[[[Hadj H0u] Hun] H0v] Hvn].
    assert (u = v) as -> by lia.
    unfold is_size_t, to_size_t, size_t_modulus in *.
    destruct (Z.eq_dec v (2 ^ 64 - 1)) as [->|Hne].
    + change ((2 ^ 64 - 1 + 1) mod 2 ^ 64) with 0 in Hadj. lia.
    + rewrite Z.mod_small in Hadj by lia. lia.
Qed.

Lemma edge_is_symmetric_and_rejects_non_vertices_witness :
  snd (edge 3 4 (mk_ring_graph 5)) = snd (edge 4 3 (mk_ring_graph 5)) /\
  edge 4 5 (mk_ring_graph 5) = ((0, 0), false).
Proof.
  split.
  - apply (edge_is_symmetric_and_rejects_non_vertices (mk_ring_graph 5) 3 4);
      unfold is_size_t, size_t_modulus; lia.
  - apply (edge_is_symmetric_and_rejects_non_vertices (mk_ring_graph 5) 4 5);
      [unfold is_size_t, size_t_modulus; lia
      |unfold is_size_t, size_t_modulus; lia
      |right; left; simpl; lia].
Defined.

Lemma sum_Z_constant {A} (f : A -> Z) (c : Z) (l : list A) :
  (forall x, In x l -> f x = c) -> sum_Z (map f l) = c * Z.of_nat (length l).
Proof.
  induction l as [|a l IH]; intros Hc; [simpl; lia|].
  cbn [map sum_Z fold_right length]. fold (sum_Z (map f l)).
  rewrite IH by (intros x Hx; apply Hc; by right).
  rewrite (Hc a) by (by left). lia.
Qed.

Lemma vertices_length g : 0 <= n g -> Z.of_nat (length (vertices g)) = n g.
Proof.
  intros Hn. unfold vertices, num_vertices. rewrite counting_range_length. lia.
Qed.

(** X5: Summed over [vertices], the out-edge lists count every edge of the
    ring twice: their lengths add up to [2 * num_edges] on every ring of at
    least two vertices.  The sum of [out_degree] agrees from three vertices
    on; on the ring of two vertices it is 4 for a single edge. *)
Theorem out_edge_lists_count_every_edge_twice (g : ring_graph) :
  2 <= n g < size_t_modulus ->
  sum_Z (map (fun u => Z.of_nat (length (out_edges u g))) (vertices g)) = 2 * num_edges g /\
  (3 <= n g -> sum_Z (map (fun u => out_degree u g) (vertices g)) = 2 * num_edges g) /\
  (n g = 2 -> sum_Z (map (fun u => out_degree u g) (vertices g)) = 4 /\ num_edges g = 1).
Proof.
  intros Hn. pose proof (vertices_length g ltac:(lia)) as Hlen.
  assert (Hdeg : sum_Z (map (fun u => out_degree u g) (vertices g)) = 2 * n g).
  { rewrite (sum_Z_constant _ 2) by done. lia. }
  unfold num_edges. split; [|split].
  - destruct (Z.eqb_spec (n g) 2) as [H2|H2].
    + rewrite (sum_Z_constant _ 1); [lia|].
      intros u Hu. apply counting_range_In in Hu. unfold num_vertices in Hu.
      rewrite out_edges_small by lia. done.
    + rewrite (sum_Z_constant _ 2); [lia|].
      intros u Hu. apply counting_range_In in Hu. unfold num_vertices in Hu.
      rewrite out_edges_large by lia. done.
  - intros H3. destruct (Z.eqb_spec (n g) 2); lia.
  - intros H2. rewrite Hdeg, H2. done.
Qed.

Lemma out_edge_lists_count_every_edge_twice_witness :
  sum_Z (map (fun u => Z.of_nat (length (out_edges u (mk_ring_graph 5))))
             (vertices (mk_ring_graph 5))) = 2 * num_edges (mk_ring_graph 5).
Proof.
  destruct (out_edge_lists_count_every_edge_twice (mk_ring_graph 5)) as [H _];
    [simpl; unfold size_t_modulus; lia|exact H].
Defined.

Lemma walk_forward g u (k : nat) :
  1 <= n g < size_t_modulus -> 0 <= u < n g ->
  walk g u k ((u + Z.of_nat k) mod n g).
Proof.
  intros Hn Hu. induction k as [|k IH].
  - rewrite Z.add_0_r, Z.mod_small by done. constructor.
  - set (w := (u + Z.of_nat k) mod n g) in *.
    assert (Hw : 0 <= w < n g) by (apply Z.mod_pos_bound; lia).
    replace ((u + Z.of_nat (S k)) mod n g) with (target (w, (w + 1) mod n g) g).
    + apply walk_edge with (v := w); [done|]. apply out_edges_mem; [done..|]. by left.
    + unfold target. simpl. subst w. rewrite Zplus_mod_idemp_l. f_equal. lia.
Qed.

Lemma walk_backward g u (k : nat) :
  2 < n g < size_t_modulus -> 0 <= u < n g ->
  walk g u k ((u - Z.of_nat k) mod n g).
Proof.
  intros Hn Hu. induction k as [|k IH].
  - rewrite Z.sub_0_r, Z.mod_small by done. constructor.
  - set (w := (u - Z.of_nat k) mod n g) in *.
    assert (Hw : 0 <= w < n g) by (apply Z.mod_pos_bound; lia).
    replace ((u - Z.of_nat (S k)) mod n g) with (target (w, (w - 1) mod n g) g).
    + apply walk_edge with (v := w); [done|]. apply out_edges_mem; [lia|done|].
      right. split; [lia|done].
    + unfold target. simpl. subst w. rewrite Zminus_mod_idemp_l. f_equal. lia.
Qed.

(** X6: The ring is connected, with diameter at most [n / 2]: from every vertex
    a walk of at most [n / 2] out-edges leads to every other vertex. *)
Theorem ring_is_connected (g : ring_graph) (u v : Z) :
  1 <= n g < size_t_modulus -> 0 <= u < n g -> 0 <= v < n g ->
  exists k : nat, 2 * Z.of_nat k <= n g /\ walk g u k v.
Proof.
  intros Hn Hu Hv.
  set (d := (v - u) mod n g).
  assert (Hd : 0 <= d < n g) by (apply Z.mod_pos_bound; lia).
  destruct (Z.le_gt_cases (2 * d) (n g)) as [Hle|Hgt].
  - exists (Z.to_nat d). split; [lia|].
    pose proof (walk_forward g u (Z.to_nat d) Hn Hu) as Hw.
    rewrite Z2Nat.id in Hw by lia. subst d.
    rewrite Zplus_mod_idemp_r in Hw. replace (u + (v - u)) with v in Hw by lia.
    rewrite (Z.mod_small v) in Hw by done. exact Hw.
  - exists (Z.to_nat (n g - d)). split; [lia|].
    pose proof (walk_backward g u (Z.to_nat (n g - d)) ltac:(lia) Hu) as Hw.
    rewrite Z2Nat.id in Hw by lia. subst d.
    replace (u - (n g - (v - u) mod n g)) with (u + (v - u) mod n g + (-1) * n g) in Hw by lia.
    rewrite Z.mod_add in Hw by lia.
    rewrite Zplus_mod_idemp_r in Hw. replace (u + (v - u)) with v in Hw by lia.
    rewrite (Z.mod_small v) in Hw by done. exact Hw.
Qed.

Lemma ring_is_connected_witness :
  exists k : nat, 2 * Z.of_nat k <= 5 /\ walk (mk_ring_graph 5) 0 k 3.
Proof.
  apply (ring_is_connected (mk_ring_graph 5) 0 3); simpl; unfold size_t_modulus; lia.
Defined.

Lemma double_of_size_t_pos z : 0 < z -> (0 < double_of_size_t z)%Q.
Proof.
  intros Hz. unfold double_of_size_t.
  destruct (Z.ltb_spec z (2 ^ 53)) as [Hlt|Hge].
  - change 0%Q with (inject_Z 0). by rewrite <- Zlt_Qlt.
  - set (sh := Z.log2 z - 52).
    assert (Hlog : 53 <= Z.log2 z) by (apply Z.log2_le_pow2; lia).
    assert (Hsh : 0 <= sh) by (subst sh; lia).
    assert (Hpow : 0 < 2 ^ sh) by (apply Z.pow_pos_nonneg; lia).
    assert (Hq : 0 < Z.shiftr z sh).
    { rewrite Z.shiftr_div_pow2 by done. apply Z.div_str_pos. split; [done|].
      apply Z.le_trans with (2 ^ Z.log2 z); [|apply Z.log2_spec; lia].
      apply Z.pow_le_mono_r; subst sh; lia. }
    cbv zeta. change 0%Q with (inject_Z 0). rewrite <- Zlt_Qlt.
    destruct (z mod 2 ^ sh <? 2 ^ (sh - 1)), (2 ^ (sh - 1) <? z mod 2 ^ sh),
      (Z.even (Z.shiftr z sh)); apply Z.mul_pos_pos; lia.
Qed.

Lemma double_of_size_t_zero : double_of_size_t 0 = 0%Q.
Proof. reflexivity. Qed.

Lemma half_pos (x : Q) : (0 < x)%Q -> (0 < x / 2)%Q.
Proof. intros Hx. apply Qlt_shift_div_l; [reflexivity|]. by rewrite Qmult_0_l. Qed.

Lemma get_edge_weight_nonneg g e : (0 <= get_edge_weight g e)%Q.
Proof.
  unfold get_edge_weight, edge_weight_map_at.
  assert (H : 0 <= to_size_t (fst e + snd e))
    by (apply Z.mod_pos_bound; unfold size_t_modulus; lia).
  destruct (Z.eq_dec (to_size_t (fst e + snd e)) 0) as [->|Hne].
  - rewrite double_of_size_t_zero. discriminate.
  - apply Qlt_le_weak, half_pos, double_of_size_t_pos. lia.
Qed.

Lemma get_edge_weight_exact g e :
  0 <= fst e -> 0 <= snd e -> fst e + snd e < 2 ^ 53 ->
  (get_edge_weight g e == inject_Z (fst e + snd e) / 2)%Q.
Proof.
  intros H1 H2 H3. unfold get_edge_weight, edge_weight_map_at.
  rewrite to_size_t_small by (unfold is_size_t, size_t_modulus; lia).
  unfold double_of_size_t.
  destruct (Z.ltb_spec (fst e + snd e) (2 ^ 53)); [reflexivity|lia].
Qed.

Lemma out_edges_target_range g u e :
  1 <= n g < size_t_modulus -> 0 <= u < n g -> In e (out_edges u g) ->
  fst e = u /\ 0 <= snd e < n g.
Proof.
  intros Hn Hu He. apply out_edges_In in He; [|done..].
  destruct He as [->|[_ ->]]; simpl; (split; [done|]); apply Z.mod_pos_bound; lia.
Qed.

(** X7: No edge weight is negative, whatever the descriptor, which is what the
    shortest path search of [main] requires; and on a ring of at least two
    vertices every out-edge has a weight above zero. *)
Theorem edge_weights_are_never_negative (g : ring_graph) (u : Z) (e : edge_descriptor) :
  (0 <= get_edge_weight g e)%Q /\
  (2 <= n g < size_t_modulus -> 0 <= u < n g -> In e (out_edges u g) ->
   (0 < get_edge_weight g e)%Q).
Proof.
  split; [apply get_edge_weight_nonneg|].
  unfold get_edge_weight, edge_weight_map_at.
  intros Hn Hu He. apply half_pos, double_of_size_t_pos.
  assert (H : 0 <= to_size_t (fst e + snd e))
    by (apply Z.mod_pos_bound; unfold size_t_modulus; lia).
  enough (to_size_t (fst e + snd e) <> 0) by lia.
  apply out_edges_In in He; [|lia..].
  unfold to_size_t, size_t_modulus in *. intros H0.
  apply Z.mod_divide in H0; [|lia]. destruct H0 as [q Hq].
  destruct He as [->|[_ ->]]; simpl in Hq;
    [rewrite succ_mod in Hq by done|rewrite pred_mod in Hq by done].
  - destruct (Z.eqb_spec u (n g - 1)); lia.
  - destruct (Z.eqb_spec u 0); lia.
Qed.

Lemma edge_weights_are_never_negative_witness :
  (0 < get_edge_weight (mk_ring_graph 5) (0%Z, 4%Z))%Q.
Proof.
  apply (edge_weights_are_never_negative (mk_ring_graph 5) 0 (0, 4)).
  - simpl. unfold size_t_modulus. lia.
  - simpl. lia.
  - right. left. reflexivity.
Defined.

(** X8: [in_edges] returns the out-edges as they are, not reversed: on a ring
    of at least two vertices every in-edge reported for [u] has [u] as its
    source and a different vertex as its target; [in_degree] and [degree]
    are [out_degree]. *)
Theorem in_edges_are_the_out_edges_unreversed (g : ring_graph) (u : Z) :
  2 <= n g < size_t_modulus -> 0 <= u < n g ->
  in_edges u g = out_edges u g /\
  in_degree u g = out_degree u g /\ degree u g = out_degree u g /\
  forall e, In e (in_edges u g) -> source e g = u /\ target e g <> u.
Proof.
  intros Hn Hu. split; [done|]. split; [done|]. split; [done|].
  intros e He. unfold in_edges in He. apply out_edges_In in He; [|lia..].
  destruct He as [->|[_ ->]]; simpl; (split; [done|]).
  - rewrite succ_mod by done. destruct (Z.eqb_spec u (n g - 1)); lia.
  - rewrite pred_mod by done. destruct (Z.eqb_spec u 0); lia.
Qed.

Lemma in_edges_are_the_out_edges_unreversed_witness :
  in_edges 2 (mk_ring_graph 5) = [(2, 3); (2, 1)].
Proof.
  destruct (in_edges_are_the_out_edges_unreversed (mk_ring_graph 5) 2) as [H _].
  - simpl. unfold size_t_modulus. lia.
  - simpl. lia.
  - rewrite H. reflexivity.
Defined.

(** X9: [out_edges] does not check its vertex argument: for every value [u] of
    [std::size_t], vertex or not, it yields two edges on a ring of more than
    two vertices and one edge otherwise; their source is [u] and their
    target is always a vertex of the ring. *)
Theorem out_edges_of_any_value (g : ring_graph) (u : Z) :
  1 <= n g < size_t_modulus -> is_size_t u ->
  length (out_edges u g) = (if 2 <? n g then 2%nat else 1%nat) /\
  forall e, In e (out_edges u g) -> source e g = u /\ 0 <= target e g < n g.
Proof.
  intros Hn Hu. unfold out_edges, incident_start, incident_end. cbn [ie_base]. split.
  - rewrite length_map, counting_range_length. by destruct (2 <? n g).
  - intros e He. apply in_map_iff in He as (p & <- & Hp).
    unfold dereference, source, target. cbn [ie_base m_n m_u fst snd].
    split; [done|].
    destruct ((u =? 0) && (p =? 1)).
    + rewrite to_size_t_small by (unfold is_size_t; lia). lia.
    + apply Z.mod_pos_bound. lia.
Qed.

Lemma out_edges_of_any_value_witness :
  out_edges 7 (mk_ring_graph 5) = [(7, 3); (7, 1)] /\
  forall e, In e (out_edges 7 (mk_ring_graph 5)) -> 0 <= target e (mk_ring_graph 5) < 5.
Proof.
  split; [reflexivity|].
  intros e He.
  apply (out_edges_of_any_value (mk_ring_graph 5) 7); [..|exact He].
  - simpl. unfold size_t_modulus. lia.
  - unfold is_size_t, size_t_modulus. lia.
Defined.

End RingFacts.

Module DijkstraFacts.
Import Ring Dijkstra.

Lemma candidates_all_settled g st : all_settled g st = true -> candidates g st = [].
Proof.
  unfold all_settled, candidates. by destruct (unsettled g st).
Qed.

(** Every finished run is among the outcomes, unless some run needs more
    than [fuel] steps. *)
Lemma run_outcomes g st final :
  run g st final ->
  forall fuel, In (Some final) (outcomes g fuel st) \/ In None (outcomes g fuel st).
Proof.
  induction 1 as [st Hall | st st' final Hstep Hrun IH]; intros fuel.
  - left. destruct fuel; simpl; rewrite Hall; by left.
  - destruct Hstep as [st u Hu].
    destruct (all_settled g st) eqn:Hall.
    { rewrite candidates_all_settled in Hu by done. destruct Hu. }
    destruct fuel as [|fuel]; simpl; rewrite Hall; [right; by left|].
    destruct (IH fuel) as [H|H]; [left|right]; apply in_flat_map; eauto.
Qed.

(** When no outcome is cut short by the fuel, no sequence of steps is longer
    than the fuel. *)
Lemma steps_outcomes g k st st' :
  steps g k st st' ->
  forall fuel, ~ In None (outcomes g fuel st) -> (k <= fuel)%nat.
Proof.
  induction 1 as [st | k st st1 st' Hstep Hsteps IH]; intros fuel Hnone; [lia|].
  destruct Hstep as [st u Hu].
  destruct (all_settled g st) eqn:Hall.
  { rewrite candidates_all_settled in Hu by done. destruct Hu. }
  destruct fuel as [|fuel]; simpl in Hnone; rewrite Hall in Hnone.
  - exfalso. apply Hnone. by left.
  - enough (k <= fuel)%nat by lia. apply IH. intros Hin. apply Hnone.
    apply in_flat_map. eauto.
Qed.

Lemma outcomes_ring5 :
  outcomes ring5 5 (init ring5 0) =
  let st := {| dist := expected_dist; pred := expected_pred;
               settled := [true; true; true; true; true] |} in
  [Some st; Some st].
Proof. vm_compute. reflexivity. Qed.

Lemma ring5_run : run ring5 (init ring5 0) ring5_final.
Proof.
  unfold ring5_final, ring5_trace. cbv zeta. cbn [List.last].
  eapply run_step; [apply (step_settle ring5 _ 0); vm_compute; tauto|].
  eapply run_step; [apply (step_settle ring5 _ 1); vm_compute; tauto|].
  eapply run_step; [apply (step_settle ring5 _ 2); vm_compute; tauto|].
  eapply run_step; [apply (step_settle ring5 _ 4); vm_compute; tauto|].
  eapply run_step; [apply (step_settle ring5 _ 3); vm_compute; tauto|].
  apply run_done. reflexivity.
Qed.

(** C6: on the ring of size 5 the shortest path computation from vertex 0
    stops after at most five settling steps, and every finished run -
    whichever of the two vertices at distance 2 is settled first - ends with
    distances [0, 0.5, 2, 4.5, 2] and predecessors [0, 0, 1, 2, 0]. *)
Theorem dijkstra_ring_5 :
  (forall final, run ring5 (init ring5 0) final ->
     dist final = expected_dist /\ pred final = expected_pred) /\
  (exists final, run ring5 (init ring5 0) final) /\
  (forall k st, steps ring5 k (init ring5 0) st -> (k <= 5)%nat).
Proof.
  split; [|split].
  - intros final Hrun. apply run_outcomes with (fuel := 5%nat) in Hrun.
    rewrite outcomes_ring5 in Hrun. simpl in Hrun.
    destruct Hrun as [[[= <-]|[[= <-]|[]]]|[[=]|[[=]|[]]]]; done.
  - exists ring5_final. apply ring5_run.
  - intros k st Hsteps. apply (steps_outcomes _ _ _ _ Hsteps).
    rewrite outcomes_ring5. simpl. intros [[=]|[[=]|[]]].
Qed.

Lemma dijkstra_ring_5_witness :
  dist ring5_final = expected_dist /\ pred ring5_final = expected_pred.
Proof.
  exact (proj1 dijkstra_ring_5 ring5_final ring5_run).
Defined.

(** ** The search on a ring of any size *)

Lemma distance_le_spec a b :
  distance_le a b = true <->
  b = None \/ exists x y, a = Some x /\ b = Some y /\ (x <= y)%Q.
Proof.
  unfold distance_le, distance_lt. destruct a as [x|], b as [y|]; simpl.
  - rewrite negb_involutive, Qle_bool_iff. split.
    + intros H. right. by exists x, y.
    + intros [[=]|(x' & y' & [= <-] & [= <-] & H)]. done.
  - split; [by left|done].
  - split; [done|]. intros [[=]|(x' & y' & [=] & _)].
  - split; [by left|done].
Qed.

Lemma distance_lt_spec x b :
  distance_lt (Some x) b = true <-> b = None \/ exists y, b = Some y /\ (x < y)%Q.
Proof.
  unfold distance_lt. destruct b as [y|].
  - rewrite negb_true_iff, <- not_true_iff_false, Qle_bool_iff. split.
    + intros H. right. exists y. split; [done|]. by apply Qnot_le_lt.
    + intros [[=]|(y' & [= <-] & H)]. by apply Qlt_not_le.
  - split; [by left|done].
Qed.

Lemma distance_lt_false x b :
  distance_lt (Some x) b = false <-> exists y, b = Some y /\ (y <= x)%Q.
Proof.
  rewrite <- not_true_iff_false, distance_lt_spec. split.
  - intros H. destruct b as [y|]; [|destruct H; by left].
    exists y. split; [done|]. apply Qnot_lt_le. intros Hlt. apply H. right. by exists y.
  - intros (y & -> & Hle) [[=]|(y' & [= <-] & Hlt)]. by apply (Qlt_not_le _ _ Hlt).
Qed.

Lemma distance_le_total a b : distance_le a b = true \/ distance_le b a = true.
Proof.
  rewrite !distance_le_spec. destruct a as [x|], b as [y|]; auto.
  destruct (Qlt_le_dec y x) as [H|H].
  - right. right. exists y, x. split; [done|]. split; [done|]. by apply Qlt_le_weak.
  - left. right. by exists x, y.
Qed.

Lemma distance_le_trans a b c :
  distance_le a b = true -> distance_le b c = true -> distance_le a c = true.
Proof.
  rewrite !distance_le_spec.
  intros [->|(x & y & -> & -> & Hxy)] [->|(y' & z & Hy & -> & Hyz)]; auto; try done.
  injection Hy as <-. right. exists x, z. split; [done|]. split; [done|]. by eapply Qle_trans.
Qed.

(** A non empty list of vertices has one of least tentative distance. *)
Lemma least_distance_exists (D : Z -> distance) (l : list Z) :
  l <> [] -> exists u, In u l /\ forall v, In v l -> distance_le (D u) (D v) = true.
Proof.
  induction l as [|a l IH]; [done|]. intros _.
  destruct l as [|b l].
  - exists a. split; [by left|]. intros v [<-|[]].
    destruct (distance_le_total (D a) (D a)); done.
  - destruct IH as (u & Hu & Hmin); [done|].
    destruct (distance_le_total (D a) (D u)) as [Hau|Hua].
    + exists a. split; [by left|]. intros v [<-|Hv].
      * destruct (distance_le_total (D a) (D a)); done.
      * eapply distance_le_trans; [exact Hau|]. by apply Hmin.
    + exists u. split; [by right|]. intros v [<-|Hv]; [done|]. by apply Hmin.
Qed.

Lemma Qplus_nonneg (a b : Q) : (0 <= a)%Q -> (0 <= b)%Q -> (0 <= a + b)%Q.
Proof.
  intros Ha Hb. change (0 + 0 <= a + b)%Q. by apply Qplus_le_compat.
Qed.

Lemma Qle_plus_nonneg (a b c : Q) : (a <= b)%Q -> (0 <= c)%Q -> (a <= b + c)%Q.
Proof.
  intros Hab Hc. rewrite <- (Qplus_0_r a). by apply Qplus_le_compat.
Qed.

(** The state after an update of the slots of [v]. *)
Lemma relax_eq g st e :
  relax g st e =
  match dist_of st (fst e) with
  | None => st
  | Some du =>
      if distance_lt (Some (Qred (du + get_edge_weight g e))) (dist_of st (snd e))
      then {| dist := <[index (snd e) := Some (Qred (du + get_edge_weight g e))]> (dist st);
              pred := <[index (snd e) := Some (fst e)]> (pred st);
              settled := settled st |}
      else st
  end.
Proof. reflexivity. Qed.

Lemma index_inj u v : 0 <= u -> 0 <= v -> index u = index v -> u = v.
Proof. unfold index. lia. Qed.

Lemma lookup_update {A} (l : list A) (dflt : A) v x (a : A) :
  0 <= v -> 0 <= x -> (index v < length l)%nat ->
  default dflt (<[index v := a]> l !! index x) =
  if decide (x = v) then a else default dflt (l !! index x).
Proof.
  intros Hv Hx Hlen. case_decide as Heq.
  - subst. by rewrite list_lookup_insert_eq.
  - rewrite list_lookup_insert_ne; [done|]. intros Hi. apply Heq. symmetry. by apply index_inj.
Qed.

Section Search.

Variable g : ring_graph.
Variable s : Z.
Hypothesis Hn : 1 <= n g < size_t_modulus.
Hypothesis Hs : 0 <= s < n g.

Lemma index_lt v : 0 <= v < n g -> (index v < Z.to_nat (n g))%nat.
Proof. unfold index. lia. Qed.

Lemma wwalk_nonneg v q : wwalk g s v q -> (0 <= q)%Q.
Proof.
  induction 1 as [|v q e Hw IH He]; [apply Qle_refl|].
  apply Qplus_nonneg; [done|apply RingFacts.get_edge_weight_nonneg].
Qed.

Lemma wwalk_range v q : wwalk g s v q -> 0 <= v < n g.
Proof.
  induction 1 as [|v q e Hw IH He]; [done|].
  by destruct (RingFacts.out_edges_target_range g v e Hn IH He) as [_ H].
Qed.

Lemma wwalk_exists v : 0 <= v < n g -> exists q, wwalk g s v q.
Proof.
  intros Hv.
  assert (Hfw : forall k : nat, exists q, wwalk g s ((s + Z.of_nat k) mod n g) q).
  { induction k as [|k [q IH]].
    - exists 0%Q. rewrite Z.add_0_r, Z.mod_small by done. constructor.
    - set (w := (s + Z.of_nat k) mod n g) in *.
      assert (Hw : 0 <= w < n g) by (apply Z.mod_pos_bound; lia).
      exists (q + get_edge_weight g (w, (w + 1) mod n g))%Q.
      replace ((s + Z.of_nat (S k)) mod n g) with (target (w, (w + 1) mod n g) g).
      + apply wwalk_edge with (v := w); [done|].
        apply RingFacts.out_edges_mem; [done..|]. by left.
      + unfold target. simpl. subst w. rewrite Zplus_mod_idemp_l. f_equal. lia. }
  destruct (Hfw (Z.to_nat ((v - s) mod n g))) as [q Hq]. exists q.
  assert (Hd : 0 <= (v - s) mod n g < n g) by (apply Z.mod_pos_bound; lia).
  rewrite Z2Nat.id in Hq by lia. rewrite Zplus_mod_idemp_r in Hq.
  replace (s + (v - s)) with v in Hq by lia. by rewrite Z.mod_small in Hq.
Qed.

Lemma unsettled_In st u :
  In u (unsettled g st) <-> 0 <= u < n g /\ is_settled st u = false.
Proof.
  unfold unsettled, vertices, num_vertices.
  rewrite filter_In, RingFacts.counting_range_In, negb_true_iff. done.
Qed.

Lemma candidates_In st u :
  In u (candidates g st) <->
  In u (unsettled g st) /\
  forall v, In v (unsettled g st) -> distance_le (dist_of st u) (dist_of st v) = true.
Proof. unfold candidates. by rewrite filter_In, forallb_forall. Qed.

(** A walk that ends at an unsettled vertex passes an unsettled vertex
    whose tentative distance is at most the weight of the walk. *)
Lemma first_unsettled st v q :
  dijkstra_inv g s st None [] -> wwalk g s v q -> is_settled st v = false ->
  exists y dy, 0 <= y < n g /\ is_settled st y = false /\
               dist_of st y = Some dy /\ (dy <= q)%Q.
Proof.
  intros Hinv Hw. induction Hw as [|v q e Hw IH He]; intros Hv.
  - exists s, 0%Q. split; [done|]. split; [done|].
    split; [apply (di_src _ _ _ _ _ Hinv)|apply Qle_refl].
  - pose proof (wwalk_range _ _ Hw) as Hrange.
    destruct (is_settled st v) eqn:Hsv.
    + destruct (di_opt _ _ _ _ _ Hinv v Hrange Hsv) as (dv & Hdv & Hopt).
      destruct (di_relaxed _ _ _ _ _ Hinv v e Hrange Hsv He) as (du & dt & Hdu & Hdt & Hle);
        [done|].
      rewrite Hdv in Hdu. injection Hdu as <-.
      destruct (RingFacts.out_edges_target_range g v e Hn Hrange He) as [_ Ht].
      exists (target e g), dt. split; [done|]. split; [done|]. split; [done|].
      eapply Qle_trans; [exact Hle|]. apply Qplus_le_compat; [by apply Hopt|apply Qle_refl].
    + destruct (IH eq_refl) as (y & dy & Hy & Hsy & Hdy & Hle).
      exists y, dy. split; [done|]. split; [done|]. split; [done|].
      apply Qle_plus_nonneg; [done|apply RingFacts.get_edge_weight_nonneg].
Qed.

Lemma init_inv : dijkstra_inv g s (init g s) None [].
Proof.
  pose proof (index_lt s Hs) as His.
  assert (Hd : forall v, 0 <= v < n g ->
            dist_of (init g s) v = if decide (v = s) then Some 0%Q else None).
  { intros v Hv. unfold dist_of, init, num_vertices. cbn [dist].
    rewrite lookup_update by (rewrite ?length_replicate; lia).
    case_decide; [done|]. by rewrite lookup_replicate_2 by (by apply index_lt). }
  assert (Hset : forall v, 0 <= v < n g -> is_settled (init g s) v = false).
  { intros v Hv. unfold is_settled, init, num_vertices. cbn [settled].
    by rewrite lookup_replicate_2 by (by apply index_lt). }
  constructor.
  - unfold init, num_vertices. cbn [dist pred settled].
    by rewrite !length_insert, !length_replicate.
  - split; [rewrite Hd by done; by rewrite decide_True|].
    unfold pred_of, init, num_vertices. cbn [pred].
    rewrite lookup_update by (rewrite ?length_replicate; lia). by rewrite decide_True.
  - intros v d Hv. rewrite Hd by done. case_decide as Heq; [|done].
    intros [= <-]. subst v. exists 0%Q. split; [constructor|reflexivity].
  - intros u Hu. by rewrite Hset.
  - intros u e Hu. by rewrite Hset.
  - intros v d Hv Hne. rewrite Hd by done. by rewrite decide_False.
Qed.

End Search.

Section Rounds.

Variable g : ring_graph.
Variable s : Z.
Hypothesis Hn : 1 <= n g < size_t_modulus.
Hypothesis Hs : 0 <= s < n g.

(** Relaxing an out-edge of the vertex [u] being settled. *)
Lemma relax_inv st u seen e :
  dijkstra_inv g s st (Some u) seen ->
  0 <= u < n g -> is_settled st u = true -> In e (out_edges u g) ->
  dijkstra_inv g s (relax g st e) (Some u) (seen ++ [e]) /\
  settled (relax g st e) = settled st.
Proof.
  intros Hinv Hu Hsu He.
  destruct (RingFacts.out_edges_target_range g u e Hn Hu He) as [Hfst Hv].
  destruct (di_opt _ _ _ _ _ Hinv u Hu Hsu) as (du & Hdu & Hopt).
  destruct (di_real _ _ _ _ _ Hinv u du Hu Hdu) as (qu & Hwu & Hqu).
  pose proof (wwalk_edge g s u qu e Hwu He) as Hwv. unfold target in Hwv.
  set (d := Qred (du + get_edge_weight g e)).
  assert (Hd : (d == du + get_edge_weight g e)%Q) by apply Qred_correct.
  assert (Hd0 : (0 <= d)%Q).
  { rewrite Hd, <- Hqu. apply Qplus_nonneg;
      [by eapply wwalk_nonneg|apply RingFacts.get_edge_weight_nonneg]. }
  rewrite relax_eq, Hfst, Hdu. fold d.
  destruct Hinv as [Hlen Hsrc Hreal Hoptall Hrel Hpred].
  destruct (distance_lt (Some d) (dist_of st (snd e))) eqn:Hlt.
  2: { apply distance_lt_false in Hlt as (dv & Hdv & Hle). split; [|done].
       constructor; try done.
       intros u' e' Hu' Hsu' He' Hcur. destruct (decide (u' = u)) as [->|Hne].
       - specialize (Hcur eq_refl). apply in_app_or in Hcur as [Hin|[<-|[]]].
         + by apply Hrel.
         + exists du, dv. split; [done|]. split; [done|]. by rewrite <- Hd.
       - apply Hrel; try done. intros [= Heq]. by destruct Hne. }
  set (v := snd e) in *.
  set (st' := {| dist := <[index v := Some d]> (dist st);
                 pred := <[index v := Some u]> (pred st);
                 settled := settled st |}).
  destruct Hlen as (Hl1 & Hl2 & Hl3).
  pose proof (index_lt g Hn v Hv) as Hiv.
  assert (Hdist : forall x, 0 <= x < n g ->
            dist_of st' x = if decide (x = v) then Some d else dist_of st x).
  { intros x Hx. unfold dist_of. cbn [st' dist]. apply lookup_update; lia. }
  assert (Hpredof : forall x, 0 <= x < n g ->
            pred_of st' x = if decide (x = v) then Some u else pred_of st x).
  { intros x Hx. unfold pred_of. cbn [st' pred]. apply lookup_update; lia. }
  assert (Hsettled : forall x, is_settled st' x = is_settled st x) by done.
  apply distance_lt_spec in Hlt.
  assert (Hvs : v <> s).
  { intros ->. destruct Hsrc as [Hsrc _]. rewrite Hsrc in Hlt.
    destruct Hlt as [[=]|(y & [= <-] & Hy)]. by apply (Qlt_not_le _ _ Hy). }
  assert (Hvu : is_settled st v = false).
  { destruct (is_settled st v) eqn:Hsv; [|done]. exfalso.
    destruct (Hoptall v Hv Hsv) as (dv & Hdv & Hoptv). rewrite Hdv in Hlt.
    destruct Hlt as [[=]|(y & [= <-] & Hy)].
    apply (Qlt_not_le _ _ Hy). rewrite Hd, <- Hqu. by apply Hoptv. }
  assert (Hne : forall x, is_settled st x = true -> x <> v) by (intros x Hx ->; congruence).
  split; [|done]. constructor.
  - cbn [st' dist pred settled]. by rewrite !length_insert.
  - rewrite Hdist, Hpredof by done. by rewrite !decide_False by done.
  - intros x dx Hx. rewrite Hdist by done. case_decide as Hxv.
    + intros [= <-]. subst x. exists (qu + get_edge_weight g e)%Q. split; [done|].
      by rewrite Hd, Hqu.
    + by apply Hreal.
  - intros x Hx Hsx. rewrite Hsettled in Hsx. rewrite Hdist by done.
    rewrite decide_False by (by apply Hne). by apply Hoptall.
  - intros u' e' Hu' Hsu' He' Hcur. rewrite Hsettled in Hsu'.
    destruct (RingFacts.out_edges_target_range g u' e' Hn Hu' He') as [Hfst' Ht'].
    unfold target in *. rewrite !Hdist by done.
    rewrite (decide_False (P := u' = v)) by (by apply Hne).
    destruct (decide (e' = e)) as [->|Hee].
    + assert (u' = u) as -> by congruence. fold v. rewrite decide_True by done.
      exists du, d. split; [done|]. split; [done|]. rewrite Hd. apply Qle_refl.
    + destruct (Hrel u' e' Hu' Hsu' He') as (du' & dt & Hdu' & Hdt & Hle).
      { intros Heq. specialize (Hcur Heq). apply in_app_or in Hcur as [Hin|[Heq'|[]]]; [done|].
        by destruct Hee. }
      exists du'. case_decide as Htv.
      * exists d. split; [done|]. split; [done|].
        unfold target in Hdt. rewrite Htv in Hdt. rewrite Hdt in Hlt.
        destruct Hlt as [[=]|(y & [= <-] & Hy)].
        eapply Qle_trans; [apply Qlt_le_weak; exact Hy|done].
      * exists dt. done.
  - intros x dx Hx Hxs. rewrite Hdist, Hpredof by done. case_decide as Hxv.
    + intros [= <-]. subst x. exists u, e, du.
      rewrite Hsettled, Hdist by done. rewrite decide_False by (by apply Hne).
      done.
    + intros Hdx.
      destruct (Hpred x dx Hx Hxs Hdx)
        as (p & e0 & dp & H1 & H2 & H3 & H4 & H5 & H6 & H7).
      exists p, e0, dp. rewrite Hsettled, Hdist by done.
      rewrite decide_False by (by apply Hne). done.
Qed.

Lemma relax_all_inv u l : forall st seen,
  (forall e, In e l -> In e (out_edges u g)) ->
  dijkstra_inv g s st (Some u) seen ->
  0 <= u < n g -> is_settled st u = true ->
  dijkstra_inv g s (fold_left (relax g) l st) (Some u) (seen ++ l) /\
  settled (fold_left (relax g) l st) = settled st.
Proof.
  induction l as [|e l IH]; intros st seen Hl Hinv Hu Hsu.
  - simpl. by rewrite app_nil_r.
  - cbn [fold_left].
    destruct (relax_inv st u seen e Hinv Hu Hsu) as [Hinv1 Hset1]; [apply Hl; by left|].
    destruct (IH (relax g st e) (seen ++ [e])) as [Hinv2 Hset2]; try done.
    + intros e' He'. apply Hl. by right.
    + unfold is_settled in *. by rewrite Hset1.
    + rewrite <- app_assoc in Hinv2. split; [done|]. by rewrite Hset2.
Qed.

Lemma is_settled_mark st u x :
  length (settled st) = Z.to_nat (n g) -> 0 <= u < n g -> 0 <= x < n g ->
  default true (<[index u := true]> (settled st) !! index x) =
  if decide (x = u) then true else is_settled st x.
Proof.
  intros Hlen Hu Hx. apply lookup_update; try lia. rewrite Hlen. by apply index_lt.
Qed.

(** The start of a round: the vertex [u] of least tentative distance is
    marked; its distance is final. *)
Lemma mark_inv st u :
  dijkstra_inv g s st None [] -> In u (candidates g st) ->
  let st1 := {| dist := dist st; pred := pred st;
                settled := <[index u := true]> (settled st) |} in
  0 <= u < n g /\ is_settled st u = false /\ is_settled st1 u = true /\
  dijkstra_inv g s st1 (Some u) [].
Proof.
  intros Hinv Hcand st1. apply candidates_In in Hcand as [Hun Hmin].
  apply unsettled_In in Hun as Hu'. destruct Hu' as [Hu Hsu].
  pose proof (di_len _ _ _ _ _ Hinv) as (Hl1 & Hl2 & Hl3).
  assert (Hset1 : forall x, 0 <= x < n g ->
            is_settled st1 x = if decide (x = u) then true else is_settled st x).
  { intros x Hx. unfold is_settled at 1. cbn [st1 settled]. by apply is_settled_mark. }
  assert (Hmono : forall x, 0 <= x < n g -> is_settled st x = true -> is_settled st1 x = true).
  { intros x Hx Hsx. rewrite Hset1 by done. by case_decide. }
  assert (Hoptu : exists d, dist_of st u = Some d /\ forall q, wwalk g s u q -> (d <= q)%Q).
  { assert (Hle : forall q, wwalk g s u q ->
              exists du, dist_of st u = Some du /\ (du <= q)%Q).
    { intros q Hq.
      destruct (first_unsettled g s Hn Hs st u q Hinv Hq Hsu) as (y & dy & Hy & Hsy & Hdy & Hle).
      assert (Hyu : In y (unsettled g st)) by (by apply unsettled_In).
      specialize (Hmin y Hyu). rewrite Hdy in Hmin.
      apply distance_le_spec in Hmin as [[=]|(x & y' & Hx & [= <-] & Hxy)].
      exists x. split; [done|]. by eapply Qle_trans. }
    destruct (wwalk_exists g s Hn Hs u Hu) as [q0 Hq0].
    destruct (Hle q0 Hq0) as (du & Hdu & _). exists du. split; [done|].
    intros q Hq. destruct (Hle q Hq) as (du' & Hdu' & Hle'). congruence. }
  split; [done|]. split; [done|].
  split; [rewrite Hset1 by done; by rewrite decide_True|].
  destruct Hinv as [Hlen Hsrc Hreal Hoptall Hrel Hpred]. constructor.
  - cbn [st1 dist pred settled]. by rewrite length_insert.
  - done.
  - done.
  - intros x Hx. rewrite Hset1 by done. case_decide as Hxu; [by subst|]. by apply Hoptall.
  - intros x e Hx. rewrite Hset1 by done. case_decide as Hxu.
    + subst x. intros _ _ Hcur. by destruct (Hcur eq_refl).
    + intros Hsx He _. by apply Hrel.
  - intros x dx Hx Hxs Hdx.
    destruct (Hpred x dx Hx Hxs Hdx) as (p & e0 & dp & H1 & H2 & H3 & H4 & H5 & H6 & H7).
    exists p, e0, dp. split; [done|]. split; [done|]. split; [by apply Hmono|]. done.
Qed.

(** One round: settling a vertex of least tentative distance. *)
Lemma settle_inv st u :
  dijkstra_inv g s st None [] -> In u (candidates g st) ->
  dijkstra_inv g s (settle g u st) None [] /\
  settled (settle g u st) = <[index u := true]> (settled st).
Proof.
  intros Hinv Hcand.
  destruct (mark_inv st u Hinv Hcand) as (Hu & _ & Hsu1 & Hinv1).
  unfold settle.
  destruct (relax_all_inv u (out_edges u g) _ [] (fun e He => He) Hinv1 Hu Hsu1)
    as [Hinv2 Hset2].
  split; [|done]. simpl in Hinv2.
  destruct Hinv2 as [Hlen Hsrc Hreal Hoptall Hrel Hpred]. constructor; try done.
  intros x e Hx Hsx He _. apply Hrel; try done. intros [= ->]. done.
Qed.

Lemma run_inv st final :
  run g st final -> dijkstra_inv g s st None [] ->
  dijkstra_inv g s final None [] /\ all_settled g final = true.
Proof.
  induction 1 as [st Hall|st st' final Hstep Hrun IH]; intros Hinv; [done|].
  apply IH. destruct Hstep as [st u Hu]. by apply settle_inv.
Qed.

Lemma filter_length_le {A} (P Q : A -> bool) (l : list A) :
  (forall x, In x l -> Q x = true -> P x = true) ->
  (length (List.filter Q l) <= length (List.filter P l))%nat.
Proof.
  induction l as [|a l IH]; intros HPQ; [done|]. simpl.
  assert (IH' := IH (fun x Hx => HPQ x (or_intror Hx))).
  destruct (Q a) eqn:HQ.
  - rewrite (HPQ a (or_introl eq_refl) HQ). simpl. lia.
  - destruct (P a); simpl; lia.
Qed.

Lemma filter_length_lt {A} (P Q : A -> bool) (l : list A) (u : A) :
  (forall x, In x l -> Q x = true -> P x = true) ->
  In u l -> P u = true -> Q u = false ->
  (length (List.filter Q l) < length (List.filter P l))%nat.
Proof.
  induction l as [|a l IH]; intros HPQ Hu HP HQ; [destruct Hu|]. simpl.
  assert (HPQ' : forall x, In x l -> Q x = true -> P x = true)
    by (intros x Hx; apply HPQ; by right).
  destruct Hu as [->|Hu].
  - rewrite HP, HQ. simpl. pose proof (filter_length_le P Q l HPQ'). lia.
  - specialize (IH HPQ' Hu HP HQ). destruct (Q a) eqn:HQa.
    + rewrite (HPQ a (or_introl eq_refl) HQa). simpl. lia.
    + destruct (P a); simpl; lia.
Qed.

Lemma unsettled_shrinks st u :
  dijkstra_inv g s st None [] -> In u (candidates g st) ->
  (length (unsettled g (settle g u st)) < length (unsettled g st))%nat.
Proof.
  intros Hinv Hcand. destruct (settle_inv st u Hinv Hcand) as [_ Hset].
  apply candidates_In in Hcand as [Hun _].
  apply unsettled_In in Hun as Hu'. destruct Hu' as [Hu Hsu].
  pose proof (di_len _ _ _ _ _ Hinv) as (_ & _ & Hl3).
  assert (Hin : In u (vertices g)) by (apply RingFacts.counting_range_In; by unfold num_vertices).
  unfold unsettled. apply filter_length_lt with (u := u); try done.
  - intros x Hx. apply RingFacts.counting_range_In in Hx. unfold num_vertices in Hx.
    unfold is_settled at 1. rewrite Hset, is_settled_mark by done.
    case_decide; [done|]. done.
  - by rewrite Hsu.
  - unfold is_settled. rewrite Hset, is_settled_mark by done. by rewrite decide_True.
Qed.

Lemma run_exists m : forall st,
  (length (unsettled g st) <= m)%nat -> dijkstra_inv g s st None [] ->
  exists final, run g st final.
Proof.
  induction m as [|m IH]; intros st Hm Hinv.
  - exists st. apply run_done. unfold all_settled.
    destruct (unsettled g st); [done|simpl in Hm; lia].
  - destruct (unsettled g st) as [|a l] eqn:Hun.
    + exists st. apply run_done. unfold all_settled. by rewrite Hun.
    + destruct (least_distance_exists (dist_of st) (unsettled g st)) as (u & Hu & Hmin);
        [by rewrite Hun|].
      assert (Hcand : In u (candidates g st)) by (by apply candidates_In).
      destruct (IH (settle g u st)) as [final Hrun].
      * pose proof (unsettled_shrinks st u Hinv Hcand). rewrite Hun in *. simpl in *. lia.
      * by apply settle_inv.
      * exists final. eapply run_step; [|exact Hrun]. by constructor.
Qed.

Lemma all_settled_spec st v :
  all_settled g st = true -> 0 <= v < n g -> is_settled st v = true.
Proof.
  intros Hall Hv. destruct (is_settled st v) eqn:Hsv; [done|].
  assert (Hin : In v (unsettled g st)) by (by apply unsettled_In).
  unfold all_settled in Hall. destruct (unsettled g st); [destruct Hin|done].
Qed.

End Rounds.

Lemma Qhalf_le_inject (k b : Z) : (inject_Z k / 2 <= inject_Z b)%Q -> k <= 2 * b.
Proof. unfold Qle, Qdiv, Qmult, Qinv, inject_Z. simpl. lia. Qed.

Lemma Qhalf_le (x y : Z) : x <= 2 * y -> (inject_Z x / 2 <= inject_Z y)%Q.
Proof. unfold Qle, Qdiv, Qmult, Qinv, inject_Z. simpl. lia. Qed.

Lemma Qhalf_plus (x y : Z) : (inject_Z x / 2 + inject_Z y / 2 == inject_Z (x + y) / 2)%Q.
Proof. unfold Qeq, Qdiv, Qmult, Qinv, Qplus, inject_Z. simpl. lia. Qed.

Section Exact.

Variable g : ring_graph.
Variable s : Z.
Hypothesis Hn : 1 <= n g <= 2 ^ 26.
Hypothesis Hs : 0 <= s < n g.

Lemma size_ok : 1 <= n g < size_t_modulus.
Proof. unfold size_t_modulus. lia. Qed.

Lemma out_edge_weight g' u e :
  g' = g -> 0 <= u < n g -> In e (out_edges u g) ->
  (get_edge_weight g e == inject_Z (fst e + snd e) / 2)%Q /\
  0 <= fst e + snd e <= 2 * (n g - 1).
Proof.
  intros _ Hu He.
  destruct (RingFacts.out_edges_target_range g u e size_ok Hu He) as [Hfst Hv].
  split; [|lia]. apply RingFacts.get_edge_weight_exact; lia.
Qed.

(** A walk from [s] to [v] that is not too heavy. *)
Lemma wwalk_bounded v :
  0 <= v < n g ->
  exists q, wwalk g s v q /\ (q <= inject_Z ((n g - 1) * (n g - 1)))%Q.
Proof.
  intros Hv.
  assert (Hfw : forall k : nat,
            exists q, wwalk g s ((s + Z.of_nat k) mod n g) q /\
                      (q <= inject_Z (Z.of_nat k * (n g - 1)))%Q).
  { induction k as [|k (q & IH & Hq)].
    - exists 0%Q. rewrite Z.add_0_r, Z.mod_small by done. split; [constructor|].
      apply Qle_refl.
    - set (w := (s + Z.of_nat k) mod n g) in *.
      assert (Hw : 0 <= w < n g) by (apply Z.mod_pos_bound; lia).
      assert (He : In (w, (w + 1) mod n g) (out_edges w g))
        by (apply RingFacts.out_edges_mem; [apply size_ok|done|by left]).
      destruct (out_edge_weight g w _ eq_refl Hw He) as [Hwe Hsum].
      exists (q + get_edge_weight g (w, (w + 1) mod n g))%Q. split.
      + replace ((s + Z.of_nat (S k)) mod n g) with (target (w, (w + 1) mod n g) g).
        * by apply wwalk_edge with (v := w).
        * unfold target. simpl. subst w. rewrite Zplus_mod_idemp_l. f_equal. lia.
      + replace (Z.of_nat (S k) * (n g - 1)) with (Z.of_nat k * (n g - 1) + (n g - 1)) by lia.
        rewrite inject_Z_plus. apply Qplus_le_compat; [done|].
        rewrite Hwe. apply Qhalf_le. cbn [fst snd] in *. lia. }
  assert (Hd : 0 <= (v - s) mod n g < n g) by (apply Z.mod_pos_bound; lia).
  destruct (Hfw (Z.to_nat ((v - s) mod n g))) as (q & Hq & Hle). exists q. split.
  - rewrite Z2Nat.id in Hq by lia. rewrite Zplus_mod_idemp_r in Hq.
    replace (s + (v - s)) with v in Hq by lia. by rewrite Z.mod_small in Hq.
  - eapply Qle_trans; [exact Hle|]. rewrite <- Zle_Qle. rewrite Z2Nat.id by lia. nia.
Qed.

Lemma relax_bounded st u seen e :
  dijkstra_inv g s st (Some u) seen -> dist_bounded g st ->
  0 <= u < n g -> is_settled st u = true -> In e (out_edges u g) ->
  dist_bounded g (relax g st e).
Proof.
  intros Hinv Hb Hu Hsu He.
  destruct (RingFacts.out_edges_target_range g u e size_ok Hu He) as [Hfst Hv].
  destruct (di_opt _ _ _ _ _ Hinv u Hu Hsu) as (du & Hdu & Hopt).
  rewrite relax_eq, Hfst, Hdu.
  destruct (distance_lt _ _); [|done].
  intros x dx Hx. unfold dist_of. cbn [dist].
  pose proof (di_len _ _ _ _ _ Hinv) as (Hl1 & _).
  rewrite (lookup_update (A := distance)) by (try lia; rewrite Hl1; unfold index; lia).
  case_decide as Hxv; [|by apply Hb].
  intros [= <-].
  destruct (Hb u du Hu Hdu) as (ku & Hku & Hduk).
  destruct (wwalk_bounded u Hu) as (qf & Hqf & Hqfle).
  destruct (out_edge_weight g u e eq_refl Hu He) as [Hwe Hsum].
  assert (Hkub : ku <= 2 * ((n g - 1) * (n g - 1))).
  { apply Qhalf_le_inject. rewrite <- Hduk. eapply Qle_trans; [by apply Hopt|done]. }
  exists (ku + (fst e + snd e)). split; [nia|].
  by rewrite Qred_correct, Hduk, Hwe, Qhalf_plus.
Qed.

Lemma relax_all_bounded u l : forall st seen,
  (forall e, In e l -> In e (out_edges u g)) ->
  dijkstra_inv g s st (Some u) seen -> dist_bounded g st ->
  0 <= u < n g -> is_settled st u = true ->
  dist_bounded g (fold_left (relax g) l st).
Proof.
  induction l as [|e l IH]; intros st seen Hl Hinv Hb Hu Hsu; [done|].
  cbn [fold_left].
  destruct (relax_inv g s size_ok Hs st u seen e Hinv Hu Hsu) as [Hinv2 Hset2];
    [apply Hl; by left|].
  apply (IH _ (seen ++ [e])); try done.
  - intros e' He'. apply Hl. by right.
  - apply (relax_bounded st u seen e); try done. apply Hl. by left.
  - unfold is_settled in *. by rewrite Hset2.
Qed.

Lemma settle_bounded st u :
  dijkstra_inv g s st None [] -> dist_bounded g st -> In u (candidates g st) ->
  dist_bounded g (settle g u st).
Proof.
  intros Hinv Hb Hcand.
  destruct (mark_inv g s size_ok Hs st u Hinv Hcand) as (Hu & _ & Hsu1 & Hinv1).
  unfold settle.
  by apply (relax_all_bounded u (out_edges u g) _ [] (fun e He => He) Hinv1).
Qed.

Lemma init_bounded : dist_bounded g (init g s).
Proof.
  intros v d Hv. unfold dist_of, init, num_vertices. cbn [dist].
  rewrite lookup_update by (rewrite ?length_replicate; unfold index; lia).
  case_decide; [|by rewrite lookup_replicate_2 by (unfold index; lia)].
  intros [= <-]. exists 0. split; [nia|reflexivity].
Qed.

Lemma run_bounded st final :
  run g st final -> dijkstra_inv g s st None [] -> dist_bounded g st ->
  dist_bounded g final.
Proof.
  induction 1 as [st Hall|st st' final Hstep Hrun IH]; intros Hinv Hb; [done|].
  destruct Hstep as [st u Hu]. apply IH.
  - by apply (settle_inv g s size_ok Hs).
  - by apply settle_bounded.
Qed.

End Exact.



End DijkstraFacts.

Module BuilderFacts.
Import Bacon.

Lemma empty_builder_inv : builder_inv empty_builder.
Proof.
  constructor; simpl; try done.
Qed.

(** Lookup-or-insert: the name is bound afterwards, earlier bindings are
    kept, and the edge store is not touched. *)
Lemma lookup_or_insert_spec name b :
  builder_inv b ->
  builder_inv (lookup_or_insert name b).2 /\
  actors (lookup_or_insert name b).2 !! name = Some (lookup_or_insert name b).1 /\
  actors b ⊆ actors (lookup_or_insert name b).2 /\
  dom (actors (lookup_or_insert name b).2) = {[name]} ∪ dom (actors b) /\
  m_edges (b_graph (lookup_or_insert name b).2) = m_edges (b_graph b) /\
  connecting_movie (b_graph (lookup_or_insert name b).2) = connecting_movie (b_graph b).
Proof.
  intros Hinv. unfold lookup_or_insert.
  destruct (actors b !! name) as [u|] eqn:Hlook; simpl.
  - split; [done|]. split; [done|]. split; [done|]. split; [|done].
    apply set_eq. intros a. rewrite elem_of_union, elem_of_singleton, !elem_of_dom.
    split; [by right|]. intros [->|H]; [by exists u|done].
  - destruct Hinv as [Hnames Hlen Hsize Htargets Hmovies].
    assert (Hset : <[num_vertices (b_graph b) := name]> (actor_name (b_graph b) ++ [String.EmptyString])
                   = actor_name (b_graph b) ++ [name]).
    { rewrite <- Hlen. rewrite insert_app_r_alt by lia. by rewrite Nat.sub_diag. }
    unfold put_actor_name. cbn [actor_name m_edges connecting_movie m_out_edges].
    rewrite Hset. split; [|repeat split].
    + constructor; simpl.
      * intros a u. destruct (decide (a = name)) as [->|Hne].
        -- rewrite lookup_insert_eq. split.
           ++ intros [= <-]. rewrite <- Hlen. by rewrite list_lookup_middle.
           ++ intros Hu. f_equal. destruct (decide (u < length (actor_name (b_graph b)))%nat).
              ** rewrite lookup_app_l in Hu by done. apply Hnames in Hu. congruence.
              ** apply lookup_lt_Some in Hu as Hlt. rewrite length_app in Hlt. simpl in Hlt. lia.
        -- rewrite lookup_insert_ne by done. rewrite Hnames. split.
           ++ intros Hu. rewrite lookup_app_l; [done|]. by eapply lookup_lt_Some.
           ++ intros Hu. destruct (decide (u < length (actor_name (b_graph b)))%nat).
              ** by rewrite lookup_app_l in Hu.
              ** apply lookup_lt_Some in Hu as Hlt. rewrite length_app in Hlt. simpl in Hlt.
                 assert (u = length (actor_name (b_graph b))) as -> by lia.
                 rewrite list_lookup_middle in Hu by done. congruence.
      * unfold num_vertices. simpl. rewrite !length_app. simpl. unfold num_vertices in Hlen. lia.
      * rewrite map_size_insert_None by done. unfold num_vertices in *. simpl.
        rewrite length_app. simpl. lia.
      * intros u l te Hl Hte. unfold num_vertices. simpl. rewrite length_app. simpl.
        destruct (decide (u < length (m_out_edges (b_graph b)))%nat).
        -- rewrite lookup_app_l in Hl by done.
           specialize (Htargets u l te Hl Hte). unfold num_vertices in Htargets. lia.
        -- apply lookup_lt_Some in Hl as Hlt. rewrite length_app in Hlt. simpl in Hlt.
           assert (u = length (m_out_edges (b_graph b))) as -> by lia.
           rewrite list_lookup_middle in Hl by done. injection Hl as <-. destruct Hte.
      * done.
    + apply lookup_insert_eq.
    + by apply insert_subseteq.
    + by rewrite dom_insert_L.
Qed.


Lemma alter_snoc_targets (P : nat * nat -> Prop) (outs : list (list (nat * nat))) i x :
  (forall w l te, outs !! w = Some l -> In te l -> P te) -> P x ->
  forall w l te, alter (fun l => l ++ [x]) i outs !! w = Some l -> In te l -> P te.
Proof.
  intros Hall Hx w l te Hl Hte. destruct (decide (i = w)) as [->|Hne].
  - rewrite list_lookup_alter_eq in Hl.
    destruct (outs !! w) as [l0|] eqn:Hw; [|done]. injection Hl as <-.
    apply in_app_or in Hte as [Hte|[<-|[]]]; [by eapply Hall|done].
  - rewrite list_lookup_alter_ne in Hl by done. by eapply Hall.
Qed.

Lemma bound_vertex_lt b a u :
  builder_inv b -> actors b !! a = Some u -> (u < num_vertices (b_graph b))%nat.
Proof.
  intros Hinv Hu. apply (binv_names _ Hinv) in Hu. apply lookup_lt_Some in Hu.
  by rewrite (binv_len _ Hinv) in Hu.
Qed.

(** One record: both names are bound afterwards and one edge, carrying the
    movie, is appended between their vertices. *)
Lemma add_record_spec b r :
  builder_inv b ->
  builder_inv (add_record b r) /\
  actors b ⊆ actors (add_record b r) /\
  dom (actors (add_record b r)) = {[r_actor r; r_coactor r]} ∪ dom (actors b) /\
  is_Some (actors (add_record b r) !! r_actor r) /\
  is_Some (actors (add_record b r) !! r_coactor r) /\
  m_edges (b_graph (add_record b r)) =
    m_edges (b_graph b) ++
      [(vertex_of (add_record b r) (r_actor r), vertex_of (add_record b r) (r_coactor r))] /\
  connecting_movie (b_graph (add_record b r)) = connecting_movie (b_graph b) ++ [r_movie r].
Proof.
  intros Hinv. unfold add_record.
  pose proof (lookup_or_insert_spec (r_actor r) b Hinv) as H1.
  destruct (lookup_or_insert (r_actor r) b) as [u b1]. simpl in H1.
  destruct H1 as (Hinv1 & Hu & Hsub1 & Hdom1 & Hedges1 & Hmov1).
  pose proof (lookup_or_insert_spec (r_coactor r) b1 Hinv1) as H2.
  destruct (lookup_or_insert (r_coactor r) b1) as [v b2]. simpl in H2.
  destruct H2 as (Hinv2 & Hv & Hsub2 & Hdom2 & Hedges2 & Hmov2).
  assert (Hu2 : actors b2 !! r_actor r = Some u) by (by eapply lookup_weaken).
  pose proof (bound_vertex_lt _ _ _ Hinv2 Hu2) as Hult.
  pose proof (bound_vertex_lt _ _ _ Hinv2 Hv) as Hvlt.
  unfold add_edge, put_connecting_movie.
  cbn [actor_name m_edges connecting_movie m_out_edges b_graph actors m_eid].
  assert (Hmovie : <[num_edges (b_graph b2) := r_movie r]>
                     (connecting_movie (b_graph b2) ++ [String.EmptyString])
                   = connecting_movie (b_graph b2) ++ [r_movie r]).
  { unfold num_edges. rewrite <- (binv_movies _ Hinv2).
    rewrite insert_app_r_alt by lia. by rewrite Nat.sub_diag. }
  rewrite Hmovie. unfold vertex_of. cbn [actors]. rewrite Hu2, Hv. simpl.
  split; [|split; [|split; [|split; [|split; [|split]]]]].
  - destruct Hinv2 as [Hnames Hlen Hsize Htargets Hmovies].
    constructor; unfold num_vertices in *;
      cbn [actor_name m_edges connecting_movie m_out_edges b_graph actors];
      rewrite ?length_alter; try done.
    + apply (alter_snoc_targets
               (fun te => (te.1 < length (m_out_edges (b_graph b2)))%nat)); [|done].
      apply (alter_snoc_targets
               (fun te => (te.1 < length (m_out_edges (b_graph b2)))%nat)); done.
    + rewrite !length_app. simpl. lia.
  - by etrans.
  - rewrite Hdom2, Hdom1. by rewrite union_assoc_L, (union_comm_L {[r_coactor r]}).
  - by exists u.
  - by exists v.
  - by rewrite Hedges2, Hedges1.
  - by rewrite Hmov2, Hmov1.
Qed.

(** The whole loop, from any state that satisfies the invariant. *)
Lemma build_from_spec rs : forall b,
  builder_inv b ->
  builder_inv (build_from b rs) /\
  actors b ⊆ actors (build_from b rs) /\
  dom (actors (build_from b rs)) = names_of rs ∪ dom (actors b) /\
  m_edges (b_graph (build_from b rs)) =
    m_edges (b_graph b) ++
      map (fun r => (vertex_of (build_from b rs) (r_actor r),
                     vertex_of (build_from b rs) (r_coactor r))) rs /\
  connecting_movie (b_graph (build_from b rs)) =
    connecting_movie (b_graph b) ++ map r_movie rs.
Proof.
  induction rs as [|r rs IH]; intros b Hinv.
  - simpl. rewrite !app_nil_r. split; [done|]. split; [done|]. split; [|done].
    unfold names_of. simpl. by rewrite union_empty_l_L.
  - change (build_from b (r :: rs)) with (build_from (add_record b r) rs).
    destruct (add_record_spec b r Hinv) as (Hinv1 & Hsub1 & Hdom1 & [u Hu] & [v Hv] & He1 & Hm1).
    destruct (IH (add_record b r) Hinv1) as (Hinv2 & Hsub2 & Hdom2 & He2 & Hm2).
    split; [done|]. split; [by etrans|]. split; [|split].
    + rewrite Hdom2, Hdom1. unfold names_of. simpl.
      rewrite (union_comm_L (list_to_set _) (_ ∪ dom (actors b))).
      rewrite <- !union_assoc_L. do 2 f_equal. apply union_comm_L.
    + rewrite He2, He1, <- app_assoc. simpl. do 3 f_equal; unfold vertex_of.
      * rewrite Hu. by rewrite (lookup_weaken _ _ _ _ Hu Hsub2).
      * rewrite Hv. by rewrite (lookup_weaken _ _ _ _ Hv Hsub2).
    + rewrite Hm2, Hm1, <- app_assoc. done.
Qed.

Lemma builder_inv_wf b : builder_inv b -> wf_graph (b_graph b).
Proof.
  intros Hinv u e He. unfold out_edges in He. apply in_map_iff in He as (te & <- & Hte).
  simpl. destruct (m_out_edges (b_graph b) !! u) as [l|] eqn:Hl; [|destruct Hte].
  by eapply (binv_targets _ Hinv).
Qed.

Lemma build_wf rs : wf_graph (b_graph (build rs)).
Proof.
  apply builder_inv_wf. apply (build_from_spec rs empty_builder), empty_builder_inv.
Qed.

(** C9 (counterexample): two records with the same pair of actors yield two
    stored edges between the same two vertices. *)
Lemma same_pair_twice_gives_parallel_edges :
  let b := build [mk_record "A" "M1" "B"; mk_record "A" "M2" "B"] in
  m_edges (b_graph b) = [(0%nat, 1%nat); (0%nat, 1%nat)] /\
  m_out_edges (b_graph b) !! 0%nat = Some [(1%nat, 0%nat); (1%nat, 1%nat)] /\
  size (names_of [mk_record "A" "M1" "B"; mk_record "A" "M2" "B"]) = 2%nat /\
  num_edges (b_graph b) = 2%nat.
Proof. vm_compute. done. Qed.

(** C9 (amended): the names bound in the map are exactly the names of the
    records; names and vertices correspond one to one, and the name property
    of the vertex of a name is that name; and the builder appends one edge
    per record - not per pair - in the order of the records, between the
    vertices of its two names and carrying its movie. *)
Theorem build_one_vertex_per_name_one_edge_per_record (rs : list record) :
  let b := build rs in
  let g := b_graph b in
  dom (actors b) = names_of rs /\
  num_vertices g = size (names_of rs) /\
  (forall a u, actors b !! a = Some u <-> actor_name g !! u = Some a) /\
  length (actor_name g) = num_vertices g /\
  m_edges g = map (fun r => (vertex_of b (r_actor r), vertex_of b (r_coactor r))) rs /\
  connecting_movie g = map r_movie rs /\
  num_edges g = length rs.
Proof.
  intros b g. subst g b.
  destruct (build_from_spec rs empty_builder empty_builder_inv)
    as (Hinv & _ & Hdom & Hedges & Hmovies).
  change (build_from empty_builder rs) with (build rs) in *.
  change (dom (actors empty_builder)) with (dom (∅ : gmap string nat)) in Hdom.
  rewrite dom_empty_L, union_empty_r_L in Hdom.
  change (m_edges (b_graph empty_builder)) with (@nil (nat * nat)) in Hedges.
  change (connecting_movie (b_graph empty_builder)) with (@nil string) in Hmovies.
  simpl in Hedges, Hmovies.
  split; [done|]. split; [|split; [|split; [|split; [|split]]]].
  - rewrite <- Hdom, size_dom. symmetry. apply (binv_size _ Hinv).
  - apply (binv_names _ Hinv).
  - apply (binv_len _ Hinv).
  - done.
  - done.
  - unfold num_edges. rewrite Hedges. by rewrite length_map.
Qed.

(** ** Further properties of the builder loop *)

Lemma unbound_name_not_listed b name :
  builder_inv b -> actors b !! name = None -> name ∉ actor_name (b_graph b).
Proof.
  intros Hinv Hnone Hin. apply list_elem_of_lookup in Hin as [u Hu].
  apply (binv_names _ Hinv) in Hu. congruence.
Qed.

Lemma lookup_or_insert_names name b :
  builder_inv b ->
  actor_name (b_graph (lookup_or_insert name b).2) = append_new (actor_name (b_graph b)) name /\
  m_out_edges (b_graph (lookup_or_insert name b).2) =
    m_out_edges (b_graph b) ++
      (if decide (name ∈ actor_name (b_graph b)) then [] else [[]]).
Proof.
  intros Hinv. unfold lookup_or_insert, append_new.
  destruct (actors b !! name) as [u|] eqn:Hlook; simpl.
  - apply (binv_names _ Hinv) in Hlook.
    assert (Hin : name ∈ actor_name (b_graph b))
      by (apply list_elem_of_lookup; by exists u).
    rewrite !decide_True by done. by rewrite app_nil_r.
  - pose proof (unbound_name_not_listed b name Hinv Hlook) as Hnin.
    rewrite !decide_False by done.
    split; [|done].
    rewrite <- (binv_len _ Hinv). rewrite insert_app_r_alt by lia.
    by rewrite Nat.sub_diag.
Qed.

Lemma add_record_names b r :
  builder_inv b ->
  actor_name (b_graph (add_record b r)) =
    append_new (append_new (actor_name (b_graph b)) (r_actor r)) (r_coactor r).
Proof.
  intros Hinv. unfold add_record.
  pose proof (lookup_or_insert_spec (r_actor r) b Hinv) as (Hinv1 & _).
  pose proof (lookup_or_insert_names (r_actor r) b Hinv) as [H1 _].
  destruct (lookup_or_insert (r_actor r) b) as [u b1]. simpl in *.
  pose proof (lookup_or_insert_names (r_coactor r) b1 Hinv1) as [H2 _].
  destruct (lookup_or_insert (r_coactor r) b1) as [v b2]. simpl in *.
  by rewrite <- H1, <- H2.
Qed.

Lemma build_from_names rs : forall b,
  builder_inv b ->
  actor_name (b_graph (build_from b rs)) =
    fold_left append_new (names_in_order rs) (actor_name (b_graph b)).
Proof.
  induction rs as [|r rs IH]; intros b Hinv; [done|].
  change (build_from b (r :: rs)) with (build_from (add_record b r) rs).
  destruct (add_record_spec b r Hinv) as (Hinv1 & _).
  rewrite IH by done. by rewrite add_record_names.
Qed.

Lemma append_new_prefix acc l : acc `prefix_of` fold_left append_new l acc.
Proof.
  revert acc. induction l as [|x l IH]; intros acc; [done|]. simpl.
  etrans; [|apply IH]. unfold append_new. case_decide; [done|].
  by apply prefix_app_r.
Qed.

(** X10: The vertices are numbered by first appearance: the name properties of
    the vertices 0, 1, 2, ... are the distinct names of the data file in the
    order in which the file first mentions them, and the map sends every
    name to its position in that list. *)
Theorem vertices_are_numbered_by_first_appearance (rs : list record) :
  actor_name (b_graph (build rs)) = first_occurrences (names_in_order rs) /\
  List.NoDup (first_occurrences (names_in_order rs)) /\
  (forall a u, actors (build rs) !! a = Some u <->
               first_occurrences (names_in_order rs) !! u = Some a).
Proof.
  pose proof (build_from_names rs empty_builder empty_builder_inv) as Hnames.
  destruct (build_from_spec rs empty_builder empty_builder_inv) as (Hinv & _).
  change (build_from empty_builder rs) with (build rs) in *.
  change (actor_name (b_graph empty_builder)) with (@nil string) in Hnames.
  fold (first_occurrences (names_in_order rs)) in Hnames.
  split; [done|]. rewrite <- Hnames. split.
  - apply NoDup_ListNoDup, NoDup_alt. intros i j a Hi Hj.
    apply (binv_names _ Hinv) in Hi, Hj. congruence.
  - apply (binv_names _ Hinv).
Qed.

Lemma alter_snoc_lookup {A} (outs : list (list A)) j x w :
  alter (fun l => l ++ [x]) j outs !! w =
  (fun l => if decide (j = w) then l ++ [x] else l) <$> outs !! w.
Proof.
  destruct (decide (j = w)) as [->|Hne].
  - rewrite list_lookup_alter_eq. by destruct (outs !! w).
  - rewrite list_lookup_alter_ne by done. by destruct (outs !! w).
Qed.

Lemma list_sum_alter_snoc {A} (outs : list (list A)) j x :
  (j < length outs)%nat ->
  list_sum (map (@length _) (alter (fun l => l ++ [x]) j outs)) =
  S (list_sum (map (@length _) outs)).
Proof.
  revert j. induction outs as [|l outs IH]; intros j Hj; [simpl in Hj; lia|].
  destruct j as [|j]; simpl.
  - rewrite length_app. simpl. lia.
  - simpl in Hj. specialize (IH j ltac:(lia)).
    change (list_alter ?f j outs) with (alter f j outs). lia.
Qed.

Lemma out_edges_In_iff g u t i :
  In (mk_edge u t i) (out_edges u g) <->
  exists l, m_out_edges g !! u = Some l /\ In (t, i) l.
Proof.
  unfold out_edges. rewrite in_map_iff. split.
  - intros ([t' i'] & [= -> ->] & Hin).
    destruct (m_out_edges g !! u) as [l|]; [by exists l|destruct Hin].
  - intros (l & -> & Hin). by exists (t, i).
Qed.

Lemma incidence_ok_same g g' :
  m_edges g' = m_edges g -> m_out_edges g' = m_out_edges g ->
  incidence_ok g -> incidence_ok g'.
Proof.
  unfold incidence_ok, incidence_entries, num_edges. intros H1 H2. by rewrite H1, H2.
Qed.

Lemma incidence_ok_add_vertex g g' :
  m_edges g' = m_edges g -> m_out_edges g' = m_out_edges g ++ [[]] ->
  incidence_ok g -> incidence_ok g'.
Proof.
  unfold incidence_ok, incidence_entries, num_edges.
  intros H1 H2 (Hlisted & Hstored & Hsum). rewrite H1, H2. split; [|split].
  - intros i u v Hi. destruct (Hlisted i u v Hi) as (lu & lv & Hu & Hinu & Hv & Hinv).
    exists lu, lv. split; [by apply lookup_app_l_Some|]. split; [done|].
    split; [by apply lookup_app_l_Some|done].
  - intros w l t i Hw Hin. apply lookup_app_Some in Hw as [Hw|[_ Hw]].
    + by eapply Hstored.
    + destruct (w - length (m_out_edges g))%nat; [|done].
      injection Hw as <-. destruct Hin.
  - rewrite map_app, list_sum_app. simpl. lia.
Qed.

Lemma incidence_ok_add_edge g g' u v :
  (u < num_vertices g)%nat -> (v < num_vertices g)%nat ->
  m_edges g' = m_edges g ++ [(u, v)] ->
  m_out_edges g' =
    alter (fun l => l ++ [(u, num_edges g)]) v
      (alter (fun l => l ++ [(v, num_edges g)]) u (m_out_edges g)) ->
  incidence_ok g -> incidence_ok g'.
Proof.
  unfold incidence_ok, incidence_entries, num_edges, num_vertices.
  intros Hu Hv H1 H2 (Hlisted & Hstored & Hsum). rewrite H1, H2.
  assert (Hat : forall w l, m_out_edges g !! w = Some l ->
            exists l', alter (fun l => l ++ [(u, length (m_edges g))]) v
                         (alter (fun l => l ++ [(v, length (m_edges g))]) u (m_out_edges g))
                       !! w = Some l' /\
                       (forall x, In x l -> In x l') /\
                       (w = u -> In (v, length (m_edges g)) l') /\
                       (w = v -> In (u, length (m_edges g)) l')).
  { intros w l Hw. rewrite !alter_snoc_lookup, Hw. simpl. eexists. split; [done|].
    repeat case_decide; subst; repeat split; intros;
      rewrite ?in_app_iff; simpl; first [tauto|congruence]. }
  split; [|split].
  - intros i a b Hi. apply lookup_app_Some in Hi as [Hi|[Hlen Hi]].
    + destruct (Hlisted i a b Hi) as (la & lb & Ha & Hina & Hb & Hinb).
      destruct (Hat a la Ha) as (la' & Ha' & Hsub & _).
      destruct (Hat b lb Hb) as (lb' & Hb' & Hsubb & _).
      exists la', lb'. auto.
    + destruct (i - length (m_edges g))%nat eqn:Hd; [|done].
      injection Hi as <- <-. assert (i = length (m_edges g)) as -> by lia.
      destruct (lookup_lt_is_Some_2 _ _ Hu) as [lu Hlu].
      destruct (lookup_lt_is_Some_2 _ _ Hv) as [lv Hlv].
      destruct (Hat u lu Hlu) as (lu' & Hu' & _ & Hinu & _).
      destruct (Hat v lv Hlv) as (lv' & Hv' & _ & _ & Hinv).
      exists lu', lv'. auto.
  - intros w l' t i Hw Hin. rewrite !alter_snoc_lookup in Hw.
    destruct (m_out_edges g !! w) as [l|] eqn:Hl; [|done]. simpl in Hw.
    injection Hw as <-.
    assert (Hold : In (t, i) l -> (m_edges g ++ [(u, v)]) !! i = Some (w, t) \/
                                  (m_edges g ++ [(u, v)]) !! i = Some (t, w)).
    { intros Hin'. destruct (Hstored w l t i Hl Hin') as [H|H];
        [left|right]; by apply lookup_app_l_Some. }
    assert (Hnew : (m_edges g ++ [(u, v)]) !! length (m_edges g) = Some (u, v))
      by apply list_lookup_middle, eq_refl.
    repeat case_decide; subst; rewrite ?in_app_iff in Hin; simpl in Hin;
      intuition (try congruence);
      match goal with H : (_, _) = (_, _) |- _ => injection H as <- <- end; auto.
  - rewrite !list_sum_alter_snoc by (rewrite ?length_alter; done).
    rewrite length_app. simpl. lia.
Qed.

Lemma lookup_or_insert_incidence name b :
  builder_inv b -> incidence_ok (b_graph b) ->
  incidence_ok (b_graph (lookup_or_insert name b).2).
Proof.
  intros Hinv Hok.
  destruct (lookup_or_insert_spec name b Hinv) as (_ & _ & _ & _ & Hedges & _).
  destruct (lookup_or_insert_names name b Hinv) as [_ Houts].
  case_decide.
  - rewrite app_nil_r in Houts. by eapply incidence_ok_same.
  - by eapply incidence_ok_add_vertex.
Qed.

Lemma add_record_incidence b r :
  builder_inv b -> incidence_ok (b_graph b) -> incidence_ok (b_graph (add_record b r)).
Proof.
  intros Hinv Hok. unfold add_record.
  pose proof (lookup_or_insert_spec (r_actor r) b Hinv) as H1.
  pose proof (lookup_or_insert_incidence (r_actor r) b Hinv Hok) as Hok1.
  destruct (lookup_or_insert (r_actor r) b) as [u b1]. simpl in H1, Hok1.
  destruct H1 as (Hinv1 & Hu & _).
  pose proof (lookup_or_insert_spec (r_coactor r) b1 Hinv1) as H2.
  pose proof (lookup_or_insert_incidence (r_coactor r) b1 Hinv1 Hok1) as Hok2.
  destruct (lookup_or_insert (r_coactor r) b1) as [v b2]. simpl in H2, Hok2.
  destruct H2 as (Hinv2 & Hv & Hsub2 & _).
  assert (Hu2 : actors b2 !! r_actor r = Some u) by (by eapply lookup_weaken).
  pose proof (bound_vertex_lt _ _ _ Hinv2 Hu2) as Hult.
  pose proof (bound_vertex_lt _ _ _ Hinv2 Hv) as Hvlt.
  unfold add_edge. cbn [b_graph].
  by apply (incidence_ok_add_edge (b_graph b2) _ u v).
Qed.

Lemma build_from_incidence rs : forall b,
  builder_inv b -> incidence_ok (b_graph b) -> incidence_ok (b_graph (build_from b rs)).
Proof.
  induction rs as [|r rs IH]; intros b Hinv Hok; [done|].
  change (build_from b (r :: rs)) with (build_from (add_record b r) rs).
  destruct (add_record_spec b r Hinv) as (Hinv1 & _).
  apply IH; [done|]. by apply add_record_incidence.
Qed.

Lemma build_incidence rs : incidence_ok (b_graph (build rs)).
Proof.
  apply (build_from_incidence rs empty_builder empty_builder_inv).
  split; [|split]; [intros i u v Hi; destruct i; done| |done].
  intros w l t i Hw. destruct w; done.
Qed.

(** The incidence lists of a graph that satisfies [incidence_ok] are
    symmetric. *)
Lemma incidence_symmetric g u e :
  incidence_ok g -> In e (out_edges u g) ->
  In (mk_edge (m_target e) u (m_eid e)) (out_edges (m_target e) g).
Proof.
  intros (Hlisted & Hstored & _) He.
  assert (Hsrc : m_source e = u)
    by (unfold out_edges in He; apply in_map_iff in He; by destruct He as (te & <- & _)).
  destruct e as [u' t i]. simpl in *. subst u'.
  apply out_edges_In_iff in He as (l & Hl & Hin). apply out_edges_In_iff.
  destruct (Hstored u l t i Hl Hin) as [Hi|Hi];
    destruct (Hlisted _ _ _ Hi) as (l1 & l2 & H1 & Hin1 & H2 & Hin2); eauto.
Qed.

Lemma record_edge_stored rs i r :
  rs !! i = Some r ->
  m_edges (b_graph (build rs)) !! i =
    Some (vertex_of (build rs) (r_actor r), vertex_of (build rs) (r_coactor r)).
Proof.
  intros Hi.
  destruct (build_from_spec rs empty_builder empty_builder_inv) as (_ & _ & _ & Hedges & _).
  change (build_from empty_builder rs) with (build rs) in *.
  change (m_edges (b_graph empty_builder)) with (@nil (nat * nat)) in Hedges.
  simpl in Hedges. rewrite Hedges, list_lookup_fmap, Hi. done.
Qed.

(** X11: Every record is an edge at both of its actors: the edge stored for the
    record with number [i] is listed, with handle [i], among the out-edges
    of the vertex of its actor and among those of the vertex of its
    co-actor; every out-edge of the graph has its reverse among the
    out-edges of its target; and the incidence lists hold two entries per
    record. *)
Theorem every_record_is_listed_at_both_actors (rs : list record) :
  let b := build rs in
  let g := b_graph b in
  (forall i r, rs !! i = Some r ->
     let u := vertex_of b (r_actor r) in
     let v := vertex_of b (r_coactor r) in
     In (mk_edge u v i) (out_edges u g) /\ In (mk_edge v u i) (out_edges v g)) /\
  (forall u e, In e (out_edges u g) ->
     In (mk_edge (m_target e) u (m_eid e)) (out_edges (m_target e) g)) /\
  incidence_entries g = (2 * length rs)%nat.
Proof.
  intros b g. subst b g. pose proof (build_incidence rs) as Hok.
  split; [|split].
  - intros i r Hi u v. subst u v.
    pose proof (record_edge_stored rs i r Hi) as Hst.
    destruct Hok as (Hlisted & _).
    destruct (Hlisted _ _ _ Hst) as (l1 & l2 & H1 & Hin1 & H2 & Hin2).
    split; apply out_edges_In_iff; eauto.
  - intros u e. by apply incidence_symmetric.
  - destruct Hok as (_ & _ & Hsum). rewrite Hsum. f_equal.
    destruct (build_from_spec rs empty_builder empty_builder_inv) as (_ & _ & _ & Hedges & _).
    unfold num_edges. change (build_from empty_builder rs) with (build rs) in *.
    rewrite Hedges. simpl. by rewrite length_map.
Qed.

End BuilderFacts.

Module BaconFacts.
Import Bacon.

Lemma int_add_small a b : - 2 ^ 31 <= a + b < 2 ^ 31 -> int_add a b = a + b.
Proof.
  intros H. unfold int_add, int_wrap. rewrite Z.mod_small by lia. lia.
Qed.

Lemma out_edges_source g u e : In e (out_edges u g) -> m_source e = u.
Proof. unfold out_edges. rewrite in_map_iff. by intros (te & <- & _). Qed.

Lemma labelled_inj d v k1 k2 : labelled d v k1 -> labelled d v k2 -> k1 = k2.
Proof. unfold labelled. intros H1 H2. rewrite H1 in H2. injection H2. lia. Qed.

Lemma labelled_insert_ne d v w x k :
  v <> w -> labelled d v k -> labelled (<[w := x]> d) v k.
Proof. unfold labelled. intros Hne H. by rewrite list_lookup_insert_ne. Qed.

Lemma discovered_size g (D : gset Vertex) :
  (forall v, v ∈ D -> (v < num_vertices g)%nat) -> (size D <= num_vertices g)%nat.
Proof.
  intros H. rewrite <- (size_set_seq (C := gset nat) 0 (num_vertices g)).
  apply subseteq_size. intros v Hv. apply elem_of_set_seq. split; [lia|]. by apply H.
Qed.

Lemma discovered_size_fresh g (D : gset Vertex) w :
  (forall v, v ∈ D -> (v < num_vertices g)%nat) ->
  (w < num_vertices g)%nat -> w ∉ D ->
  size ({[w]} ∪ D) = S (size D) /\ (S (size D) <= num_vertices g)%nat.
Proof.
  intros H Hw Hnot.
  assert (Hs : size ({[w]} ∪ D) = S (size D)).
  { rewrite size_union by set_solver. by rewrite size_singleton. }
  split; [done|]. rewrite <- Hs. apply discovered_size.
  intros v Hv. apply elem_of_union in Hv as [Hv|Hv]; [|by apply H].
  apply elem_of_singleton in Hv. by subst.
Qed.

(** A walk that leaves a set containing the source crosses its border at
    an earlier position. *)
Lemma walk_crosses g s (D : gset Vertex) j w :
  s ∈ D -> walk g s j w -> w ∉ D ->
  exists i x e, (i < j)%nat /\ walk g s i x /\ x ∈ D /\
                In e (out_edges x g) /\ m_target e ∉ D.
Proof.
  intros Hs Hwalk. induction Hwalk as [|k u e Hwalk IH He]; intros Hw.
  - done.
  - destruct (decide (u ∈ D)) as [Hu|Hu].
    + exists k, u, e. repeat split; [lia|done..].
    + destruct (IH Hu) as (i & x & e' & Hi & H). exists i, x, e'. split; [lia|done].
Qed.

(** The target of an edge from the current vertex towards an undiscovered
    vertex lies one step further than the current vertex. *)
Lemma fresh_target_shortest g s d0 u seen st e k :
  bfs_inv g s d0 (Some u) seen st ->
  labelled (bacon_number st) u k ->
  In e (out_edges u g) -> m_target e ∉ discovered st ->
  shortest g s (m_target e) (S k).
Proof.
  intros Hinv Hk He Hfresh.
  destruct (inv_cur _ _ _ _ _ _ Hinv u eq_refl) as [Hu _].
  destruct (inv_short _ _ _ _ _ _ Hinv u Hu) as (k' & [Hwalk Hmin] & Hk' & _).
  assert (k' = k) as -> by (by eapply labelled_inj).
  split; [by eapply walk_edge|].
  intros j Hj.
  destruct (walk_crosses g s (discovered st) j (m_target e)
              (inv_src _ _ _ _ _ _ Hinv) Hj Hfresh)
    as (i & x & e' & Hi & Hxi & Hx & He' & Hfresh').
  enough (k <= i)%nat by lia.
  destruct (decide (x = u)) as [->|Hxu]; [by apply Hmin|].
  destruct (in_dec Nat.eq_dec x (queue st)) as [Hq|Hq].
  - destruct (inv_short _ _ _ _ _ _ Hinv x Hx) as (kx & [_ Hminx] & Hkx & _).
    destruct (inv_levels _ _ _ _ _ _ Hinv) as (k0 & A & B & HQ & HA & HB & Hc).
    assert (k0 = k) as -> by (eapply labelled_inj; [by apply Hc|done]).
    rewrite HQ in Hq. apply in_app_or in Hq as [Hq|Hq].
    + assert (kx = k) as -> by (eapply labelled_inj; [done|by apply HA]).
      by apply Hminx.
    + assert (kx = S k) as -> by (eapply labelled_inj; [done|by apply HB]).
      specialize (Hminx i Hxi). lia.
  - exfalso. apply Hfresh'.
    eapply (inv_closed _ _ _ _ _ _ Hinv x); [done..| |done]. congruence.
Qed.


Lemma examine_edge_inv g s d0 u seen st e :
  wf_graph g -> Z.of_nat (num_vertices g) <= 2 ^ 31 ->
  bfs_inv g s d0 (Some u) seen st -> In e (out_edges u g) ->
  bfs_inv g s d0 (Some u) (seen ++ [e]) (examine_edge g st e) /\
  measure g (examine_edge g st e) = measure g st.
Proof.
  intros Hwf Hmax Hinv He. unfold examine_edge, target.
  destruct (inv_cur _ _ _ _ _ _ Hinv u eq_refl) as [Hu Hseen].
  case_decide as Hdisc.
  { split; [|done]. destruct Hinv. constructor; try done.
    intros u' [= <-]. split; [done|]. intros e' He'.
    apply in_app_or in He' as [He'|[<-|[]]]; [by apply Hseen|done]. }
  remember (m_target e) as w eqn:Heqw.
  assert (Hw : (w < num_vertices g)%nat) by (subst w; by eapply Hwf).
  destruct (discovered_size_fresh g (discovered st) w
              (inv_range _ _ _ _ _ _ Hinv) Hw Hdisc) as [Hsize Hsize'].
  destruct (inv_levels _ _ _ _ _ _ Hinv) as (k & A & B & HQ & HA & HB & Hc).
  pose proof (Hc u eq_refl) as Hku.
  assert (Hshort : shortest g s w (S k)) by (subst w; by eapply fresh_target_shortest).
  destruct (inv_short _ _ _ _ _ _ Hinv u Hu) as (k' & _ & Hku' & Hbound).
  assert (k' = k) as -> by (by eapply labelled_inj).
  assert (Hsrc : m_source e = u) by (by eapply out_edges_source).
  assert (Hnew : tree_edge e g (bacon_number st)
                 = <[w := Z.of_nat (S k)]> (bacon_number st)).
  { unfold tree_edge, source, target. rewrite <- Heqw, Hsrc, Hku. simpl.
    rewrite int_add_small by lia. f_equal. lia. }
  assert (Hkeep : forall v j, v ∈ discovered st ->
            labelled (bacon_number st) v j ->
            labelled (<[w := Z.of_nat (S k)]> (bacon_number st)) v j).
  { intros v j Hv Hj. apply labelled_insert_ne; [|done]. intros ->. done. }
  assert (Hwlab : labelled (<[w := Z.of_nat (S k)]> (bacon_number st)) w (S k)).
  { unfold labelled. apply list_lookup_insert_eq.
    rewrite (inv_len _ _ _ _ _ _ Hinv). done. }
  split.
  2:{ unfold measure. cbn [queue discovered]. rewrite length_app, Hsize. simpl. lia. }
  constructor; cbn [queue discovered bacon_number tree_edges]; rewrite ?Hnew.
  - apply elem_of_union_r, (inv_src _ _ _ _ _ _ Hinv).
  - intros v Hv. apply elem_of_union in Hv as [Hv|Hv].
    + apply elem_of_singleton in Hv. by subst.
    + by apply (inv_range _ _ _ _ _ _ Hinv).
  - rewrite length_insert. apply (inv_len _ _ _ _ _ _ Hinv).
  - intros v Hv. rewrite Hsize. apply elem_of_union in Hv as [Hv|Hv].
    + apply elem_of_singleton in Hv. subst v. exists (S k). repeat split; try apply Hshort; [done|lia].
    + destruct (inv_short _ _ _ _ _ _ Hinv v Hv) as (j & Hj1 & Hj2 & Hj3).
      exists j. repeat split; try apply Hj1; [by apply Hkeep|lia].
  - intros v Hv Hq Hcur e' He'. apply elem_of_union_r.
    apply elem_of_union in Hv as [Hv|Hv].
    + apply elem_of_singleton in Hv. subst v. exfalso. apply Hq.
      apply in_or_app. right. by left.
    + eapply (inv_closed _ _ _ _ _ _ Hinv v); [done| |done|done].
      intros Hin. apply Hq. apply in_or_app. by left.
  - intros u' [= <-]. split; [by apply elem_of_union_r|].
    intros e' He'. apply in_app_or in He' as [He'|[<-|[]]].
    + apply elem_of_union_r. by apply Hseen.
    + apply elem_of_union_l. by apply elem_of_singleton.
  - intros v Hv. apply in_app_or in Hv as [Hv|[<-|[]]].
    + apply elem_of_union_r. by apply (inv_queue _ _ _ _ _ _ Hinv).
    + apply elem_of_union_l. by apply elem_of_singleton.
  - exists k, A, (B ++ [w]). split; [by rewrite HQ, app_assoc|].
    assert (HinQ : forall v, In v (A ++ B) -> v ∈ discovered st).
    { intros v Hv. apply (inv_queue _ _ _ _ _ _ Hinv). by rewrite HQ. }
    split; [|split].
    + intros a Ha. apply Hkeep; [|by apply HA]. apply HinQ, in_or_app. by left.
    + intros b Hb. apply in_app_or in Hb as [Hb|[<-|[]]]; [|done].
      apply Hkeep; [|by apply HB]. apply HinQ, in_or_app. by right.
    + intros u' [= <-]. by apply Hkeep.
  - intros v Hv. rewrite list_lookup_insert_ne by set_solver.
    apply (inv_untouched _ _ _ _ _ _ Hinv). set_solver.
  - intros e' He'. apply in_app_or in He' as [He'|[<-|[]]].
    + destruct (inv_events _ _ _ _ _ _ Hinv e' He') as (H1 & H2 & H3 & H4 & j & H5 & H6).
      split; [done|]. split; [by apply elem_of_union_r|].
      split; [by apply elem_of_union_r|]. split; [done|].
      exists j. split; by apply Hkeep.
    + rewrite Hsrc. split; [done|]. split; [by apply elem_of_union_r|].
      split; [apply elem_of_union_l; by apply elem_of_singleton|].
      split; [intros Heq; apply Hdisc; rewrite Heqw, Heq; apply (inv_src _ _ _ _ _ _ Hinv)|].
      exists k. split; [by apply Hkeep|by rewrite <- Heqw].
  - rewrite map_app. simpl. apply NoDup_ListNoDup. apply NoDup_app.
    split; [apply NoDup_ListNoDup, (inv_events_nodup _ _ _ _ _ _ Hinv)|].
    split; [|apply NoDup_singleton].
    intros v Hv Hv'. apply list_elem_of_singleton in Hv'.
    apply list_elem_of_In, in_map_iff in Hv as (e' & He'w & He').
    destruct (inv_events _ _ _ _ _ _ Hinv e' He') as (_ & _ & H3 & _).
    apply Hdisc. rewrite Heqw, <- Hv', <- He'w. exact H3.
  - intros v Hv Hvs. rewrite map_app. apply in_or_app.
    apply elem_of_union in Hv as [Hv|Hv].
    + apply elem_of_singleton in Hv. subst v. right. by left.
    + left. by apply (inv_events_all _ _ _ _ _ _ Hinv).
Qed.


Lemma examine_edges_inv g s d0 u l : forall seen st,
  wf_graph g -> Z.of_nat (num_vertices g) <= 2 ^ 31 ->
  (forall e, In e l -> In e (out_edges u g)) ->
  bfs_inv g s d0 (Some u) seen st ->
  bfs_inv g s d0 (Some u) (seen ++ l) (fold_left (examine_edge g) l st) /\
  measure g (fold_left (examine_edge g) l st) = measure g st.
Proof.
  induction l as [|e l IH]; intros seen st Hwf Hmax Hl Hinv.
  - simpl. by rewrite app_nil_r.
  - simpl.
    destruct (examine_edge_inv g s d0 u seen st e Hwf Hmax Hinv) as [Hinv' Hm].
    { apply Hl. by left. }
    destruct (IH (seen ++ [e]) (examine_edge g st e) Hwf Hmax) as [Hinv'' Hm''];
      [intros e' He'; apply Hl; by right|done|].
    rewrite <- app_assoc in Hinv''. split; [done|]. by rewrite Hm''.
Qed.

Lemma dequeue_inv g s d0 seen st u q :
  bfs_inv g s d0 None seen st -> queue st = u :: q ->
  let st' := {| queue := q; discovered := discovered st;
                bacon_number := bacon_number st; tree_edges := tree_edges st |} in
  bfs_inv g s d0 (Some u) [] st' /\ S (measure g st') = measure g st.
Proof.
  intros Hinv HQ st'. split; [|unfold measure, st'; rewrite HQ; simpl; lia].
  destruct Hinv. rewrite HQ in *. constructor; subst st'; simpl; try done.
  - intros v Hv Hq Hcur e He. apply (inv_closed0 v); [done| |done|done].
    intros [->|Hin]; [by apply Hcur|by apply Hq].
  - intros u' [= <-]. split; [|done]. apply inv_queue0. by left.
  - intros v Hv. apply inv_queue0. by right.
  - destruct inv_levels0 as (k & A & B & HAB & HA & HB & _).
    destruct A as [|a A].
    + simpl in HAB. subst B. exists (S k), q, []. rewrite app_nil_r.
      split; [done|]. split; [intros a Ha; apply HB; by right|].
      split; [done|]. intros u' [= <-]. apply HB. by left.
    + injection HAB as <- ->. exists k, A, B.
      split; [done|]. split; [intros a Ha; apply HA; by right|].
      split; [done|]. intros u' [= <-]. apply HA. by left.
Qed.

Lemma finish_vertex_inv g s d0 u st :
  bfs_inv g s d0 (Some u) (out_edges u g) st -> bfs_inv g s d0 None [] st.
Proof.
  intros Hinv. destruct Hinv. constructor; try done.
  - intros v Hv Hq _ e He. destruct (decide (v = u)) as [->|Hne].
    + by apply (inv_cur0 u eq_refl).
    + apply (inv_closed0 v); [done..| |done]. congruence.
  - destruct inv_levels0 as (k & A & B & HAB & HA & HB & _).
    exists k, A, B. done.
Qed.

(** The loop keeps the invariant, and [measure] iterations empty the queue. *)
Lemma bfs_loop_inv g s d0 fuel : forall st,
  wf_graph g -> Z.of_nat (num_vertices g) <= 2 ^ 31 ->
  bfs_inv g s d0 None [] st -> (measure g st <= fuel)%nat ->
  bfs_inv g s d0 None [] (bfs_loop g fuel st) /\ queue (bfs_loop g fuel st) = [].
Proof.
  induction fuel as [|fuel IH]; intros st Hwf Hmax Hinv Hm.
  - simpl. split; [done|]. unfold measure in Hm.
    destruct (queue st); [done|simpl in Hm; lia].
  - simpl. destruct (queue st) as [|u q] eqn:HQ; [done|].
    destruct (dequeue_inv g s d0 [] st u q Hinv HQ) as [Hinv1 Hm1].
    destruct (examine_edges_inv g s d0 u (out_edges u g) [] _ Hwf Hmax
                ltac:(done) Hinv1) as [Hinv2 Hm2].
    apply IH; [done..| |].
    + by apply (finish_vertex_inv g s d0 u).
    + unfold examine_vertex. lia.
Qed.

Lemma bacon_search_inv g s :
  wf_graph g -> (s < num_vertices g)%nat -> Z.of_nat (num_vertices g) <= 2 ^ 31 ->
  bfs_inv g s (replicate (num_vertices g) 0) None [] (bacon_search g s) /\
  queue (bacon_search g s) = [].
Proof.
  intros Hwf Hs Hmax. unfold bacon_search, breadth_first_search.
  assert (Hd0 : <[s := 0]> (replicate (num_vertices g) 0) = replicate (num_vertices g) 0).
  { apply list_insert_id. by apply lookup_replicate_2. }
  rewrite Hd0. apply bfs_loop_inv; [done..| |].
  - constructor; cbn [queue discovered bacon_number tree_edges].
    + by apply elem_of_singleton.
    + intros v Hv. apply elem_of_singleton in Hv. by subst.
    + apply length_replicate.
    + intros v Hv. apply elem_of_singleton in Hv. subst v. exists 0%nat.
      split; [split; [constructor|intros; lia]|].
      split; [by apply lookup_replicate_2|]. rewrite size_singleton. lia.
    + intros v Hv Hq. apply elem_of_singleton in Hv. subst v. exfalso. apply Hq. by left.
    + done.
    + intros v [<-|[]]. by apply elem_of_singleton.
    + exists 0%nat, [s], []. split; [done|]. split; [|done].
      intros a [<-|[]]. by apply lookup_replicate_2.
    + done.
    + intros e [].
    + constructor.
    + intros v Hv Hne. apply elem_of_singleton in Hv. done.
  - unfold measure. cbn [queue discovered]. rewrite size_singleton. simpl. lia.
Qed.

(** When the queue is empty the discovered vertices are the reachable ones. *)
Lemma discovered_iff_reachable g s d0 st :
  bfs_inv g s d0 None [] st -> queue st = [] ->
  forall v, v ∈ discovered st <-> reachable g s v.
Proof.
  intros Hinv HQ v. split.
  - intros Hv. destruct (inv_short _ _ _ _ _ _ Hinv v Hv) as (k & [Hw _] & _).
    by exists k.
  - intros [k Hwalk]. induction Hwalk as [|k u e Hwalk IH He].
    + apply (inv_src _ _ _ _ _ _ Hinv).
    + apply (inv_closed _ _ _ _ _ _ Hinv u); [done| |done|done].
      rewrite HQ. intros [].
Qed.

Lemma filter_target_unique (l : list Edge) (v : nat) :
  List.NoDup (map m_target l) -> In v (map m_target l) ->
  exists e, List.filter (fun e => Nat.eqb (m_target e) v) l = [e] /\ In e l /\ m_target e = v.
Proof.
  induction l as [|a l IH]; intros Hnd Hin; [destruct Hin|].
  simpl in Hnd. inversion Hnd as [|? ? Hnotin Hnd']; subst. simpl.
  destruct (Nat.eqb_spec (m_target a) v) as [Heq|Hne].
  - exists a. split; [|split; [by left|done]]. f_equal.
    apply filter_none. intros y Hy. apply Nat.eqb_neq. intros Hy'.
    apply Hnotin. rewrite Heq, <- Hy'. by apply in_map.
  - destruct Hin as [Heq|Hin]; [done|].
    destruct (IH Hnd' Hin) as (e & H1 & H2 & H3). exists e. split; [done|]. split; [by right|done].
Qed.

Lemma filter_target_none (l : list Edge) (v : nat) :
  ~ In v (map m_target l) -> List.filter (fun e => Nat.eqb (m_target e) v) l = [].
Proof.
  intros Hnot. apply filter_none. intros e He. apply Nat.eqb_neq.
  intros Heq. apply Hnot. rewrite <- Heq. by apply in_map.
Qed.


(** C5 (counterexample): two records in two separate components.  Vertex 2
    (actor "B") is not reachable from the source, and its slot of the zero
    initialised array holds the finite number 0 at the end, the very value
    of the source: nothing marks it as unset or infinite. *)
Lemma unreachable_actor_keeps_zero :
  let b := build [mk_record "Kevin Bacon" "M1" "A"; mk_record "B" "M2" "C"] in
  let g := b_graph b in
  let src := kevin_bacon b in
  let st := bacon_search g src in
  ~ reachable g src 2 /\
  bacon_number st !! 2%nat = Some 0 /\
  bacon_number st !! src = Some 0.
Proof.
  split; [|split; reflexivity].
  intros [k Hwalk].
  assert (H : forall k v, walk (b_graph (build [mk_record "Kevin Bacon" "M1" "A";
                                               mk_record "B" "M2" "C"])) 0 k v ->
              v = 0%nat \/ v = 1%nat).
  { clear. intros k v Hwalk. induction Hwalk as [|k u e Hwalk IH He]; [by left|].
    destruct IH as [->| ->]; vm_compute in He;
      destruct He as [<-|[]]; simpl; auto. }
  destruct (H k 2%nat Hwalk); discriminate.
Qed.

(** C5 (amended): for a graph of at most [2^31] vertices, the search from
    [s] empties its queue; every reachable vertex other than [s] is the
    target of exactly one tree-edge event, fired on an out-edge of its
    parent [u], and its number is the number of [u] plus one; the number of
    every reachable vertex is the least number of edges of a path from [s];
    and a vertex that is not reachable keeps the initial 0 and is the
    target of no event. *)
Theorem bacon_numbers_are_hop_distances (g : Graph) (s : Vertex) :
  wf_graph g -> (s < num_vertices g)%nat -> Z.of_nat (num_vertices g) <= 2 ^ 31 ->
  let st := bacon_search g s in
  queue st = [] /\
  (forall v, reachable g s v -> v <> s ->
     exists e du, events_into v st = [e] /\
       In e (out_edges (m_source e) g) /\ m_target e = v /\
       bacon_number st !! m_source e = Some du /\
       bacon_number st !! v = Some (du + 1)) /\
  (forall v, reachable g s v ->
     exists k, shortest g s v k /\ bacon_number st !! v = Some (Z.of_nat k)) /\
  events_into s st = [] /\
  (forall v, (v < num_vertices g)%nat -> ~ reachable g s v ->
     bacon_number st !! v = Some 0 /\ events_into v st = []).
Proof.
  intros Hwf Hs Hmax st.
  destruct (bacon_search_inv g s Hwf Hs Hmax) as [Hinv HQ]. fold st in Hinv, HQ.
  pose proof (discovered_iff_reachable g s _ st Hinv HQ) as Hreach.
  split; [done|]. split; [|split; [|split]].
  - intros v Hv Hne. apply Hreach in Hv.
    destruct (filter_target_unique (tree_edges st) v) as (e & He1 & He2 & He3).
    { apply (inv_events_nodup _ _ _ _ _ _ Hinv). }
    { by apply (inv_events_all _ _ _ _ _ _ Hinv). }
    destruct (inv_events _ _ _ _ _ _ Hinv e He2) as (H1 & _ & _ & _ & k & H5 & H6).
    exists e, (Z.of_nat k). split; [done|]. split; [done|]. split; [done|].
    split; [done|]. rewrite <- He3. unfold labelled in H6. rewrite H6. f_equal. lia.
  - intros v Hv. apply Hreach in Hv.
    destruct (inv_short _ _ _ _ _ _ Hinv v Hv) as (k & Hk1 & Hk2 & _). by exists k.
  - apply filter_target_none. intros Hin. apply in_map_iff in Hin as (e & He1 & He2).
    by destruct (inv_events _ _ _ _ _ _ Hinv e He2) as (_ & _ & _ & H & _).
  - intros v Hv Hnot. rewrite <- Hreach in Hnot. split.
    + rewrite (inv_untouched _ _ _ _ _ _ Hinv v Hnot). by apply lookup_replicate_2.
    + apply filter_target_none. intros Hin. apply in_map_iff in Hin as (e & He1 & He2).
      destruct (inv_events _ _ _ _ _ _ Hinv e He2) as (_ & _ & H & _).
      apply Hnot. by rewrite <- He1.
Qed.


Lemma bacon_numbers_are_hop_distances_witness :
  let b := build [mk_record "Kevin Bacon" "M1" "A"; mk_record "B" "M2" "C";
                  mk_record "A" "M3" "D"] in
  queue (bacon_search (b_graph b) (kevin_bacon b)) = [] /\
  bacon_number (bacon_search (b_graph b) (kevin_bacon b)) = [0; 1; 0; 0; 2].
Proof.
  intros b.
  assert (Hwf : wf_graph (b_graph b)) by apply BuilderFacts.build_wf.
  assert (Hs : (kevin_bacon b < num_vertices (b_graph b))%nat) by (vm_compute; lia).
  assert (Hmax : Z.of_nat (num_vertices (b_graph b)) <= 2 ^ 31) by (vm_compute; discriminate).
  destruct (bacon_numbers_are_hop_distances (b_graph b) (kevin_bacon b) Hwf Hs Hmax)
    as (HQ & _).
  split; [exact HQ|reflexivity].
Defined.

(** ** Further properties of the Bacon numbers *)

(** The number found at a vertex when the search has ended. *)
Lemma bacon_number_cases g s :
  wf_graph g -> (s < num_vertices g)%nat -> Z.of_nat (num_vertices g) <= 2 ^ 31 ->
  forall v, (v < num_vertices g)%nat ->
  exists k : nat,
    bacon_number (bacon_search g s) !! v = Some (Z.of_nat k) /\
    (k < num_vertices g)%nat /\
    (shortest g s v k \/ (~ reachable g s v /\ k = 0%nat)).
Proof.
  intros Hwf Hs Hmax v Hv.
  destruct (bacon_search_inv g s Hwf Hs Hmax) as [Hinv HQ].
  pose proof (discovered_iff_reachable g s _ _ Hinv HQ) as Hreach.
  destruct (decide (v ∈ discovered (bacon_search g s))) as [Hd|Hd].
  - destruct (inv_short _ _ _ _ _ _ Hinv v Hd) as (k & Hk1 & Hk2 & Hk3).
    exists k. split; [done|]. split; [|by left].
    pose proof (discovered_size g _ (inv_range _ _ _ _ _ _ Hinv)). lia.
  - exists 0%nat. split; [|split; [lia|]].
    + rewrite (inv_untouched _ _ _ _ _ _ Hinv v Hd). by apply lookup_replicate_2.
    + right. split; [|done]. by rewrite <- Hreach.
Qed.

(** X12: Every Bacon number is at least 0 and below the number of vertices, the
    array keeps one slot per vertex, and the source has number 0: with at
    most [2^31] vertices the addition in [tree_edge] never overflows. *)
Theorem bacon_numbers_are_below_the_number_of_vertices (g : Graph) (s : Vertex) :
  wf_graph g -> (s < num_vertices g)%nat -> Z.of_nat (num_vertices g) <= 2 ^ 31 ->
  let st := bacon_search g s in
  length (bacon_number st) = num_vertices g /\
  bacon_number st !! s = Some 0 /\
  forall v x, bacon_number st !! v = Some x -> 0 <= x < Z.of_nat (num_vertices g).
Proof.
  intros Hwf Hs Hmax st.
  destruct (bacon_search_inv g s Hwf Hs Hmax) as [Hinv HQ]. fold st in Hinv, HQ.
  pose proof (inv_len _ _ _ _ _ _ Hinv) as Hlen.
  split; [done|]. split.
  - destruct (bacon_number_cases g s Hwf Hs Hmax s Hs) as (k & Hk & _ & [[_ Hmin]|[_ ->]]);
      fold st in Hk; [|done].
    assert (k = 0%nat) as -> by (specialize (Hmin 0%nat (walk_here g s)); lia). done.
  - intros v x Hx. assert (Hv : (v < num_vertices g)%nat).
    { rewrite <- Hlen. by eapply lookup_lt_Some. }
    destruct (bacon_number_cases g s Hwf Hs Hmax v Hv) as (k & Hk & Hlt & _).
    fold st in Hk. rewrite Hk in Hx. injection Hx as <-. lia.
Qed.

Lemma bacon_numbers_are_below_the_number_of_vertices_witness :
  let b := build [mk_record "Kevin Bacon" "M1" "A"; mk_record "A" "M2" "B"] in
  bacon_number (bacon_search (b_graph b) (kevin_bacon b)) !! 0%nat = Some 0.
Proof.
  intros b.
  assert (Hwf : wf_graph (b_graph b)) by apply BuilderFacts.build_wf.
  assert (Hs : (kevin_bacon b < num_vertices (b_graph b))%nat) by (vm_compute; lia).
  assert (Hmax : Z.of_nat (num_vertices (b_graph b)) <= 2 ^ 31) by (vm_compute; discriminate).
  destruct (bacon_numbers_are_below_the_number_of_vertices
              (b_graph b) (kevin_bacon b) Hwf Hs Hmax) as (_ & H & _).
  exact H.
Defined.

Lemma built_names_bound rs a :
  a ∈ names_of rs ->
  exists u, actors (build rs) !! a = Some u /\ vertex_of (build rs) a = u /\
            (u < num_vertices (b_graph (build rs)))%nat.
Proof.
  intros Ha.
  destruct (BuilderFacts.build_from_spec rs empty_builder BuilderFacts.empty_builder_inv)
    as (Hinv & _ & Hdom & _).
  change (build_from empty_builder rs) with (build rs) in *.
  change (dom (actors empty_builder)) with (dom (∅ : gmap string nat)) in Hdom.
  rewrite dom_empty_L, union_empty_r_L in Hdom.
  rewrite <- Hdom in Ha. apply elem_of_dom in Ha as [u Hu].
  exists u. split; [done|]. split; [unfold vertex_of; by rewrite Hu|].
  by eapply BuilderFacts.bound_vertex_lt.
Qed.

Lemma record_names rs r :
  In r rs -> r_actor r ∈ names_of rs /\ r_coactor r ∈ names_of rs.
Proof.
  intros Hr. unfold names_of. rewrite !elem_of_list_to_set.
  split; apply list_elem_of_In, in_flat_map; exists r; simpl; auto.
Qed.

Lemma kevin_bacon_is_a_vertex rs r :
  In r rs -> (kevin_bacon (build rs) < num_vertices (b_graph (build rs)))%nat.
Proof.
  intros Hr. unfold kevin_bacon.
  destruct (BuilderFacts.build_from_spec rs empty_builder BuilderFacts.empty_builder_inv)
    as (Hinv & _).
  change (build_from empty_builder rs) with (build rs) in *.
  destruct (actors (build rs) !! "Kevin Bacon"%string) as [u|] eqn:Hkb; simpl.
  - by eapply BuilderFacts.bound_vertex_lt.
  - destruct (record_names rs r Hr) as [Ha _].
    destruct (built_names_bound rs _ Ha) as (u & _ & _ & Hu). lia.
Qed.

(** X13: Two actors of the same record have Bacon numbers that differ by at
    most one, whatever the data file: either both are out of reach of the
    source and keep 0, or each is within one step of the other. *)
Theorem co_stars_differ_by_at_most_one (rs : list record) (r : record) :
  let b := build rs in
  let g := b_graph b in
  let st := bacon_search g (kevin_bacon b) in
  Z.of_nat (num_vertices g) <= 2 ^ 31 -> In r rs ->
  exists du dv,
    bacon_number st !! vertex_of b (r_actor r) = Some du /\
    bacon_number st !! vertex_of b (r_coactor r) = Some dv /\
    -1 <= du - dv <= 1.
Proof.
  intros b g st Hmax Hr. subst b g st.
  set (b := build rs) in *. set (g := b_graph b) in *.
  assert (Hwf : wf_graph g) by apply BuilderFacts.build_wf.
  pose proof (kevin_bacon_is_a_vertex rs r Hr) as Hs. fold b g in Hs.
  destruct (record_names rs r Hr) as [Ha Hc].
  destruct (built_names_bound rs _ Ha) as (u & _ & Hu & Hult).
  destruct (built_names_bound rs _ Hc) as (v & _ & Hv & Hvlt).
  fold b g in Hu, Hv, Hult, Hvlt. rewrite Hu, Hv.
  apply list_elem_of_In, list_elem_of_lookup in Hr as [i Hi].
  pose proof (BuilderFacts.record_edge_stored rs i r Hi) as Hst.
  fold b g in Hst. rewrite Hu, Hv in Hst.
  pose proof (BuilderFacts.build_incidence rs) as Hok. fold b g in Hok.
  destruct Hok as (Hlisted & _).
  destruct (Hlisted _ _ _ Hst) as (lu & lv & Hlu & Hinu & Hlv & Hinv).
  assert (Huv : In (mk_edge u v i) (out_edges u g))
    by (apply BuilderFacts.out_edges_In_iff; eauto).
  assert (Hvu : In (mk_edge v u i) (out_edges v g))
    by (apply BuilderFacts.out_edges_In_iff; eauto).
  assert (Hstep_uv : forall k, walk g (kevin_bacon b) k u -> walk g (kevin_bacon b) (S k) v).
  { intros k Hk. by apply (walk_edge g _ k u (mk_edge u v i)). }
  assert (Hstep_vu : forall k, walk g (kevin_bacon b) k v -> walk g (kevin_bacon b) (S k) u).
  { intros k Hk. by apply (walk_edge g _ k v (mk_edge v u i)). }
  destruct (bacon_number_cases g _ Hwf Hs Hmax u Hult) as (ku & Hku & _ & Hcu).
  destruct (bacon_number_cases g _ Hwf Hs Hmax v Hvlt) as (kv & Hkv & _ & Hcv).
  exists (Z.of_nat ku), (Z.of_nat kv). split; [done|]. split; [done|].
  destruct Hcu as [[Hwu Hminu]|[Hnu ->]], Hcv as [[Hwv Hminv]|[Hnv ->]].
  - specialize (Hminu _ (Hstep_vu _ Hwv)). specialize (Hminv _ (Hstep_uv _ Hwu)). lia.
  - exfalso. apply Hnv. exists (S ku). by apply Hstep_uv.
  - exfalso. apply Hnu. exists (S kv). by apply Hstep_vu.
  - lia.
Qed.

Lemma co_stars_differ_by_at_most_one_witness :
  let rs := [mk_record "Kevin Bacon" "M1" "A"; mk_record "A" "M2" "B"] in
  let b := build rs in
  exists du dv,
    bacon_number (bacon_search (b_graph b) (kevin_bacon b)) !! vertex_of b "A" = Some du /\
    bacon_number (bacon_search (b_graph b) (kevin_bacon b)) !! vertex_of b "B" = Some dv /\
    -1 <= du - dv <= 1.
Proof.
  intros rs b.
  apply (co_stars_differ_by_at_most_one rs (mk_record "A" "M2" "B")).
  - vm_compute. discriminate.
  - right. left. reflexivity.
Defined.

(** X14: Without a record that names "Kevin Bacon", [actors["Kevin Bacon"]]
    yields vertex 0, the vertex of the actor named first in the data file:
    that actor is the source of the search, and the numbers found are
    distances from that actor. *)
Theorem search_starts_at_the_first_actor_without_kevin_bacon
    (r : record) (rs : list record) :
  let b := build (r :: rs) in
  let g := b_graph b in
  let st := bacon_search g (kevin_bacon b) in
  "Kevin Bacon"%string ∉ names_of (r :: rs) ->
  Z.of_nat (num_vertices g) <= 2 ^ 31 ->
  kevin_bacon b = 0%nat /\
  actor_name g !! 0%nat = Some (r_actor r) /\
  vertex_of b (r_actor r) = 0%nat /\
  forall v, (v < num_vertices g)%nat ->
    exists k : nat, bacon_number st !! v = Some (Z.of_nat k) /\
      (shortest g 0%nat v k \/ (~ reachable g 0%nat v /\ k = 0%nat)).
Proof.
  intros b g st Hkb Hmax. subst st.
  destruct (BuilderFacts.build_from_spec (r :: rs) empty_builder BuilderFacts.empty_builder_inv)
    as (Hinv & _ & Hdom & _).
  change (build_from empty_builder (r :: rs)) with b in *.
  change (dom (actors empty_builder)) with (dom (∅ : gmap string nat)) in Hdom.
  rewrite dom_empty_L, union_empty_r_L in Hdom.
  assert (H0 : kevin_bacon b = 0%nat).
  { unfold kevin_bacon. rewrite <- Hdom in Hkb. apply not_elem_of_dom in Hkb.
    by rewrite Hkb. }
  assert (Hname : actor_name g !! 0%nat = Some (r_actor r)).
  { pose proof (BuilderFacts.build_from_names (r :: rs) empty_builder
                  BuilderFacts.empty_builder_inv) as Hnames.
    change (build_from empty_builder (r :: rs)) with b in Hnames.
    subst g. rewrite Hnames.
    change (actor_name (b_graph empty_builder)) with (@nil string).
    change (names_in_order (r :: rs))
      with (r_actor r :: r_coactor r :: names_in_order rs).
    change (fold_left append_new (r_actor r :: r_coactor r :: names_in_order rs) [])
      with (fold_left append_new (r_coactor r :: names_in_order rs) [r_actor r]).
    eapply prefix_lookup_Some; [|apply BuilderFacts.append_new_prefix]. done. }
  split; [done|]. split; [done|]. split.
  - apply (binv_names _ Hinv) in Hname. unfold vertex_of. by rewrite Hname.
  - rewrite H0. intros v Hv.
    assert (Hs : (0 < num_vertices g)%nat) by lia.
    destruct (bacon_number_cases g 0%nat (BuilderFacts.builder_inv_wf _ Hinv) Hs Hmax v Hv)
      as (k & Hk & _ & Hc).
    by exists k.
Qed.

Lemma search_starts_at_the_first_actor_without_kevin_bacon_witness :
  let b := build [mk_record "A" "M1" "B"; mk_record "B" "M2" "C"] in
  kevin_bacon b = 0%nat /\ actor_name (b_graph b) !! 0%nat = Some "A"%string.
Proof.
  intros b.
  destruct (search_starts_at_the_first_actor_without_kevin_bacon
              (mk_record "A" "M1" "B") [mk_record "B" "M2" "C"]) as (H1 & H2 & _).
  - unfold names_of. intros H. apply elem_of_list_to_set in H. simpl in H.
    repeat (apply elem_of_cons in H as [H|H]; [discriminate|]).
    by apply elem_of_nil in H.
  - vm_compute. discriminate.
  - split; [exact H1|exact H2].
Defined.

End BaconFacts.

Module FileDepsFacts.
Import FileDeps.

Lemma time_step_none gr i order : fold_left (time_step gr i) order None = None.
Proof. induction order as [|v order IH]; [done|]. cbn [fold_left]. exact IH. Qed.

(** With the singular iterator, the first vertex that has an in-edge ends
    the computation. *)
Lemma parallel_times_singular gr order acc v :
  In v order -> (0 < in_degree v gr)%nat ->
  fold_left (time_step gr singular) order acc = None.
Proof.
  revert acc. induction order as [|x order IH]; intros acc Hin Hdeg; [destruct Hin|].
  cbn [fold_left]. destruct Hin as [->|Hin]; [|by eapply IH].
  assert (time_step gr singular acc v = None) as ->; [|apply time_step_none].
  unfold time_step. destruct acc as [time|]; [|done]. simpl.
  destruct (Nat.ltb_spec 0 (in_degree v gr)); [|lia].
  by destruct (max_in_time gr time v).
Qed.

(** Whatever element the iterator designates, its slot is the only one the
    loop can change. *)
Lemma parallel_times_other_slots gr k order : forall time time',
  fold_left (time_step gr (at_element k)) order (Some time) = Some time' ->
  forall j, j <> k -> time' !! j = time !! j.
Proof.
  induction order as [|v order IH]; intros time time' H j Hj.
  - simpl in H. by injection H as <-.
  - cbn [fold_left] in H.
    destruct (time_step gr (at_element k) (Some time) v) as [time1|] eqn:Hstep.
    + rewrite (IH time1 time' H j Hj). unfold time_step in Hstep. simpl in Hstep.
      destruct (0 <? in_degree v gr)%nat; [|by injection Hstep as <-].
      destruct (max_in_time gr time v) as [m|]; [|done]. simpl in Hstep.
      destruct (k <? length time)%nat; [|done]. injection Hstep as <-.
      by rewrite list_lookup_insert_ne.
    + by rewrite time_step_none in H.
Qed.

(** The spec's wording, which writes the slot of the vertex, computes the
    time slots of the claim on this graph for the documented order; they
    increase strictly along every edge and are 0 at the vertices without
    in-edges. *)
Lemma level_schedule_documented_order :
  is_topological_order g documented_make_order = true /\
  level_schedule g documented_make_order = Some expected_time /\
  forallb (fun e => default 0 (expected_time !! fst e) <? default 0 (expected_time !! snd e))
          (m_edges g) = true /\
  forallb (fun v => negb (Nat.eqb (in_degree v g) 0) || (default 1 (expected_time !! v) =? 0))
          (seq 0 N) = true.
Proof. vm_compute. done. Qed.

(** C2 (evaluation of the code): for every order that lists a vertex with an
    in-edge - every order of all the vertices does - the loop of [main],
    whose iterator [i] is singular, has no defined result; and whatever
    element [i] might designate, the result is not the time slots of the
    claim, since a single slot is ever written. *)
Theorem parallel_times_not_by_vertex (i : list_iterator) (make_order : list nat) :
  In killerapp make_order ->
  parallel_times g i_of_main make_order = None /\
  parallel_times g i make_order <> Some expected_time.
Proof.
  intros Hin. split.
  - apply (parallel_times_singular g make_order _ killerapp Hin). vm_compute. lia.
  - destruct i as [|k].
    + unfold parallel_times.
      rewrite (parallel_times_singular g make_order _ killerapp Hin); [done|]. vm_compute. lia.
    + intros H. unfold parallel_times in H.
      pose proof (parallel_times_other_slots g k make_order _ _ H) as Hslots.
      destruct (decide (k = killerapp)) as [->|Hne].
      * specialize (Hslots libzigzag_a ltac:(done)). vm_compute in Hslots. done.
      * specialize (Hslots killerapp ltac:(done)). vm_compute in Hslots. done.
Qed.

Lemma parallel_times_not_by_vertex_witness :
  parallel_times g i_of_main documented_make_order = None.
Proof.
  refine (proj1 (parallel_times_not_by_vertex singular documented_make_order _)).
  unfold documented_make_order. do 14 right. left. reflexivity.
Defined.

(** ** Further properties of the time slot loop *)

Lemma max_fold_none gr (time : list Z) l :
  fold_left
    (fun acc e => maxdist ← acc; t ← time !! source e gr; Some (Z.max t maxdist))
    l None = None.
Proof. by induction l. Qed.

Lemma max_fold_spec gr (time : list Z) l : forall a,
  (forall e, In e l -> (source e gr < length time)%nat) ->
  exists m,
    fold_left
      (fun acc e => maxdist ← acc; t ← time !! source e gr; Some (Z.max t maxdist))
      l (Some a) = Some m /\
    a <= m /\
    (forall e t, In e l -> time !! source e gr = Some t -> t <= m) /\
    (m = a \/ exists e, In e l /\ time !! source e gr = Some m).
Proof.
  induction l as [|e l IH]; intros a Hin.
  - exists a. simpl. split; [done|]. split; [lia|]. split; [intros ? ? []|by left].
  - destruct (lookup_lt_is_Some_2 time (source e gr)) as [t Ht]; [apply Hin; by left|].
    destruct (IH (Z.max t a)) as (m & Hm & Hle & Hall & Hatt).
    { intros e' He'. apply Hin. by right. }
    exists m. cbn [fold_left]. simpl. rewrite Ht. simpl.
    split; [done|]. split; [lia|]. split.
    + intros e' t' [<-|He'] Ht'; [|by eapply Hall]. rewrite Ht in Ht'. injection Ht' as <-. lia.
    + destruct Hatt as [->|(e' & He' & Hm')].
      * destruct (Z.max_spec t a) as [[_ ->]|[_ ->]]; [by left|].
        right. exists e. split; [by left|done].
      * right. exists e'. split; [by right|done].
Qed.

(** X15: The inner loop: when the sources of the in-edges of [vertex] are within
    the vector, [maxdist] ends as the largest time among them, and as 0 when
    none is above 0 or when there is no in-edge; a source outside the
    vector is an access out of bounds. *)
Theorem max_in_time_is_the_largest_source_time
    (gr : Graph) (time : list Z) (vertex : nat) :
  ((forall e, In e (in_edges vertex gr) -> (source e gr < length time)%nat) ->
   exists m, max_in_time gr time vertex = Some m /\ 0 <= m /\
     (forall e t, In e (in_edges vertex gr) -> time !! source e gr = Some t -> t <= m) /\
     (m = 0 \/ exists e, In e (in_edges vertex gr) /\ time !! source e gr = Some m)) /\
  ((exists e, In e (in_edges vertex gr) /\ (length time <= source e gr)%nat) ->
   max_in_time gr time vertex = None).
Proof.
  split.
  - intros Hin. by apply max_fold_spec.
  - intros (e & He & Hout). unfold max_in_time.
    generalize (Some 0). induction (in_edges vertex gr) as [|x l IH]; intros acc; [destruct He|].
    cbn [fold_left]. destruct He as [->|He]; [|by apply IH].
    rewrite (lookup_ge_None_2 time (source e gr)) by done.
    destruct acc; simpl; apply max_fold_none.
Qed.

Lemma max_in_time_is_the_largest_source_time_witness :
  max_in_time g [0; 1; 0; 0; 1; 2; 2; 3; 4; 1; 2; 2; 3; 0; 0] libzigzag_a = Some 4.
Proof.
  destruct (max_in_time_is_the_largest_source_time
              g [0; 1; 0; 0; 1; 2; 2; 3; 4; 1; 2; 2; 3; 0; 0] libzigzag_a) as [H _].
  destruct H as (m & Hm & _ & Hall & Hatt).
  - intros e He. vm_compute in He.
    repeat (destruct He as [<-|He]; [vm_compute; lia|]). destruct He.
  - rewrite Hm. f_equal.
    assert (4 <= m) by (apply (Hall (libfoobar_a, libzigzag_a)); [vm_compute; tauto|done]).
    destruct Hatt as [->|(e & He & Ht)]; [lia|].
    vm_compute in He.
    repeat (destruct He as [<-|He]; [vm_compute in Ht; injection Ht as <-; lia|]).
    destruct He.
Defined.

Lemma time_step_length gr i time v time' :
  time_step gr i (Some time) v = Some time' -> length time' = length time.
Proof.
  unfold time_step. simpl. destruct (0 <? in_degree v gr)%nat; [|by intros [= <-]].
  destruct (max_in_time gr time v); [|done]. simpl.
  destruct (deref i); [|done]. simpl.
  destruct (_ <? _)%nat; [|done]. intros [= <-]. apply length_insert.
Qed.

Lemma parallel_times_length gr i order : forall time time',
  fold_left (time_step gr i) order (Some time) = Some time' -> length time' = length time.
Proof.
  induction order as [|v order IH]; intros time time' H.
  - simpl in H. by injection H as <-.
  - cbn [fold_left] in H.
    destruct (time_step gr i (Some time) v) as [time1|] eqn:Hstep.
    + rewrite (IH _ _ H). by eapply time_step_length.
    + by rewrite time_step_none in H.
Qed.

Lemma parallel_times_untouched gr i order : forall time time',
  fold_left (time_step gr i) order (Some time) = Some time' ->
  forall j, deref i <> Some j -> time' !! j = time !! j.
Proof.
  induction order as [|v order IH]; intros time time' H j Hj.
  - simpl in H. by injection H as <-.
  - cbn [fold_left] in H.
    destruct (time_step gr i (Some time) v) as [time1|] eqn:Hstep.
    + rewrite (IH time1 time' H j Hj). unfold time_step in Hstep. simpl in Hstep.
      destruct (0 <? in_degree v gr)%nat; [|by injection Hstep as <-].
      destruct (max_in_time gr time v) as [m|]; [|done]. simpl in Hstep.
      destruct (deref i) as [k|]; [|done]. simpl in Hstep.
      destruct (k <? length time)%nat; [|done]. injection Hstep as <-.
      rewrite list_lookup_insert_ne; [done|congruence].
    + by rewrite time_step_none in H.
Qed.

Lemma parallel_times_no_in_edges gr i order : forall time,
  (forall v, In v order -> in_degree v gr = 0%nat) ->
  fold_left (time_step gr i) order (Some time) = Some time.
Proof.
  induction order as [|v order IH]; intros time Hnone; [done|].
  cbn [fold_left]. unfold time_step at 2. simpl.
  rewrite (Hnone v) by (by left). simpl.
  apply IH. intros w Hw. apply Hnone. by right.
Qed.

(** X16: The loop writes [time[*i]] only.  An order without a vertex that
    has an in-edge writes nothing, also with the iterator that [main]
    declares and never assigns: the vector still holds [N] zeros.  With
    that iterator, an order that lists a vertex with an in-edge has no
    defined result.  Whatever the iterator, a run with a result keeps the
    [N] slots, and every slot other than the one the iterator designates
    still holds the initial 0. *)
Theorem parallel_times_writes_one_slot
    (gr : Graph) (i : list_iterator) (make_order : list nat) :
  ((forall v, In v make_order -> in_degree v gr = 0%nat) ->
     parallel_times gr i make_order = Some (replicate N 0)) /\
  ((exists v, In v make_order /\ (0 < in_degree v gr)%nat) ->
     parallel_times gr i_of_main make_order = None) /\
  (forall time, parallel_times gr i make_order = Some time ->
     length time = N /\
     forall j, (j < N)%nat -> deref i <> Some j -> time !! j = Some 0).
Proof.
  split; [|split].
  - intros Hnone. by apply parallel_times_no_in_edges.
  - intros (v & Hin & Hdeg). by apply (parallel_times_singular gr make_order _ v).
  - intros time H. unfold parallel_times in H. split.
    + rewrite (parallel_times_length _ _ _ _ _ H). apply length_replicate.
    + intros j Hj Hne. rewrite (parallel_times_untouched _ _ _ _ _ H j Hne).
      by apply lookup_replicate_2.
Qed.

Lemma parallel_times_writes_one_slot_witness :
  parallel_times g i_of_main [dax_h; boz_h; zow_h] = Some (replicate N 0) /\
  parallel_times g i_of_main documented_make_order = None /\
  exists time, parallel_times g (at_element killerapp) documented_make_order = Some time /\
               time !! libzigzag_a = Some 0.
Proof.
  split; [|split].
  - apply (proj1 (parallel_times_writes_one_slot g i_of_main [dax_h; boz_h; zow_h])).
    intros v Hv. repeat (destruct Hv as [<-|Hv]; [reflexivity|]). destruct Hv.
  - apply (proj1 (proj2 (parallel_times_writes_one_slot g i_of_main documented_make_order))).
    exists killerapp. split; [|vm_compute; lia].
    unfold documented_make_order. do 14 right. left. reflexivity.
  - eexists. split; [reflexivity|].
    apply (proj2 (proj2 (parallel_times_writes_one_slot g (at_element killerapp)
                           documented_make_order)));
      [reflexivity|vm_compute; lia|discriminate].
Defined.

(** ** The depth first searches *)

Lemma finished_snoc evs ev :
  finished (evs ++ [ev]) =
  finished evs ++ match ev with finish_vertex u => [u] | _ => [] end.
Proof. unfold finished. rewrite omap_app. by destruct ev. Qed.

Lemma finished_snoc_other evs ev :
  (forall u, ev <> finish_vertex u) -> finished (evs ++ [ev]) = finished evs.
Proof.
  intros Hev. rewrite finished_snoc. destruct ev; rewrite ?app_nil_r; try done.
  by destruct (Hev u).
Qed.

Lemma back_edge_snoc evs ev e :
  back_edge e ∈ evs ++ [ev] <-> back_edge e ∈ evs \/ ev = back_edge e.
Proof.
  rewrite elem_of_app, list_elem_of_singleton. split.
  - intros [H|H]; [by left|by right].
  - intros [H|H]; [by left|by right].
Qed.

Lemma no_back_prefix evs evs' : evs `prefix_of` evs' -> no_back evs' -> no_back evs.
Proof.
  intros [k ->] Hno e He. apply (Hno e). apply elem_of_app. by left.
Qed.

Lemma cycle_detector_fold evs : forall b,
  fold_left cycle_detector evs b = true <-> b = true \/ exists e, back_edge e ∈ evs.
Proof.
  induction evs as [|ev evs IH]; intros b.
  - simpl. split; [by left|]. intros [H|[e He]]; [done|]. by apply elem_of_nil in He.
  - cbn [fold_left]. rewrite IH. split.
    + intros [Hb|[e He]].
      * destruct ev; simpl in Hb; try (by left).
        right. eexists. by left.
      * right. exists e. by right.
    + intros [->|[e He]].
      * left. by destruct ev.
      * apply elem_of_cons in He as [<-|He]; [by left|]. right. by exists e.
Qed.

Lemma topo_fold_not_a_dag evs : fold_left topo_sort_visitor evs not_a_dag = not_a_dag.
Proof. by induction evs. Qed.

Lemma topo_fold_back evs : forall acc,
  (exists e, back_edge e ∈ evs) -> fold_left topo_sort_visitor evs acc = not_a_dag.
Proof.
  induction evs as [|ev evs IH]; intros acc [e He]; [by apply elem_of_nil in He|].
  cbn [fold_left]. apply elem_of_cons in He as [<-|He].
  - destruct acc; simpl; apply topo_fold_not_a_dag.
  - apply IH. by exists e.
Qed.

Lemma topo_fold_no_back evs : forall l,
  no_back evs ->
  fold_left topo_sort_visitor evs (sorted l) = sorted (reverse (finished evs) ++ l).
Proof.
  induction evs as [|ev evs IH]; intros l Hno; [done|].
  assert (Hno' : no_back evs) by (intros e He; apply (Hno e); by right).
  cbn [fold_left]. destruct ev; simpl; rewrite ?IH by done; try done.
  - exfalso. apply (Hno e). by left.
  - unfold finished. simpl. fold (finished evs).
    by rewrite reverse_cons, <- app_assoc.
Qed.

Section DepthFirst.

Local Open Scope nat_scope.

Variable gr : Graph.
Hypothesis Hwf : wf_graph gr.

Lemma dfs_ok_log st ev :
  dfs_ok gr st -> (forall u, ev <> finish_vertex u) ->
  (forall e, ev = back_edge e -> cyclic gr) ->
  dfs_ok gr (log ev st).
Proof.
  intros [Hrange Hstack Hfin Hnodup Hback Hclosed] Hev Hcyc.
  constructor; cbn [log visited stack events];
    rewrite ?finished_snoc_other by done; try done.
  - intros [e He]. apply back_edge_snoc in He as [He|He]; [|by eapply Hcyc].
    apply Hback. by exists e.
  - intros Hno. apply Hclosed. eapply no_back_prefix; [|done]. by apply prefix_app_r.
Qed.

Lemma visited_size_fresh st u :
  dfs_ok gr st -> u < num_vertices gr -> u ∉ visited st ->
  size ({[u]} ∪ visited st) = S (size (visited st)) /\
  S (size (visited st)) <= num_vertices gr.
Proof.
  intros Hok Hu Hnot.
  assert (Hs : size ({[u]} ∪ visited st) = S (size (visited st))).
  { rewrite size_union by set_solver. by rewrite size_singleton. }
  split; [done|]. rewrite <- Hs.
  rewrite <- (size_set_seq (C := gset nat) 0 (num_vertices gr)).
  apply subseteq_size. intros v Hv. apply elem_of_set_seq. split; [lia|].
  apply elem_of_union in Hv as [Hv|Hv].
  - apply elem_of_singleton in Hv. by subst.
  - by apply (ok_range _ _ Hok).
Qed.

Lemma examine_edges rec budget u l :
  visit_spec gr rec budget ->
  (forall e, In e l -> arc gr u (snd e)) ->
  forall st,
    dfs_ok gr st ->
    (forall x, x ∈ stack st -> rtc (arc gr) x u) ->
    num_vertices gr <= size (visited st) + budget ->
    exists st', fold_left (examine gr rec) l (Some st) = Some st' /\
                dfs_ok gr st' /\ stack st' = stack st /\
                visited st ⊆ visited st' /\ events st `prefix_of` events st' /\
                forall e, In e l ->
                  snd e ∈ visited st' /\
                  (snd e ∈ stack st -> exists e', back_edge e' ∈ events st').
Proof.
  intros Hrec. induction l as [|e l IH]; intros Harc st Hok Hreach Hfuel.
  - exists st. simpl. split; [done|]. split; [done|]. split; [done|].
    split; [done|]. split; [done|]. intros e [].
  - assert (Harc' : forall e', In e' l -> arc gr u (snd e'))
      by (intros e' He'; apply Harc; by right).
    assert (Hue : arc gr u (snd e)) by (apply Harc; by left).
    cbn [fold_left]. unfold examine at 2. unfold target.
    destruct (decide (snd e ∈ visited st)) as [Hvis|Hvis].
    + set (st1 := if decide (snd e ∈ stack st) then log (back_edge e) st
                  else log (forward_or_cross_edge e) st).
      assert (Hst1 : (if decide (snd e ∈ stack st) then Some (log (back_edge e) st)
                      else Some (log (forward_or_cross_edge e) st)) = Some st1)
        by (subst st1; by case_decide).
      rewrite Hst1.
      assert (Hok1 : dfs_ok gr st1).
      { subst st1. case_decide as Hin; apply dfs_ok_log; try done.
        intros e' _. exists (snd e). eapply tc_rtc_l; [by apply Hreach|].
        by apply tc_once. }
      assert (Hsame : stack st1 = stack st /\ visited st1 = visited st /\
                      events st `prefix_of` events st1 /\
                      (snd e ∈ stack st -> back_edge e ∈ events st1)).
      { subst st1. case_decide; cbn [log visited stack events];
          (split; [done|]); (split; [done|]); (split; [by apply prefix_app_r|]);
          [intros _; apply elem_of_app; right; by left|done]. }
      destruct Hsame as (Hs1 & Hv1 & Hp1 & Hb1).
      destruct (IH Harc' st1 Hok1) as (st' & Hfold & Hok' & Hs' & Hv' & Hp' & Hall).
      { rewrite Hs1. exact Hreach. }
      { rewrite Hv1. exact Hfuel. }
      exists st'. split; [done|]. split; [done|]. split; [by rewrite Hs', Hs1|].
      split; [by rewrite <- Hv1|]. split; [by etrans|].
      intros e' [<-|He'].
      * split; [apply Hv'; by rewrite Hv1|].
        intros Hin. exists e. destruct Hp' as [k ->]. apply elem_of_app. left. by apply Hb1.
      * rewrite <- Hs1. by apply Hall.
    + assert (Hnst : snd e ∉ stack st) by (intros Hin; by apply Hvis, (ok_stack _ _ Hok)).
      destruct (Hrec (snd e) (log (tree_edge e) st))
        as (st1 & Hcall & Hok1 & Hs1 & Hv1 & Hin1 & Hp1).
      { by apply dfs_ok_log. }
      { apply (Hwf (u, snd e) Hue). }
      { done. }
      { intros x Hx. eapply tc_rtc_l; [by apply Hreach|]. by apply tc_once. }
      { done. }
      rewrite Hcall. cbn [log visited stack events] in Hs1, Hv1, Hp1.
      destruct (IH Harc' st1 Hok1) as (st' & Hfold & Hok' & Hs' & Hv' & Hp' & Hall).
      { rewrite Hs1. exact Hreach. }
      { pose proof (subseteq_size _ _ Hv1). lia. }
      exists st'. split; [done|]. split; [done|]. split; [by rewrite Hs', Hs1|].
      split; [by etrans|]. split.
      { etrans; [|exact Hp']. etrans; [|exact Hp1]. by apply prefix_app_r. }
      intros e' [<-|He'].
      * split; [by apply Hv'|]. intros Hin. by destruct Hnst.
      * rewrite <- Hs1. by apply Hall.
Qed.

Lemma out_edges_arc u e : In e (out_edges u gr) <-> arc gr u (snd e) /\ fst e = u.
Proof.
  unfold out_edges, arc. rewrite filter_In, Nat.eqb_eq. destruct e as [a b]. simpl.
  split; [by intros [H ->]|by intros [H <-]].
Qed.

Lemma dfs_visit_spec fuel : visit_spec gr (dfs_visit gr fuel) fuel.
Proof.
  induction fuel as [|fuel IH]; intros u st Hok Hu Hnot Hreach Hfuel.
  - destruct (visited_size_fresh st u Hok Hu Hnot) as [_ Hlt]. lia.
  - destruct (visited_size_fresh st u Hok Hu Hnot) as [Hsize Hlt].
    set (st1 := {| visited := {[u]} ∪ visited st; stack := u :: stack st;
                   events := events st ++ [discover_vertex u] |}).
    assert (Hnst : u ∉ stack st) by (intros Hin; by apply Hnot, (ok_stack _ _ Hok)).
    assert (Hok1 : dfs_ok gr st1).
    { destruct Hok as [Hrange Hstack Hfin Hnodup Hback Hclosed].
      constructor; cbn [st1 visited stack events];
        rewrite ?finished_snoc_other by done.
      - intros x Hx. apply elem_of_union in Hx as [Hx|Hx]; [|by apply Hrange].
        apply elem_of_singleton in Hx. by subst.
      - intros x Hx. apply elem_of_union. apply elem_of_cons in Hx as [->|Hx].
        + left. by apply elem_of_singleton.
        + right. by apply Hstack.
      - intros x. rewrite Hfin, not_elem_of_cons, elem_of_union, elem_of_singleton.
        split; [intros [H1 H2]|intros [[->|H1] [H2 H3]]]; try done.
        split; [by right|]. split; [|done]. by intros ->.
      - done.
      - intros [e He]. apply back_edge_snoc in He as [He|He]; [|done].
        apply Hback. by exists e.
      - intros Hno. apply Hclosed. eapply no_back_prefix; [|done]. by apply prefix_app_r. }
    assert (Hedges : exists st2,
              fold_left (examine gr (dfs_visit gr fuel)) (out_edges u gr) (Some st1) = Some st2 /\
              dfs_ok gr st2 /\ stack st2 = stack st1 /\
              visited st1 ⊆ visited st2 /\ events st1 `prefix_of` events st2 /\
              forall e, In e (out_edges u gr) ->
                snd e ∈ visited st2 /\
                (snd e ∈ stack st1 -> exists e', back_edge e' ∈ events st2)).
    { apply (examine_edges (dfs_visit gr fuel) fuel u (out_edges u gr) IH).
      - intros e He. by apply out_edges_arc in He as [He _].
      - done.
      - intros x Hx. apply elem_of_cons in Hx as [->|Hx]; [done|].
        by apply tc_rtc, Hreach.
      - cbn [st1 visited]. lia. }
    destruct Hedges as (st2 & Hfold & Hok2 & Hs2 & Hv2 & Hp2 & Hall).
    cbn [dfs_visit]. fold st1. rewrite Hfold.
    eexists. split; [done|]. cbn [visited stack events]. rewrite Hs2. cbn [st1 stack tail].
    assert (Hu2 : u ∈ visited st2).
    { apply Hv2. cbn [st1 visited]. apply elem_of_union. left. by apply elem_of_singleton. }
    split; [|split; [done|split; [|split; [done|]]]].
    + destruct Hok2 as [Hrange Hstack Hfin Hnodup Hback Hclosed].
      rewrite Hs2 in Hstack, Hfin. cbn [st1 stack] in Hstack, Hfin.
      constructor; cbn [visited stack events]; rewrite ?finished_snoc.
      * done.
      * intros x Hx. apply Hstack. by right.
      * intros x. rewrite elem_of_app, list_elem_of_singleton, Hfin, not_elem_of_cons.
        split.
        -- intros [[H1 [H2 H3]]| ->]; [done|]. done.
        -- intros [H1 H2]. destruct (decide (x = u)) as [->|Hne]; [by right|by left].
      * apply NoDup_app. split; [done|]. split; [|apply NoDup_singleton].
        intros x Hx Hxu. apply list_elem_of_singleton in Hxu as ->.
        apply Hfin in Hx as [_ Hx]. apply Hx. by left.
      * intros [e He]. apply back_edge_snoc in He as [He|He]; [|done].
        apply Hback. by exists e.
      * intros Hno.
        assert (Hno2 : no_back (events st2))
          by (eapply no_back_prefix; [|done]; by apply prefix_app_r).
        specialize (Hclosed Hno2). intros i x y Hi Hxy.
        apply lookup_snoc_Some in Hi as [[Hil Hi]|[Hlen <-]].
        -- destruct (Hclosed i x y Hi Hxy) as (j & Hj & Hjy).
           exists j. split; [done|]. by apply lookup_app_l_Some.
        -- destruct (Hall (u, y)) as [Hy1 Hy2]; [by apply out_edges_arc|].
           simpl in Hy1, Hy2.
           assert (Hy : y ∈ finished (events st2)).
           { apply Hfin. split; [done|]. intros Hin.
             destruct Hy2 as [e' He']; [done|]. by apply (Hno2 e'). }
           apply list_elem_of_lookup in Hy as [j Hj].
           exists j. split; [rewrite Hlen; by eapply lookup_lt_Some|].
           by apply lookup_app_l_Some.
    + etrans; [|exact Hv2]. cbn [st1 visited]. apply union_subseteq_r.
    + etrans; [|apply prefix_app_r; exact Hp2]. cbn [st1 events]. by apply prefix_app_r.
Qed.

Lemma start_from_all l : forall st,
  dfs_ok gr st -> stack st = [] -> (forall u, In u l -> u < num_vertices gr) ->
  exists st', fold_left (start_from gr) l (Some st) = Some st' /\
              dfs_ok gr st' /\ stack st' = [] /\ visited st ⊆ visited st' /\
              forall u, In u l -> u ∈ visited st'.
Proof.
  induction l as [|u l IH]; intros st Hok Hst Hl.
  - exists st. simpl. split; [done|]. split; [done|]. split; [done|].
    split; [done|]. intros u [].
  - cbn [fold_left]. unfold start_from at 2.
    assert (Hl' : forall v, In v l -> v < num_vertices gr) by (intros v Hv; apply Hl; by right).
    destruct (decide (u ∈ visited st)) as [Hvis|Hvis].
    + destruct (IH st Hok Hst Hl') as (st' & Hfold & Hok' & Hs' & Hv' & Hall).
      exists st'. split; [done|]. split; [done|]. split; [done|]. split; [done|].
      intros v [<-|Hv]; [by apply Hv'|by apply Hall].
    + destruct (dfs_visit_spec (num_vertices gr) u st)
        as (st1 & Hcall & Hok1 & Hs1 & Hv1 & Hu1 & _);
        [done|apply Hl; by left|done|rewrite Hst; by intros x Hx%elem_of_nil|lia|].
      rewrite Hcall.
      destruct (IH st1 Hok1) as (st' & Hfold & Hok' & Hs' & Hv' & Hall);
        [by rewrite Hs1|done|].
      exists st'. split; [done|]. split; [done|]. split; [done|]. split; [by etrans|].
      intros v [<-|Hv]; [by apply Hv'|by apply Hall].
Qed.

(** The search ends, with every vertex recorded once. *)
Lemma depth_first_search_spec :
  exists st, depth_first_search gr = Some st /\ dfs_ok gr st /\
             NoDup (finished (events st)) /\
             forall x, x ∈ finished (events st) <-> x < num_vertices gr.
Proof.
  destruct (start_from_all (seq 0 (num_vertices gr))
              {| visited := ∅; stack := []; events := [] |})
    as (st & Hfold & Hok & Hs & _ & Hall).
  - constructor; cbn [visited stack events].
    + intros x Hx. by apply elem_of_empty in Hx.
    + intros x Hx. by apply elem_of_nil in Hx.
    + intros x. split; [intros Hx; by apply elem_of_nil in Hx|].
      intros [Hx _]. by apply elem_of_empty in Hx.
    + constructor.
    + intros [e He]. by apply elem_of_nil in He.
    + intros _ i x y Hi. done.
  - done.
  - intros u Hu. apply in_seq in Hu. lia.
  - exists st. split; [done|]. split; [done|]. split; [apply (ok_nodup _ _ Hok)|].
    intros x. rewrite (ok_fin _ _ Hok), Hs. split.
    + intros [Hx _]. by apply (ok_range _ _ Hok).
    + intros Hx. split; [|by intros Hin%elem_of_nil]. apply Hall, in_seq. lia.
Qed.

Lemma closed_descends l :
  closed gr l -> forall x y, tc (arc gr) x y ->
  forall i, l !! i = Some x -> exists j, j < i /\ l !! j = Some y.
Proof.
  intros Hcl x y Htc. induction Htc as [x y Hxy|x y z Hxy Htc IH]; intros i Hi.
  - by eapply Hcl.
  - destruct (Hcl i x y Hi Hxy) as (j & Hj & Hjy).
    destruct (IH j Hjy) as (k & Hk & Hkz). exists k. split; [lia|done].
Qed.

Lemma closed_acyclic l :
  NoDup l -> closed gr l -> (forall x, x < num_vertices gr -> x ∈ l) -> ~ cyclic gr.
Proof.
  intros Hnd Hcl Hall [x Hx].
  assert (Hin : x ∈ l).
  { apply Hall. inversion Hx as [? ? Hxy|? y ? Hxy]; subst;
      exact (proj1 (Hwf (x, _) Hxy)). }
  apply list_elem_of_lookup in Hin as [i Hi].
  destruct (closed_descends l Hcl x x Hx i Hi) as (j & Hj & Hjx).
  pose proof (NoDup_lookup _ _ _ _ Hnd Hi Hjx). lia.
Qed.

Lemma search_finds_back_edge_iff_cyclic st :
  depth_first_search gr = Some st ->
  (exists e, back_edge e ∈ events st) <-> cyclic gr.
Proof.
  intros Hst. destruct depth_first_search_spec as (st' & Hst' & Hok & Hnd & Hall).
  rewrite Hst in Hst'. injection Hst' as <-. split.
  - apply (ok_back _ _ Hok).
  - intros Hcyc.
    destruct (fold_left cycle_detector (events st) false) eqn:Hb.
    + apply cycle_detector_fold in Hb as [Hb|Hb]; done.
    + exfalso. apply (closed_acyclic (finished (events st))); try done.
      * apply (ok_closed _ _ Hok). intros e He.
        assert (fold_left cycle_detector (events st) false = true)
          by (apply cycle_detector_fold; right; by exists e).
        congruence.
      * intros x Hx. by apply Hall.
Qed.

End DepthFirst.

Lemma has_cycle_spec gr :
  wf_graph gr -> exists b, has_cycle gr = Some b /\ (b = true <-> cyclic gr).
Proof.
  intros Hwf. destruct (depth_first_search_spec gr Hwf) as (st & Hst & _).
  exists (fold_left cycle_detector (events st) false). unfold has_cycle. rewrite Hst.
  split; [done|].
  rewrite cycle_detector_fold, <- (search_finds_back_edge_iff_cyclic gr Hwf st Hst).
  split; [by intros [?|?]|by right].
Qed.

Lemma wf_g : wf_graph g.
Proof.
  intros e He. simpl in He.
  repeat (destruct He as [<-|He]; [vm_compute; lia|]). destruct He.
Qed.

Lemma wf_add_edge gr u v :
  wf_graph gr -> (u < num_vertices gr)%nat -> (v < num_vertices gr)%nat ->
  wf_graph (add_edge u v gr).
Proof.
  intros Hwf Hu Hv e He. unfold add_edge in *. simpl in *.
  apply in_app_or in He as [He|[<-|[]]]; [by apply Hwf|done].
Qed.

(** X17: The flag set by [cycle_detector]: the search over a graph whose edges
    join vertices of the graph ends, and [has_cycle] is true afterwards if
    and only if the graph has a directed cycle. *)
Theorem cycle_detector_reports_exactly_the_cyclic_graphs (gr : Graph) :
  wf_graph gr ->
  exists b, has_cycle gr = Some b /\ (b = true <-> cyclic gr).
Proof. apply has_cycle_spec. Qed.

Lemma cycle_detector_reports_exactly_the_cyclic_graphs_witness :
  has_cycle g = Some false /\ ~ cyclic g.
Proof.
  destruct (cycle_detector_reports_exactly_the_cyclic_graphs g wf_g) as (b & Hb & Hiff).
  split; [reflexivity|].
  intros Hc. apply Hiff in Hc. subst b. vm_compute in Hb. discriminate.
Defined.

Lemma new_edge_paths gr u v x y :
  tc (arc (add_edge u v gr)) x y ->
  tc (arc gr) x y \/ (rtc (arc gr) x u /\ rtc (arc gr) v y) \/ rtc (arc gr) v u.
Proof.
  assert (Hstep : forall a b, arc (add_edge u v gr) a b -> arc gr a b \/ (a = u /\ b = v)).
  { intros a b Hab. unfold arc, add_edge in Hab. simpl in Hab.
    apply in_app_or in Hab as [Hab|[[= <- <-]|[]]]; [by left|by right]. }
  intros Htc. induction Htc as [x y Hxy|x y z Hxy Htc IH].
  - destruct (Hstep _ _ Hxy) as [Hold|[-> ->]]; [left; by apply tc_once|].
    right. by left.
  - destruct (Hstep _ _ Hxy) as [Hold|[-> ->]].
    + destruct IH as [IH|[[IH1 IH2]|IH]].
      * left. by eapply tc_l.
      * right. left. split; [by eapply rtc_l|done].
      * right. by right.
    + destruct IH as [IH|[[IH1 IH2]|IH]].
      * right. left. split; [done|by apply tc_rtc].
      * right. by right.
      * right. by right.
Qed.

Lemma arc_add_edge gr u v a b : arc gr a b -> arc (add_edge u v gr) a b.
Proof. unfold arc, add_edge. simpl. intros H. apply in_or_app. by left. Qed.

Lemma cyclic_add_edge gr u v :
  cyclic (add_edge u v gr) <-> cyclic gr \/ rtc (arc gr) v u.
Proof.
  split.
  - intros [x Hx]. destruct (new_edge_paths gr u v x x Hx) as [H|[[H1 H2]|H]].
    + left. by exists x.
    + right. by etrans.
    + by right.
  - intros [[x Hx]|Hvu].
    + exists x.
      apply (tc_congruence (R := arc gr) (fun a : nat => a) (arc (add_edge u v gr)));
        [|exact Hx].
      intros a b. apply arc_add_edge.
    + exists u. eapply tc_rtc_r.
      * apply tc_once. unfold arc, add_edge. simpl. apply in_or_app. right. by left.
      * apply (rtc_congruence (R := arc gr) (fun a : nat => a) (arc (add_edge u v gr)));
          [|exact Hvu].
        intros a b. apply arc_add_edge.
Qed.

(** X18: [add_edge] followed by the search: after [add_edge(u, v, g)] on two
    vertices of the graph, [has_cycle] is true if and only if it was true
    before or [u] could already be reached from [v]. *)
Theorem add_edge_makes_a_cycle_iff_the_target_reaches_the_source
    (gr : Graph) (u v : nat) :
  wf_graph gr -> (u < num_vertices gr)%nat -> (v < num_vertices gr)%nat ->
  has_cycle (add_edge u v gr) = Some true <->
  has_cycle gr = Some true \/ rtc (arc gr) v u.
Proof.
  intros Hwf Hu Hv.
  destruct (has_cycle_spec gr Hwf) as (b & Hb & Hiff).
  destruct (has_cycle_spec (add_edge u v gr) (wf_add_edge gr u v Hwf Hu Hv))
    as (b' & Hb' & Hiff').
  rewrite Hb, Hb'. rewrite cyclic_add_edge in Hiff'. split.
  - intros [= ->]. destruct (proj1 Hiff' eq_refl) as [Hc|Hr]; [|by right].
    left. f_equal. by apply Hiff.
  - intros [[= ->]|Hr]; f_equal; apply Hiff'; [left; by apply Hiff|by right].
Qed.

Lemma add_edge_makes_a_cycle_iff_the_target_reaches_the_source_witness :
  has_cycle g = Some false /\ has_cycle (add_edge bar_cpp dax_h g) = Some true.
Proof.
  split; [reflexivity|].
  apply (add_edge_makes_a_cycle_iff_the_target_reaches_the_source g bar_cpp dax_h wf_g).
  - vm_compute. lia.
  - vm_compute. lia.
  - right. apply rtc_once. unfold arc. simpl. right. left. reflexivity.
Defined.

(** X19: [topological_sort] over a graph whose edges join vertices of the
    graph: without a directed cycle it yields an order that lists every
    vertex once and in which the source of every edge comes before its
    target; with a cycle it reports [not_a_dag]. *)
Theorem topological_sort_orders_every_dag (gr : Graph) :
  wf_graph gr ->
  (~ cyclic gr ->
   exists make_order,
     topological_sort gr = Some (sorted make_order) /\
     make_order ≡ₚ seq 0 (num_vertices gr) /\
     forall u v, arc gr u v ->
       exists i j, (i < j)%nat /\ make_order !! i = Some u /\ make_order !! j = Some v) /\
  (cyclic gr -> topological_sort gr = Some not_a_dag).
Proof.
  intros Hwf. destruct (depth_first_search_spec gr Hwf) as (st & Hst & Hok & Hnd & Hall).
  pose proof (search_finds_back_edge_iff_cyclic gr Hwf st Hst) as Hback.
  unfold topological_sort. rewrite Hst. simpl. split.
  - intros Hacyc.
    assert (Hno : no_back (events st)).
    { intros e He. apply Hacyc, Hback. by exists e. }
    exists (reverse (finished (events st))).
    rewrite topo_fold_no_back, app_nil_r by done. split; [done|]. split.
    + rewrite reverse_Permutation. apply NoDup_Permutation; [done|apply NoDup_seq|].
      intros x. rewrite Hall, elem_of_seq. lia.
    + intros u v Huv.
      assert (Hu : u ∈ finished (events st)) by (apply Hall, (Hwf (u, v) Huv)).
      apply list_elem_of_lookup in Hu as [i Hi].
      destruct (ok_closed _ _ Hok Hno i u v Hi Huv) as (j & Hj & Hjv).
      pose proof (lookup_lt_Some _ _ _ Hi) as Hlen.
      exists (length (finished (events st)) - S i)%nat,
             (length (finished (events st)) - S j)%nat.
      split; [lia|]. rewrite !reverse_lookup by lia. split.
      * rewrite <- Hi. f_equal. lia.
      * rewrite <- Hjv. f_equal. lia.
  - intros Hcyc. f_equal. apply topo_fold_back. by apply Hback.
Qed.

Lemma topological_sort_orders_every_dag_witness :
  topological_sort g = Some (sorted documented_make_order) /\
  documented_make_order ≡ₚ seq 0 N.
Proof.
  destruct (topological_sort_orders_every_dag g wf_g) as [H _].
  destruct H as (order & Hsort & Hperm & _).
  - intros Hc. destruct (has_cycle_spec g wf_g) as (b & Hb & Hiff).
    apply Hiff in Hc. subst b. vm_compute in Hb. discriminate.
  - assert (Heq : order = documented_make_order).
    { vm_compute in Hsort. injection Hsort as <-. reflexivity. }
    subst order. split; [reflexivity|exact Hperm].
Defined.

(** ** The breadth first search *)

Section BreadthFirst.

Local Open Scope nat_scope.

Variable gr : Graph.
Variable s : nat.
Hypothesis Hwf : wf_graph gr.

Lemma NoDup_lt_length (l : list nat) k :
  NoDup l -> (forall x, x ∈ l -> x < k) -> length l <= k.
Proof.
  intros Hnd Hlt. apply Nat.le_trans with (length (seq 0 k)); [|by rewrite length_seq].
  apply submseteq_length, NoDup_submseteq; [done|].
  intros x Hx. apply elem_of_seq. specialize (Hlt x Hx). lia.
Qed.

(** The out-edges [l] of the vertex [u] just dequeued, from the state whose
    queue is [q]. *)
Lemma bfs_examine_edges u l : forall done q new,
  (forall e, In e l -> arc gr u (snd e)) ->
  rtc (arc gr) s u ->
  NoDup (done ++ u :: q ++ new) ->
  (forall v, v ∈ done ++ u :: q ++ new -> v < num_vertices gr /\ rtc (arc gr) s v) ->
  exists new',
    fold_left (bfs_examine gr) l
      {| queue := q ++ new; discovered := done ++ u :: q ++ new |} =
    {| queue := q ++ new'; discovered := done ++ u :: q ++ new' |} /\
    NoDup (done ++ u :: q ++ new') /\
    (forall v, v ∈ done ++ u :: q ++ new' -> v < num_vertices gr /\ rtc (arc gr) s v) /\
    (forall v, v ∈ done ++ u :: q ++ new -> v ∈ done ++ u :: q ++ new') /\
    (forall e, In e l -> snd e ∈ done ++ u :: q ++ new').
Proof.
  induction l as [|e l IH]; intros done q new Harc Hu Hnd Hreach.
  - exists new. simpl. split; [done|]. split; [done|]. split; [done|].
    split; [done|]. intros e [].
  - assert (Harc' : forall e', In e' l -> arc gr u (snd e'))
      by (intros e' He'; apply Harc; by right).
    assert (Hue : arc gr u (snd e)) by (apply Harc; by left).
    cbn [fold_left]. unfold bfs_examine at 2. unfold target. cbn [queue discovered].
    destruct (decide (snd e ∈ done ++ u :: q ++ new)) as [Hin|Hin].
    + destruct (IH done q new Harc' Hu Hnd Hreach) as (new' & Hfold & Hnd' & Hr' & Hmono & Hall).
      exists new'. split; [done|]. split; [done|]. split; [done|]. split; [done|].
      intros e' [<-|He']; [by apply Hmono|by apply Hall].
    + assert (Heq : forall A (a : list A) x b c d, (a ++ x :: b ++ c) ++ d = a ++ x :: b ++ c ++ d).
      { intros. by rewrite <- !app_assoc, <- app_comm_cons, <- !app_assoc. }
      rewrite <- (app_assoc q), Heq.
      destruct (IH done q (new ++ [snd e]) Harc' Hu) as (new' & Hfold & Hnd' & Hr' & Hmono & Hall).
      { rewrite <- Heq. apply NoDup_app. split; [done|]. split; [|apply NoDup_singleton].
        intros x Hx Hxe. apply list_elem_of_singleton in Hxe as ->. done. }
      { intros v Hv. rewrite <- Heq in Hv. apply elem_of_app in Hv as [Hv|Hv]; [by apply Hreach|].
        apply list_elem_of_singleton in Hv as ->. split; [apply (Hwf (u, snd e) Hue)|].
        by eapply rtc_r. }
      exists new'. split; [done|]. split; [done|]. split; [done|]. split.
      * intros v Hv. apply Hmono. rewrite <- Heq. apply elem_of_app. by left.
      * intros e' [<-|He']; [|by apply Hall].
        apply Hmono. rewrite <- Heq. apply elem_of_app. right. by apply list_elem_of_singleton.
Qed.

Lemma bfs_loop_spec fuel : forall st done,
  bfs_ok gr s st ->
  discovered st = done ++ queue st ->
  (forall u v, u ∈ done -> arc gr u v -> v ∈ discovered st) ->
  num_vertices gr <= fuel + length done ->
  exists st', bfs_loop gr fuel st = Some st' /\ bfs_ok gr s st' /\ queue st' = [] /\
              forall u v, u ∈ discovered st' -> arc gr u v -> v ∈ discovered st'.
Proof.
  induction fuel as [|fuel IH]; intros [q d] done Hok Hsplit Hclosed Hfuel;
    cbn [queue discovered] in *.
  - destruct q as [|u q].
    + exists {| queue := []; discovered := d |}. split; [done|]. split; [done|].
      split; [done|]. cbn [discovered]. rewrite Hsplit, app_nil_r in *. exact Hclosed.
    + exfalso.
      assert (Hlen : length d <= num_vertices gr).
      { apply NoDup_lt_length; [apply (bfs_nodup _ _ _ Hok)|].
        intros x Hx. by apply (bfs_reach _ _ _ Hok). }
      rewrite Hsplit, length_app in Hlen. simpl in Hlen. lia.
  - destruct q as [|u q].
    + exists {| queue := []; discovered := d |}. destruct fuel; (split; [done|]);
        (split; [done|]); (split; [done|]); cbn [discovered];
        rewrite Hsplit, app_nil_r in *; exact Hclosed.
    + cbn [bfs_loop queue discovered]. subst d.
      destruct Hok as [_ Hnd Hreach Hstart]. cbn [queue discovered] in *.
      destruct (bfs_examine_edges u (out_edges u gr) done q [])
        as (new & Hfold & Hnd' & Hr' & Hmono & Hall).
      { intros e He. by apply out_edges_arc in He as [He _]. }
      { apply Hreach, elem_of_app. right. by left. }
      { by rewrite app_nil_r. }
      { intros v Hv. rewrite app_nil_r in Hv. by apply Hreach. }
      rewrite app_nil_r in Hfold. rewrite Hfold.
      assert (Heq : done ++ u :: q ++ new = (done ++ [u]) ++ q ++ new)
        by (by rewrite <- app_assoc).
      apply (IH _ (done ++ [u])).
      * constructor; cbn [queue discovered].
        -- exists (done ++ [u]). split; [done|].
           intros a b Ha Hab. apply elem_of_app in Ha as [Ha|Ha].
           ++ apply Hmono. rewrite app_nil_r. by eapply Hclosed.
           ++ apply list_elem_of_singleton in Ha as ->.
              apply (Hall (u, b)). by apply out_edges_arc.
        -- done.
        -- done.
        -- destruct done; simpl in *; done.
      * done.
      * cbn [discovered]. intros a b Ha Hab. apply elem_of_app in Ha as [Ha|Ha].
        -- apply Hmono. rewrite app_nil_r. by eapply Hclosed.
        -- apply list_elem_of_singleton in Ha as ->.
           apply (Hall (u, b)). by apply out_edges_arc.
      * rewrite length_app. simpl. lia.
Qed.

Lemma breadth_first_search_spec :
  s < num_vertices gr ->
  exists st, breadth_first_search gr s = Some st /\ queue st = [] /\
             head (discovered st) = Some s /\ NoDup (discovered st) /\
             forall v, v ∈ discovered st <-> rtc (arc gr) s v.
Proof.
  intros Hs. unfold breadth_first_search.
  destruct (bfs_loop_spec (num_vertices gr) {| queue := [s]; discovered := [s] |} [])
    as (st & Hloop & Hok & Hq & Hclosed).
  - constructor; cbn [queue discovered].
    + exists []. split; [done|]. intros u v Hu. by apply elem_of_nil in Hu.
    + apply NoDup_singleton.
    + intros v Hv. apply list_elem_of_singleton in Hv as ->. done.
    + done.
  - done.
  - intros u v Hu. by apply elem_of_nil in Hu.
  - simpl. lia.
  - exists st. split; [done|]. split; [done|].
    split; [apply (bfs_start _ _ _ Hok)|]. split; [apply (bfs_nodup _ _ _ Hok)|].
    intros v. split; [apply (bfs_reach _ _ _ Hok)|].
    revert v. apply (rtc_ind_r (fun v => v ∈ discovered st)).
    + pose proof (bfs_start _ _ _ Hok) as Hhead.
      destruct (discovered st); [done|]. injection Hhead as ->. by left.
    + intros y z _ Hyz Hy. by eapply Hclosed.
Qed.

End BreadthFirst.

(** X20: The search that answers "a change to yow.h will cause what to be
    re-made": from a vertex [s] of a graph whose edges join vertices of the
    graph, the search ends with an empty queue; [discover_vertex] is called
    first on [s], once on every vertex that [s] reaches along the edges,
    and on no other vertex. *)
Theorem breadth_first_search_discovers_the_reachable_vertices (gr : Graph) (s : nat) :
  wf_graph gr -> (s < num_vertices gr)%nat ->
  exists st, breadth_first_search gr s = Some st /\ queue st = [] /\
             head (discovered st) = Some s /\ NoDup (discovered st) /\
             forall v, v ∈ discovered st <-> rtc (arc gr) s v.
Proof. apply breadth_first_search_spec. Qed.

Lemma breadth_first_search_discovers_the_reachable_vertices_witness :
  printed g yow_h =
    Some ["yow.h"; "bar.cpp"; "zag.cpp"; "bar.o"; "zag.o";
          "libfoobar.a"; "libzigzag.a"; "killerapp"]%string /\
  exists st, breadth_first_search g yow_h = Some st /\
             (libzigzag_a ∈ discovered st <-> rtc (arc g) yow_h libzigzag_a).
Proof.
  split; [reflexivity|].
  destruct (breadth_first_search_discovers_the_reachable_vertices g yow_h wf_g)
    as (st & Hst & _ & _ & _ & Hiff).
  - vm_compute. lia.
  - exists st. split; [exact Hst|apply Hiff].
Defined.

End FileDepsFacts.

Module CircuitFacts.
Import Circuits.

Local Open Scope nat_scope.

(** *** Folds that may fail *)

Lemma fold_left_some {A B} (F : option A -> B -> option A) (J : A -> Prop) (l : list B) :
  forall a, J a ->
  (forall a x, x ∈ l -> J a -> exists a', F (Some a) x = Some a' /\ J a') ->
  exists a', fold_left F l (Some a) = Some a' /\ J a'.
Proof.
  induction l as [|x l IH]; intros a Ha Hstep; [by exists a|].
  destruct (Hstep a x) as (a1 & Hx & Ha1); [by left|done|].
  simpl. rewrite Hx. apply IH; [done|].
  intros a0 y Hy. apply Hstep. by right.
Qed.

Lemma fold_left_keeps {A B} (F : A -> B -> A) (J : A -> Prop) (l : list B) :
  forall a, J a -> (forall a x, x ∈ l -> J a -> J (F a x)) -> J (fold_left F l a).
Proof.
  induction l as [|x l IH]; intros a Ha Hstep; [done|].
  simpl. apply IH; [apply Hstep; [by left|done]|].
  intros a0 y Hy. apply Hstep. by right.
Qed.

(** A duplicate free list of numbers below [n] has at most [n] elements. *)
Lemma NoDup_bounded_length (l : list nat) n :
  NoDup l -> (forall x, x ∈ l -> x < n) -> length l <= n.
Proof.
  intros Hnd Hlt. apply Nat.le_trans with (length (seq 0 n)); [|by rewrite length_seq].
  apply submseteq_length.
  apply NoDup_submseteq; [done|]. intros x Hx. apply elem_of_seq. specialize (Hlt x Hx). lia.
Qed.

(** *** Paths *)

Lemma path_cons g a p :
  path g (a :: p) <-> (forall b, head p = Some b -> arc g a b) /\ path g p.
Proof.
  destruct p as [|b p]; simpl.
  - split; [intros _; split; [done|done]|done].
  - split.
    + intros [Hab Hp]. split; [by intros ? [= <-]|done].
    + intros [Hab Hp]. split; [by apply Hab|done].
Qed.

Lemma path_app g p q :
  path g (p ++ q) <->
  path g p /\ path g q /\ (forall a b, last p = Some a -> head q = Some b -> arc g a b).
Proof.
  induction p as [|a p IH].
  - simpl. split; [|by intros (_ & H & _)].
    intros H. split; [done|]. split; [done|]. intros a b [=].
  - rewrite <- app_comm_cons, !path_cons, IH. destruct p as [|b p].
    + simpl. split.
      * intros (H1 & _ & H2 & _). split; [split; [intros b [=]|done]|].
        split; [done|]. intros a' b [= <-]. apply H1.
      * intros (_ & H2 & H3). split; [intros b Hb; by apply H3|].
        split; [done|]. split; [done|]. intros a' b [=].
    + change (last (a :: b :: p)) with (last (b :: p)). simpl head. tauto.
Qed.

Lemma path_singleton g a : path g [a].
Proof. done. Qed.

Lemma path_snoc g p a v :
  path g p -> last p = Some a -> arc g a v -> path g (p ++ [v]).
Proof.
  intros Hp Hlast Harc. apply path_app. split; [done|]. split; [done|].
  intros a' b Ha' [= <-]. by simplify_eq.
Qed.


(** *** Unblocking and closing *)

Lemma closed_to_insert st w l w' :
  default [] (<[w := l]> (closed st) !! w') = if decide (w = w') then l else closed_to st w'.
Proof.
  unfold closed_to. rewrite lookup_insert. by case_decide.
Qed.

(** With more fuel than blocked vertices, unblocking [u] succeeds; it
    reports nothing, blocks nothing, leaves [u] unblocked, unblocks besides
    [u] only vertices that were closed to some vertex, and adds nothing to
    the closed lists. *)
Lemma unblock_spec fuel : forall u st,
  size (blocked st ∖ {[u]}) < fuel ->
  exists st', unblock fuel u st = Some st' /\
    cycles st' = cycles st /\
    blocked st' ⊆ blocked st ∖ {[u]} /\
    (forall x, x ∈ blocked st -> x ∉ blocked st' -> x = u \/ exists w, x ∈ closed_to st w) /\
    (forall w x, x ∈ closed_to st' w -> x ∈ closed_to st w).
Proof.
  induction fuel as [|fuel IH]; intros u st Hsize; [lia|].
  simpl.
  set (st1 := {| blocked := blocked st ∖ {[u]};
                 closed := <[u := []]> (closed st); cycles := cycles st |}).
  apply (fold_left_some _ (fun cur =>
     cycles cur = cycles st /\
     blocked cur ⊆ blocked st ∖ {[u]} /\
     (forall x, x ∈ blocked st -> x ∉ blocked cur -> x = u \/ exists w, x ∈ closed_to st w) /\
     (forall w x, x ∈ closed_to cur w -> x ∈ closed_to st w))).
  - split; [done|]. split; [done|]. split.
    + intros x Hx Hnot. left. apply dec_stable. intros Hne. apply Hnot.
      subst st1. simpl. apply elem_of_difference. split; [done|].
      by rewrite elem_of_singleton.
    + intros w x. unfold closed_to at 1. subst st1. cbn [closed].
      rewrite closed_to_insert. case_decide; [by rewrite elem_of_nil|done].
  - intros cur w Hw (Hc & Hb & Hu & Hcl).
    rewrite elem_of_reverse in Hw.
    case_decide as Hblocked; [|by exists cur].
    destruct (IH w cur) as (cur' & Hrun & Hc' & Hb' & Hu' & Hcl').
    { apply Nat.lt_le_trans with (size (blocked cur)).
      - apply subset_size. apply subset_difference_elem_of. done.
      - apply Nat.lt_succ_r. apply Nat.le_lt_trans with (size (blocked st ∖ {[u]})); [|done].
        by apply subseteq_size. }
    exists cur'. split; [done|]. split; [congruence|]. split; [|split].
    + intros x Hx. apply Hb. apply Hb' in Hx. apply elem_of_difference in Hx. tauto.
    + intros x Hx Hnot. destruct (decide (x ∈ blocked cur)) as [Hin|Hout].
      * destruct (Hu' x Hin Hnot) as [->|[w' Hw']]; [right; by exists u|].
        right. exists w'. by apply Hcl.
      * by apply Hu.
    + intros w' x Hx. by apply Hcl, Hcl'.
Qed.

Lemma close_all_spec g s v st :
  cycles (close_all g s v st) = cycles st /\
  blocked (close_all g s v st) = blocked st /\
  (forall w x, x ∈ closed_to (close_all g s v st) w -> x ∈ closed_to st w \/ x = v).
Proof.
  unfold close_all.
  apply (fold_left_keeps _ (fun cur =>
     cycles cur = cycles st /\ blocked cur = blocked st /\
     (forall w x, x ∈ closed_to cur w -> x ∈ closed_to st w \/ x = v))).
  - split; [done|]. split; [done|]. intros w x Hx. by left.
  - intros cur w _ (Hc & Hb & Hcl).
    destruct (w <? s); [done|]. case_decide; [done|].
    split; [done|]. split; [done|].
    intros w' x. unfold closed_to at 1, close_to. cbn [closed].
    rewrite closed_to_insert. case_decide as Hw.
    + subst w'. rewrite elem_of_app, list_elem_of_singleton.
      intros [Hx|Hx]; [by apply Hcl|by right].
    + apply Hcl.
Qed.

Lemma frame_refl on st : frame on st st.
Proof. split; [done|]. split; [done|]. split; [intros; by left|done]. Qed.

Lemma frame_trans on st1 st2 st3 : frame on st1 st2 -> frame on st2 st3 -> frame on st1 st3.
Proof.
  intros (Hc1 & Hb1 & Hn1 & Hcl1) (Hc2 & Hb2 & Hn2 & Hcl2).
  split; [congruence|]. split; [by etrans|]. split; [|by intros; apply Hcl2, Hcl1].
  intros x Hx. destruct (Hn2 x Hx) as [H|H]; [by apply Hn1|by right].
Qed.

Lemma frame_block (on : nat -> Prop) v st : ~ on v -> frame on st (block v st).
Proof.
  intros Hv. split; [done|]. split; [apply union_subseteq_r|]. split; [|done].
  intros x Hx. simpl in Hx. apply elem_of_union in Hx as [Hx|Hx]; [|by left].
  apply elem_of_singleton in Hx. subst. by right.
Qed.

Lemma frame_close_all (on : nat -> Prop) g s v st :
  ~ on v -> frame on st (close_all g s v st).
Proof.
  intros Hv. destruct (close_all_spec g s v st) as (Hc & Hb & Hcl).
  split; [done|]. split; [by rewrite Hb|]. split; [rewrite Hb; by left|].
  intros Hok w x Hx. destruct (Hcl w x Hx) as [H| ->]; [by eapply Hok|done].
Qed.


(** *** Searches that report nothing *)

Section Search.

Variable g : list (list nat).
Variable s : nat.
Variable on : nat -> Prop.

Hypothesis Hwf : wf_graph g.

(** A simple path from [s] that reaches [on] continues to a circuit. *)
Hypothesis Hon : forall p x,
  NoDup p -> path g p -> head p = Some s -> last p = Some x ->
  (forall y, y ∈ p -> s <= y) -> on x -> good g s p.

Lemma good_prefix p q : good g s (p ++ q) -> good g s p.
Proof.
  intros (c & Hc & Hlo & Hpre). exists c. split; [done|]. split; [done|].
  etrans; [|done]. by apply prefix_app_r.
Qed.

Lemma call_ok_length stack v st :
  call_ok g s stack v st -> S (length stack) <= num_vertices g.
Proof.
  intros (Hnd & _ & _ & Hb & _).
  replace (S (length stack)) with (length (stack ++ [v]))
    by (rewrite length_app; simpl; lia).
  apply NoDup_bounded_length; [done|]. intros x Hx. by apply Hb.
Qed.

Lemma call_ok_not_on stack v st :
  call_ok g s stack v st -> ~ good g s (stack ++ [v]) -> ~ on v.
Proof.
  intros (Hnd & Hp & Hh & Hb & _) Hbad Hv. apply Hbad.
  apply (Hon _ v); [done..|by rewrite last_snoc| |done].
  intros y Hy. by apply Hb.
Qed.

(** An out-neighbour [w] of the top [v] of the path that does not continue
    the path towards a circuit: exploring it reports nothing. *)
Lemma explore_off fuel p v w b cur :
  (forall stack v st,
     call_ok g s stack v st -> num_vertices g <= fuel + length stack ->
     ~ good g s (stack ++ [v]) ->
     exists st', circuit g s fuel stack v st = Some (false, st') /\ frame on st st') ->
  NoDup p -> path g p -> head p = Some s -> last p = Some v ->
  (forall x, x ∈ p -> s <= x < num_vertices g) ->
  (forall x, x ∈ p -> x ∈ blocked cur) ->
  w ∈ adjacent_vertices g v ->
  num_vertices g <= fuel + length p ->
  ~ good g s (p ++ [w]) ->
  (s <= w -> w <> s) ->
  exists cur', explore s (circuit g s fuel) p (Some (b, cur)) w = Some (b, cur') /\
               frame on cur cur'.
Proof.
  intros IH Hnd Hp Hh Hl Hb Hbl Hw Hfuel Hbad Hs. unfold explore.
  destruct (Nat.ltb_spec w s) as [Hlt|Hge]; [exists cur; split; [done|apply frame_refl]|].
  destruct (Nat.eqb_spec w s) as [Heq|Hne]; [by destruct (Hs Hge)|].
  case_decide as Hblocked; [exists cur; split; [done|apply frame_refl]|].
  destruct (IH p w cur) as (cur' & Hrun & Hframe); [|done|done|].
  - split; [|split; [|split; [|split]]].
    + apply NoDup_app. split; [done|]. split; [|apply NoDup_singleton].
      intros x Hx Hxw. apply list_elem_of_singleton in Hxw. subst x. by apply Hblocked, Hbl.
    + by eapply path_snoc.
    + destruct p; [done|done].
    + intros x Hx. apply elem_of_app in Hx as [Hx|Hx]; [by apply Hb|].
      apply list_elem_of_singleton in Hx. subst x. split; [done|]. by eapply Hwf.
    + done.
  - exists cur'. rewrite Hrun. by rewrite orb_false_r.
Qed.

Lemma circuit_off_path fuel : forall stack v st,
  call_ok g s stack v st -> num_vertices g <= fuel + length stack ->
  ~ good g s (stack ++ [v]) ->
  exists st', circuit g s fuel stack v st = Some (false, st') /\ frame on st st'.
Proof.
  induction fuel as [|fuel IH]; intros stack v st Hok Hfuel Hbad.
  { pose proof (call_ok_length _ _ _ Hok). lia. }
  pose proof (call_ok_not_on _ _ _ Hok Hbad) as Hv.
  destruct Hok as (Hnd & Hp & Hh & Hb & Hbl).
  cbn [circuit].
  destruct (fold_left_some (explore s (circuit g s fuel) (stack ++ [v]))
              (fun a => a.1 = false /\ frame on (block v st) a.2)
              (adjacent_vertices g v) (false, block v st))
    as ([b st2] & Hfold & Hb2 & Hframe).
  { split; [done|apply frame_refl]. }
  { intros [b cur] w Hw [Hbf Hfr]. simpl in Hbf, Hfr. subst b.
    destruct (explore_off fuel (stack ++ [v]) v w false cur) as (cur' & Hrun & Hfr');
      try done.
    - by rewrite last_snoc.
    - intros x Hx. destruct Hfr as (_ & Hmono & _). apply Hmono. simpl.
      apply elem_of_app in Hx as [Hx|Hx].
      + apply elem_of_union_r. by apply Hbl.
      + apply list_elem_of_singleton in Hx. subst x.
        apply elem_of_union_l. by apply elem_of_singleton.
    - rewrite length_app. simpl. lia.
    - intros Hgood. apply Hbad. by eapply good_prefix.
    - intros Hlo ->. apply Hbad. exists (stack ++ [v]). split; [|split; [|done]].
      + split; [done|]. split; [done|]. exists v, s. split; [by rewrite last_snoc|]. done.
      + intros x Hx. by apply Hb.
    - exists (false, cur'). split; [done|]. split; [done|]. by eapply frame_trans. }
  simpl in Hb2. subst b. rewrite Hfold.
  exists (close_all g s v st2). split; [done|].
  eapply frame_trans; [by apply frame_block|].
  eapply frame_trans; [done|]. by apply frame_close_all.
Qed.

End Search.


(** *** Simple paths into the only cycle *)

(** Either no element of [l] satisfies [P], or some element does and none
    after it. *)
Lemma split_at_last {A} (P : A -> Prop) `{!forall x, Decision (P x)} (l : list A) :
  Forall (fun x => ~ P x) l \/
  exists l1 y l2, l = l1 ++ y :: l2 /\ P y /\ Forall (fun x => ~ P x) l2.
Proof.
  induction l as [|a l IH]; [by left|].
  destruct IH as [Hall|(l1 & y & l2 & -> & Hy & Hl2)].
  - destruct (decide (P a)) as [Ha|Ha].
    + right. exists [], a, l. done.
    + left. by constructor.
  - right. exists (a :: l1), y, l2. done.
Qed.

Section OnlyCycle.

Variable g : list (list nat).
Variable s : nat.
Variable D : list nat.

Hypothesis HD : is_circuit g D.
Hypothesis HDs : head D = Some s.
Hypothesis Hall : forall c, is_circuit g c -> s ∈ c.
Hypothesis Huniq : forall c, is_circuit g c -> head c = Some s -> c = D.

(** A simple path from [s] to a vertex of the cycle runs along the cycle:
    otherwise the path and the cycle would close a second circuit. *)
Lemma simple_path_into_cycle p x :
  NoDup p -> path g p -> head p = Some s -> last p = Some x -> x ∈ D ->
  p `prefix_of` D.
Proof.
  intros Hnd Hp Hh Hl Hx.
  destruct HD as (HndD & HpD & a0 & b0 & HlD & HhD & Hclose).
  rewrite HDs in HhD. injection HhD as <-.
  apply list_elem_of_split in Hx as (D1 & D2 & HDeq).
  apply last_Some in Hl as [p1 Hpeq].
  (* the part of the cycle from [x] on *)
  assert (HpxD2 : path g (x :: D2)).
  { rewrite HDeq in HpD. by apply path_app in HpD as (_ & H & _). }
  assert (HxD2 : x ∉ D2).
  { rewrite HDeq in HndD. apply NoDup_app in HndD as (_ & _ & H).
    by apply NoDup_cons in H as [H _]. }
  assert (HndD2 : NoDup D2).
  { rewrite HDeq in HndD. apply NoDup_app in HndD as (_ & _ & H).
    by apply NoDup_cons in H as [_ H]. }
  assert (HlastD : last (x :: D2) = Some a0).
  { rewrite HDeq in HlD. by rewrite last_app_cons in HlD. }
  destruct (split_at_last (fun y => y ∈ D2) p1) as [Hfree|(A & y & B & Hp1 & Hy & HB)].
  - (* the path avoids the rest of the cycle: path and rest form a circuit *)
    assert (Hc : is_circuit g (p ++ D2)).
    { split; [|split].
      - apply NoDup_app. split; [done|]. split; [|done].
        intros z Hz. rewrite Hpeq in Hz. apply elem_of_app in Hz as [Hz|Hz].
        + by apply (proj1 (Forall_forall _ _) Hfree).
        + apply list_elem_of_singleton in Hz. by subst.
      - apply path_app. split; [done|]. split; [by apply path_cons in HpxD2 as [_ H]|].
        intros a b Ha Hb. rewrite Hpeq, last_snoc in Ha. injection Ha as <-.
        apply path_cons in HpxD2 as [H _]. by apply H.
      - exists a0, s. split; [|split; [|done]].
        + rewrite Hpeq, <- app_assoc. simpl. by rewrite last_app_cons.
        + rewrite Hpeq in Hh |- *. by destruct p1. }
    rewrite <- (Huniq _ Hc); [by apply prefix_app_r|].
    destruct p; [done|done].
  - (* the path meets the rest of the cycle at [y]: a circuit without [s] *)
    exfalso. subst p1.
    apply list_elem_of_split in Hy as (E1 & E2 & HD2).
    assert (Hsx : s <> x /\ s <> y /\ s ∉ B).
    { rewrite Hpeq in Hnd. destruct A as [|a A].
      - simpl in Hpeq. rewrite Hpeq in Hh. injection Hh as <-.
        (* then [y] is the head of the cycle and also lies after [x] on it *)
        exfalso. rewrite HDeq, HD2 in HndD, HDs. destruct D1 as [|d D1].
        + simpl in HDs. injection HDs as <-.
          apply NoDup_cons in HndD as [H _]. apply H.
          apply elem_of_app. right. by left.
        + simpl in HDs. injection HDs as <-.
          apply NoDup_cons in HndD as [H _]. apply H.
          apply elem_of_app. right. right. apply elem_of_app. right. by left.
      - simpl in Hpeq. rewrite Hpeq in Hh. injection Hh as <-.
        simpl in Hnd. apply NoDup_cons in Hnd as [H _].
        repeat split; intros Heq; apply H; subst;
          rewrite <- app_assoc; simpl; repeat (rewrite elem_of_app || rewrite elem_of_cons);
          tauto. }
    destruct Hsx as (Hsx & Hsy & HsB).
    assert (HsD2 : s ∉ D2).
    { rewrite HDeq in HndD, HDs. destruct D1 as [|d D1].
      - simpl in HDs. by injection HDs as <-.
      - simpl in HDs. injection HDs as <-.
        apply NoDup_cons in HndD as [H _]. intros Hin. apply H.
        apply elem_of_app. right. by right. }
    assert (Hc : is_circuit g (x :: E1 ++ y :: B)).
    { rewrite Hpeq, <- !app_assoc in Hnd, Hp. simpl in Hnd, Hp.
      apply NoDup_app in Hnd as (_ & _ & Hnd). apply path_app in Hp as (_ & Hp & _).
      (* [Hnd], [Hp] speak of [y :: B ++ [x]] *)
      change (y :: B ++ [x]) with ((y :: B) ++ [x]) in Hnd, Hp.
      apply NoDup_app in Hnd as (HndyB & HxB & _).
      apply path_app in Hp as (HpyB & _ & HBx).
      rewrite HD2 in HpxD2, HndD2, HxD2.
      change (x :: E1 ++ y :: E2) with ((x :: E1) ++ y :: E2) in HpxD2.
      apply path_app in HpxD2 as (HpxE1 & _ & HE1y).
      apply NoDup_app in HndD2 as (HndE1 & HE1 & _).
      split; [|split].
      - apply NoDup_cons. split.
        + intros Hin. apply elem_of_app in Hin as [Hin|Hin].
          * apply HxD2. apply elem_of_app. by left.
          * apply (HxB x); [done|by left].
        + apply NoDup_app. split; [done|]. split; [|done].
          intros z Hz Hz'. apply elem_of_cons in Hz' as [->|Hz'].
          * apply (HE1 y Hz). by left.
          * apply (proj1 (Forall_forall _ _) HB z Hz').
            rewrite HD2. apply elem_of_app. by left.
      - change (x :: E1 ++ y :: B) with ((x :: E1) ++ y :: B).
        apply path_app. split; [done|]. split; [done|].
        intros a b Ha [= <-]. by apply HE1y.
      - assert (is_Some (last (y :: B))) as [a Hlast] by (by apply last_is_Some).
        exists a, x. split; [|split; [done|]].
        + change (x :: E1 ++ y :: B) with ((x :: E1) ++ y :: B).
          by rewrite last_app_cons.
        + by apply HBx. }
    specialize (Hall _ Hc). apply elem_of_cons in Hall as [Hs|Hs]; [done|].
    apply elem_of_app in Hs as [Hs|Hs].
    + apply HsD2. rewrite HD2. apply elem_of_app. by left.
    + apply elem_of_cons in Hs as [Hs|Hs]; done.
Qed.

End OnlyCycle.

(** *** The search along the cycle *)

Lemma path_lookup g p : forall i a b,
  path g p -> p !! i = Some a -> p !! S i = Some b -> arc g a b.
Proof.
  induction p as [|x p IH]; intros i a b Hp Ha Hb; [done|].
  apply path_cons in Hp as [Hx Hp]. destruct i as [|i].
  - simpl in Ha, Hb. injection Ha as ->. apply Hx. by rewrite head_lookup.
  - simpl in Ha, Hb. by eapply IH.
Qed.

Lemma path_take g p i : path g p -> path g (take i p).
Proof.
  intros Hp. rewrite <- (take_drop i p) in Hp. by apply path_app in Hp as (H & _).
Qed.

Lemma head_take_S {A} (l : list A) i : head (take (S i) l) = head l.
Proof. by destruct l. Qed.

(** An element that a list holds once splits it into two parts that do not
    hold it. *)
Lemma once_split (l : list nat) x :
  x ∈ l -> length (filter (fun w => w = x) l) <= 1 ->
  exists l1 l2, l = l1 ++ x :: l2 /\ (x ∉ l1) /\ (x ∉ l2).
Proof.
  intros Hx Hlen. apply list_elem_of_split in Hx as (l1 & l2 & ->).
  exists l1, l2. split; [done|].
  rewrite filter_app, filter_cons_True, length_app in Hlen by done. simpl in Hlen.
  assert (Hnone : forall k, length (filter (fun w => w = x) k) = 0 -> x ∉ k).
  { intros k Hk Hin. apply length_zero_iff_nil in Hk.
    assert (x ∈ filter (fun w => w = x) k) as H by (by apply list_elem_of_filter).
    rewrite Hk in H. by apply elem_of_nil in H. }
  split; apply Hnone; lia.
Qed.

Lemma NoDup_once (l : list nat) x :
  NoDup l -> length (filter (fun w => w = x) l) <= 1.
Proof.
  induction 1 as [|a l Ha Hnd IH]; [simpl; lia|].
  rewrite filter_cons. case_decide as Hax; [|done]. subst a. simpl.
  assert (filter (fun w => w = x) l = []) as ->; [|simpl; lia].
  destruct (filter (fun w => w = x) l) as [|y k] eqn:Hf; [done|].
  assert (Hy : y ∈ filter (fun w => w = x) l) by (rewrite Hf; by left).
  apply list_elem_of_filter in Hy as [-> Hy]. done.
Qed.

Section OnCycle.

Variable g : list (list nat).
Variable s : nat.
Variable D : list nat.

Hypothesis Hwf : wf_graph g.
Hypothesis HD : is_circuit g D.
Hypothesis HDs : head D = Some s.
Hypothesis HDlo : forall x, x ∈ D -> s <= x.
Hypothesis HDn : forall x, x ∈ D -> x < num_vertices g.
Hypothesis Huniq : forall c, is_circuit g c -> head c = Some s -> c = D.
Hypothesis HG : forall p x,
  NoDup p -> path g p -> head p = Some s -> last p = Some x -> x ∈ D -> p `prefix_of` D.
Hypothesis Hnp : forall v w, v ∈ D -> w ∈ D -> arcs g v w <= 1.

Lemma on_cycle_good p x :
  NoDup p -> path g p -> head p = Some s -> last p = Some x ->
  (forall y, y ∈ p -> s <= y) -> x ∈ D -> good g s p.
Proof.
  intros Hnd Hp Hh Hl _ Hx. exists D. split; [done|]. split; [done|]. by eapply HG.
Qed.

Lemma good_on_cycle p : good g s p -> head p = Some s -> p `prefix_of` D.
Proof.
  intros (c & Hc & _ & Hpre) Hh.
  assert (c = D) as <-; [|done].
  apply Huniq; [done|]. destruct Hpre as [k ->]. by destruct p.
Qed.

Lemma next_on_cycle j v :
  D !! j = Some v ->
  exists next, arc g v next /\ next ∈ D /\
    (D !! S j = Some next \/ (S j = length D /\ next = s)).
Proof.
  intros Hj. destruct HD as (_ & Hp & a & b & Hl & Hh & Harc).
  destruct (D !! S j) as [w|] eqn:HSj.
  - exists w. split; [by eapply path_lookup|]. split; [by eapply list_elem_of_lookup_2|by left].
  - apply lookup_ge_None in HSj. apply lookup_lt_Some in Hj as Hlt.
    assert (S j = length D) as Hlen by lia.
    rewrite last_lookup in Hl. replace (pred (length D)) with j in Hl by lia.
    rewrite Hj in Hl. injection Hl as <-. rewrite HDs in Hh. injection Hh as <-.
    exists s. split; [done|]. split; [|by right].
    apply list_elem_of_lookup. exists 0. by rewrite <- head_lookup.
Qed.


(** The prefix of the cycle that ends at position [j]. *)
Lemma cycle_prefix j v :
  D !! j = Some v ->
  take j D ++ [v] = take (S j) D /\
  NoDup (take (S j) D) /\ path g (take (S j) D) /\
  head (take (S j) D) = Some s /\ last (take (S j) D) = Some v /\
  (forall x, x ∈ take (S j) D -> s <= x < num_vertices g) /\
  (v ∉ take j D) /\ length (take (S j) D) = S j.
Proof.
  intros Hj. destruct HD as (Hnd & Hp & _).
  assert (Heq : take j D ++ [v] = take (S j) D) by (symmetry; by apply take_S_r).
  split; [done|].
  assert (Hsub : forall x, x ∈ take (S j) D -> x ∈ D)
    by (intros x Hx; by apply (subseteq_take (S j) D)).
  assert (Hnd' : NoDup (take (S j) D)).
  { eapply sublist_NoDup; [done|apply sublist_take]. }
  split; [done|]. split; [by apply path_take|]. split; [by rewrite head_take_S|].
  split; [by rewrite <- Heq, last_snoc|].
  split; [intros x Hx; split; [apply HDlo|apply HDn]; by apply Hsub|].
  split.
  - rewrite <- Heq in Hnd'. apply NoDup_app in Hnd' as (_ & Hdisj & _).
    intros Hv. apply (Hdisj v Hv). by apply list_elem_of_singleton.
  - rewrite length_take. apply lookup_lt_Some in Hj. lia.
Qed.

Lemma circuit_on_path fuel : forall j v st,
  D !! j = Some v ->
  (forall x, x ∈ take j D -> x ∈ blocked st) ->
  (forall x, x ∈ blocked st -> x ∈ D -> x ∈ take j D) ->
  closed_ok (fun x => x ∈ D) st ->
  num_vertices g <= fuel + j ->
  exists st', circuit g s fuel (take j D) v st = Some (true, st') /\
    cycles st' = cycles st ++ [D] /\
    (forall x, x ∈ take j D -> x ∈ blocked st') /\
    (forall x, x ∈ blocked st' -> x ∈ D -> x ∈ take j D) /\
    closed_ok (fun x => x ∈ D) st'.
Proof.
  induction fuel as [|fuel IH]; intros j v st Hj Hbl Hon Hcl Hfuel.
  { apply lookup_lt_Some in Hj.
    pose proof (NoDup_bounded_length D (num_vertices g) (proj1 HD) HDn). lia. }
  destruct (cycle_prefix j v Hj) as (Heq & Hnd & Hp & Hh & Hl & Hb & Hvj & Hlen).
  assert (HvD : v ∈ D) by (by eapply list_elem_of_lookup_2).
  destruct (next_on_cycle j v Hj) as (next & Harc & HnextD & Hnext).
  cbn [circuit]. rewrite Heq.
  set (p := take (S j) D) in *.
  set (on := fun x => x ∈ D) in *.
  (* out-neighbours other than [next] lead nowhere *)
  assert (Hoff : forall w, w ∈ adjacent_vertices g v -> w <> next ->
                   ~ good g s (p ++ [w]) /\ w <> s).
  { intros w Hw Hne. split.
    - intros Hgood. apply good_on_cycle in Hgood; [|by destruct p].
      assert (D !! S j = Some w) as Hw'.
      { eapply prefix_lookup_Some; [|done]. rewrite lookup_app_r by lia.
        by rewrite Hlen, Nat.sub_diag. }
      destruct Hnext as [Hn|[Hn _]]; [congruence|].
      apply lookup_lt_Some in Hw'. lia.
    - intros ->. assert (p = D) as Hpd.
      { apply Huniq; [|done]. split; [done|]. split; [done|]. by exists v, s. }
      destruct Hnext as [Hn|[_ Hn]]; [|congruence].
      apply lookup_lt_Some in Hn. rewrite <- Hpd, Hlen in Hn. lia. }
  assert (Hstep : forall b base cur w,
            w ∈ adjacent_vertices g v -> w <> next ->
            frame on base cur -> (forall x, x ∈ p -> x ∈ blocked base) ->
            exists a', explore s (circuit g s fuel) p (Some (b, cur)) w = Some a' /\
                       a'.1 = b /\ frame on base a'.2).
  { intros b base cur w Hw Hne Hfr Hbase.
    destruct (Hoff w Hw Hne) as [Hbad Hws].
    destruct (explore_off g s on Hwf fuel p v w b cur)
      as (cur' & Hrun & Hfr'); try done.
    - apply circuit_off_path; [done|apply on_cycle_good].
    - intros x Hx. destruct Hfr as (_ & Hmono & _). by apply Hmono, Hbase.
    - rewrite Hlen. lia.
    - exists (b, cur'). split; [done|]. split; [done|]. by eapply frame_trans. }
  destruct (once_split (adjacent_vertices g v) next Harc (Hnp v next HvD HnextD))
    as (l1 & l2 & Hadj & Hl1 & Hl2).
  assert (Hin1 : forall w, w ∈ l1 -> w ∈ adjacent_vertices g v /\ w <> next).
  { intros w Hw. split; [rewrite Hadj; apply elem_of_app; by left|].
    intros ->. done. }
  assert (Hin2 : forall w, w ∈ l2 -> w ∈ adjacent_vertices g v /\ w <> next).
  { intros w Hw. split; [rewrite Hadj; apply elem_of_app; right; by right|].
    intros ->. done. }
  assert (Hp0 : forall x, x ∈ p -> x ∈ blocked (block v st)).
  { intros x Hx. subst p. rewrite <- Heq in Hx. simpl.
    apply elem_of_app in Hx as [Hx|Hx]; [apply elem_of_union_r; by apply Hbl|].
    apply list_elem_of_singleton in Hx. subst x. apply elem_of_union_l. by apply elem_of_singleton. }
  rewrite Hadj, fold_left_app. cbn [fold_left].
  (* the out-neighbours before [next] *)
  destruct (fold_left_some (explore s (circuit g s fuel) p)
              (fun a => a.1 = false /\ frame on (block v st) a.2) l1 (false, block v st))
    as ([b1 cur1] & Hfold1 & Hb1 & Hfr1).
  { split; [done|apply frame_refl]. }
  { intros [b cur] w Hw [Hbf Hfr]. simpl in Hbf, Hfr. subst b.
    destruct (Hin1 w Hw) as [Hw' Hne]. by apply Hstep. }
  simpl in Hb1, Hfr1. subst b1. rewrite Hfold1.
  assert (Hp1 : forall x, x ∈ p -> x ∈ blocked cur1).
  { intros x Hx. destruct Hfr1 as (_ & Hmono & _). by apply Hmono, Hp0. }
  assert (Hon1 : forall x, x ∈ blocked cur1 -> x ∈ D -> x ∈ p).
  { intros x Hx HxD. destruct Hfr1 as (_ & _ & Hnew & _).
    destruct (Hnew x Hx) as [Hx0|Hx0]; [|done]. simpl in Hx0. subst p. rewrite <- Heq.
    apply elem_of_app. apply elem_of_union in Hx0 as [Hx0|Hx0].
    - right. apply elem_of_singleton in Hx0. subst. by apply list_elem_of_singleton.
    - left. by apply Hon. }
  assert (Hcl1 : closed_ok on cur1).
  { destruct Hfr1 as (_ & _ & _ & Hc). by apply Hc. }
  (* [next] itself *)
  assert (Hnext_step : exists cur2,
            explore s (circuit g s fuel) p (Some (false, cur1)) next = Some (true, cur2) /\
            cycles cur2 = cycles st ++ [D] /\
            (forall x, x ∈ p -> x ∈ blocked cur2) /\
            (forall x, x ∈ blocked cur2 -> x ∈ D -> x ∈ p) /\
            closed_ok on cur2).
  { unfold explore.
    destruct (Nat.ltb_spec next s) as [Hlt|_]; [specialize (HDlo next HnextD); lia|].
    assert (Hc1 : cycles cur1 = cycles st) by (by destruct Hfr1 as (-> & _)).
    destruct Hnext as [Hn|[Hn ->]].
    - destruct (Nat.eqb_spec next s) as [->|Hne].
      { exfalso. destruct HD as (HndD & _). rewrite head_lookup in HDs.
        pose proof (NoDup_lookup _ _ _ _ HndD Hn HDs). lia. }
      case_decide as Hblocked.
      { exfalso. specialize (Hon1 next Hblocked HnextD).
        apply list_elem_of_lookup in Hon1 as [i Hi].
        apply lookup_lt_Some in Hi as Hilt. rewrite Hlen in Hilt.
        subst p. rewrite lookup_take_lt in Hi by lia.
        destruct HD as (HndD & _). pose proof (NoDup_lookup _ _ _ _ HndD Hn Hi). lia. }
      destruct (IH (S j) next cur1 Hn Hp1 Hon1 Hcl1 ltac:(lia))
        as (cur2 & Hrun & Hc2 & Hp2 & Hon2 & Hcl2).
      fold p in Hrun. rewrite Hrun. exists cur2. split; [done|]. split; [congruence|done].
    - rewrite Nat.eqb_refl. exists (report p cur1).
      assert (p = D) as Hpd by (subst p; rewrite Hn; apply take_ge; lia).
      split; [done|]. split; [simpl; by rewrite Hc1, Hpd|done]. }
  destruct Hnext_step as (cur2 & Hrun2 & Hc2 & Hp2 & Hon2 & Hcl2). rewrite Hrun2.
  (* the out-neighbours after [next] *)
  destruct (fold_left_some (explore s (circuit g s fuel) p)
              (fun a => a.1 = true /\ frame on cur2 a.2) l2 (true, cur2))
    as ([b3 cur3] & Hfold3 & Hb3 & Hfr3).
  { split; [done|apply frame_refl]. }
  { intros [b cur] w Hw [Hbf Hfr]. simpl in Hbf, Hfr. subst b.
    destruct (Hin2 w Hw) as [Hw' Hne]. by apply Hstep. }
  simpl in Hb3, Hfr3. subst b3. rewrite Hfold3.
  destruct Hfr3 as (Hc3 & Hmono3 & Hnew3 & Hclo3).
  destruct (unblock_spec (S (size (blocked cur3))) v cur3)
    as (st' & Hrun & Hc' & Hb' & Hu' & Hcl').
  { apply Nat.lt_succ_r. apply subseteq_size. apply subseteq_difference_l. done. }
  rewrite Hrun. exists st'. split; [done|]. split; [congruence|]. split; [|split].
  - intros x Hx. apply dec_stable. intros Hnot.
    assert (Hx3 : x ∈ blocked cur3).
    { apply Hmono3, Hp2. subst p. rewrite <- Heq. apply elem_of_app. by left. }
    destruct (Hu' x Hx3 Hnot) as [->|[w Hw]]; [done|].
    apply (Hclo3 Hcl2 w x Hw). by apply (subseteq_take j D).
  - intros x Hx HxD. apply Hb' in Hx. apply elem_of_difference in Hx as [Hx Hxv].
    destruct (Hnew3 x Hx) as [Hx2|Hx2]; [|done].
    specialize (Hon2 x Hx2 HxD). subst p. rewrite <- Heq in Hon2.
    apply elem_of_app in Hon2 as [H|H]; [done|].
    apply list_elem_of_singleton in H. subst x. exfalso. apply Hxv. by apply elem_of_singleton.
  - intros w x Hx. apply (Hclo3 Hcl2 w x). by apply Hcl'.
Qed.

End OnCycle.


(** *** Rotations *)

Lemma index_of_lookup s l : s ∈ l -> l !! index_of s l = Some s.
Proof.
  induction l as [|x l IH]; intros Hs; [by apply elem_of_nil in Hs|].
  simpl. case_decide as Hx; [by subst|].
  apply elem_of_cons in Hs as [->|Hs]; [done|]. by apply IH.
Qed.

Lemma rotate_small {A} (l : list A) i :
  i < length l -> rotate i l = drop i l ++ take i l.
Proof. intros Hi. unfold rotate. by rewrite Nat.mod_small. Qed.

Lemma head_rotate {A} (l : list A) i x :
  l !! i = Some x -> head (rotate i l) = Some x.
Proof.
  intros Hi. rewrite rotate_small by (by eapply lookup_lt_Some).
  rewrite head_lookup, lookup_app_l.
  - by rewrite lookup_drop, Nat.add_0_r.
  - rewrite length_drop. apply lookup_lt_Some in Hi. lia.
Qed.

Lemma is_circuit_rotate g c i :
  is_circuit g c -> i < length c -> is_circuit g (rotate i c).
Proof.
  intros (Hnd & Hp & a & b & Hl & Hh & Harc) Hi.
  rewrite rotate_small by done.
  destruct i as [|i].
  { rewrite drop_0, take_0, app_nil_r. split; [done|]. split; [done|]. by exists a, b. }
  destruct (c !! i) as [x|] eqn:Hx; [|apply lookup_ge_None in Hx; lia].
  destruct (c !! S i) as [y|] eqn:Hy; [|apply lookup_ge_None in Hy; lia].
  assert (Hdrop : drop (S i) c = y :: drop (S (S i)) c) by (by apply drop_S).
  assert (Htake : take (S i) c = take i c ++ [x]) by (by apply take_S_r).
  assert (Hc : c = take (S i) c ++ drop (S i) c) by (by rewrite take_drop).
  split; [|split].
  - eapply NoDup_Permutation_proper; [|exact Hnd]. rewrite Hc at 3. apply Permutation_app_comm.
  - rewrite Hc in Hp. apply path_app in Hp as (Hp1 & Hp2 & _).
    apply path_app. split; [done|]. split; [done|].
    intros a' b' Ha' Hb'. rewrite head_take_S in Hb'.
    rewrite Hc, Hdrop, last_app_cons in Hl. rewrite Hdrop in Ha'. congruence.
  - exists x, y. split; [by rewrite Htake, app_assoc, last_snoc|].
    split; [by rewrite Hdrop|]. by eapply path_lookup.
Qed.

Lemma rotate_is_rotation_from c i s :
  NoDup c -> head (rotate i c) = Some s -> rotate i c = rotation_from c s.
Proof.
  intros Hnd Hh. destruct c as [|x c].
  { unfold rotate in Hh. by rewrite drop_nil, take_nil in Hh. }
  assert (Hlt : i mod length (x :: c) < length (x :: c))
    by (apply Nat.mod_upper_bound; simpl; lia).
  assert (Hs : (x :: c) !! (i mod length (x :: c)) = Some s).
  { unfold rotate in Hh. rewrite head_lookup, lookup_app_l in Hh.
    - by rewrite lookup_drop, Nat.add_0_r in Hh.
    - rewrite length_drop. lia. }
  assert (Hin : s ∈ x :: c) by (by eapply list_elem_of_lookup_2).
  pose proof (index_of_lookup s (x :: c) Hin) as Hidx.
  pose proof (NoDup_lookup _ _ _ _ Hnd Hs Hidx) as Heq.
  unfold rotation_from, rotate. rewrite <- Heq. by rewrite Nat.Div0.mod_mod.
Qed.

Lemma rotation_from_head c s : s ∈ c -> head (rotation_from c s) = Some s.
Proof. intros Hs. apply head_rotate. by apply index_of_lookup. Qed.

(** *** One start vertex *)

Section Starts.

Variable g : list (list nat).
Variable C : list nat.

Hypothesis Hwf : wf_graph g.
Hypothesis Hnp : forall v w, v ∈ C -> w ∈ C -> arcs g v w <= 1.
Hypothesis HC : is_circuit g C.
Hypothesis Hrot : forall c, is_circuit g c -> exists i, c = rotate i C.

Lemma circuit_elements c x : is_circuit g c -> x ∈ c <-> x ∈ C.
Proof. intros Hc. destruct (Hrot c Hc) as [i ->]. apply elem_of_rotate. Qed.

Lemma circuit_vertex_lt x : x ∈ C -> x < num_vertices g.
Proof.
  intros Hx. apply list_elem_of_lookup in Hx as [j Hj].
  destruct HC as (HndC & HpC & a & b & HlC & HhC & HarcC).
  destruct (next_on_cycle g b C HC HhC j x Hj) as (next & Harc & _).
  unfold arc, adjacent_vertices in Harc.
  destruct (g !! x) as [l|] eqn:Hl; [by eapply lookup_lt_Some|].
  by apply elem_of_nil in Harc.
Qed.

Lemma empty_search_closed_ok on : closed_ok on empty_search.
Proof. intros w x Hx. unfold closed_to in Hx. simpl in Hx. by apply elem_of_nil in Hx. Qed.

(** From the smallest vertex of the cycle the search reports the rotation
    that starts there, and nothing else. *)
Lemma circuits_from_cycle s :
  s ∈ C -> (forall x, x ∈ C -> s <= x) ->
  circuits_from g s = Some [rotation_from C s].
Proof.
  intros Hs Hlo. set (D := rotation_from C s).
  assert (Hidx : index_of s C < length C)
    by (eapply lookup_lt_Some; by apply index_of_lookup).
  assert (HD : is_circuit g D) by (by apply is_circuit_rotate).
  assert (HDs : head D = Some s) by (by apply rotation_from_head).
  assert (HDC : forall x, x ∈ D <-> x ∈ C) by (intros x; by apply circuit_elements).
  assert (Hall : forall c, is_circuit g c -> s ∈ c)
    by (intros c Hc; by apply circuit_elements).
  assert (Huniq : forall c, is_circuit g c -> head c = Some s -> c = D).
  { intros c Hc Hh. destruct (Hrot c Hc) as [i ->].
    apply rotate_is_rotation_from; [apply HC|done]. }
  destruct (circuit_on_path g s D Hwf HD HDs) with
    (fuel := num_vertices g) (j := 0) (v := s) (st := empty_search)
    as (st' & Hrun & Hcyc & _).
  - intros x Hx. apply Hlo. by apply HDC.
  - intros x Hx. apply circuit_vertex_lt. by apply HDC.
  - done.
  - by apply simple_path_into_cycle.
  - intros v w Hv Hw. apply Hnp; by apply HDC.
  - by rewrite <- head_lookup.
  - intros x Hx. by apply elem_of_nil in Hx.
  - intros x Hx. by apply not_elem_of_empty in Hx.
  - apply empty_search_closed_ok.
  - lia.
  - unfold circuits_from. rewrite take_0 in Hrun. rewrite Hrun. by rewrite Hcyc.
Qed.

(** From a vertex that is on no circuit within the indices from it on, the
    search reports nothing. *)
Lemma circuits_from_none s :
  s < num_vertices g ->
  (forall c, is_circuit g c -> (forall x, x ∈ c -> s <= x) -> head c <> Some s) ->
  circuits_from g s = Some [].
Proof.
  intros Hs Hnone.
  destruct (circuit_off_path g s (fun _ => False) Hwf) with
    (fuel := num_vertices g) (stack := @nil nat) (v := s) (st := empty_search)
    as (st' & Hrun & Hcyc & _).
  - done.
  - split; [apply NoDup_singleton|]. split; [done|]. split; [done|].
    split; [|intros x Hx; by apply elem_of_nil in Hx].
    intros x Hx. apply list_elem_of_singleton in Hx. subst. simpl. lia.
  - simpl. lia.
  - intros (c & Hc & Hlo & Hpre). apply (Hnone c Hc Hlo).
    destruct Hpre as [k ->]. done.
  - unfold circuits_from. rewrite Hrun. by rewrite Hcyc.
Qed.

End Starts.

(** *** All the starts *)

Lemma for_each_start_spec from (F : nat -> list (list nat)) starts :
  (forall s, s ∈ starts -> from s = Some (F s)) ->
  for_each_start from starts = Some (flat_map F starts).
Proof.
  induction starts as [|s starts IH]; intros H; [done|].
  simpl. rewrite (H s) by (by left). rewrite IH; [done|].
  intros s' Hs'. apply H. by right.
Qed.

Lemma flat_map_filter {A B} (P : A -> Prop) `{!forall x, Decision (P x)} (f : A -> B) l :
  flat_map (fun x => if decide (P x) then [f x] else []) l = f <$> filter P l.
Proof.
  induction l as [|x l IH]; [done|]. simpl. rewrite IH.
  rewrite filter_cons. by case_decide.
Qed.

Lemma list_min_exists (l : list nat) :
  l <> [] -> exists m, m ∈ l /\ Forall (fun x => m <= x) l.
Proof.
  induction l as [|a l IH]; intros Hne; [done|].
  destruct l as [|b l]; [exists a; split; [by left|by repeat constructor]|].
  destruct IH as (m & Hm & Hall); [done|].
  destruct (decide (a <= m)) as [Ham|Ham].
  - exists a. split; [by left|]. constructor; [done|].
    eapply Forall_impl; [done|]. intros x Hx. simpl in Hx. lia.
  - exists m. split; [by right|]. constructor; [lia|done].
Qed.

Lemma cycle_vertices_among_starts g C :
  wf_graph g -> is_circuit g C ->
  filter (fun s => s ∈ C) (seq 0 (num_vertices g)) ≡ₚ C.
Proof.
  intros Hwf HC. apply NoDup_Permutation.
  - apply NoDup_filter, NoDup_seq.
  - apply HC.
  - intros x. rewrite list_elem_of_filter, elem_of_seq. split; [by intros [H _]|].
    intros Hx. split; [done|]. split; [lia|]. simpl.
    apply list_elem_of_lookup in Hx as [j Hj].
    destruct HC as (HndC & HpC & a & b & HlC & HhC & HarcC).
    destruct (next_on_cycle g b C) with (j := j) (v := x) as (next & Harc & _); [|done..|].
    { split; [done|]. split; [done|]. by exists a, b. }
    unfold arc, adjacent_vertices in Harc.
    destruct (g !! x) as [l|] eqn:Hl; [by eapply lookup_lt_Some|].
    by apply elem_of_nil in Harc.
Qed.

(** Over all the starts, the only cycle is reported once, from its smallest
    vertex: the later starts on it may not go back to that vertex. *)
Lemma hawick_circuits_only_cycle (g : list (list nat)) (C : list nat) (m : nat) :
  wf_graph g -> is_circuit g C ->
  (forall c, is_circuit g c -> exists i, c = rotate i C) ->
  (forall a b, a ∈ C -> b ∈ C -> arcs g a b <= 1) ->
  m ∈ C -> (forall x, x ∈ C -> m <= x) ->
  hawick_circuits g = Some [rotation_from C m].
Proof.
  intros Hwf HC Hrot Hnp Hm Hmin.
  pose proof (cycle_vertices_among_starts g C Hwf HC) as Hperm.
  assert (Hhead : forall c s, is_circuit g c -> head c = Some s -> s ∈ C).
  { intros c s Hc Hh. apply (circuit_elements g C Hrot c s Hc).
    destruct c; [done|]. injection Hh as ->. by left. }
  set (P := fun s => s ∈ C /\ Forall (fun x => s <= x) C).
  assert (Hfilter : filter P (seq 0 (num_vertices g)) = [m]).
  { apply Permutation_singleton_r. apply NoDup_Permutation.
    - apply NoDup_filter, NoDup_seq.
    - apply NoDup_singleton.
    - intros x. rewrite list_elem_of_filter, list_elem_of_singleton. split.
      + intros [[Hx Hxmin] _].
        pose proof (proj1 (Forall_forall _ _) Hxmin m Hm).
        pose proof (Hmin x Hx). simpl in *. lia.
      + intros ->. split; [split; [done|by apply Forall_forall]|].
        rewrite <- Hperm in Hm. by apply list_elem_of_filter in Hm as [_ Hm]. }
  unfold hawick_circuits.
  rewrite (for_each_start_spec _
             (fun s => if decide (P s) then [rotation_from C s] else [])).
  - by rewrite flat_map_filter, Hfilter.
  - intros s Hs. apply elem_of_seq in Hs. case_decide as HP.
    + destruct HP as [HsC Hsmin]. apply circuits_from_cycle; try done.
      by apply Forall_forall.
    + apply (circuits_from_none g Hwf); [lia|].
      intros c Hc Hlo Hh. apply HP. split; [by eapply Hhead|].
      apply Forall_forall. intros x Hx. apply Hlo.
      by apply (circuit_elements g C Hrot c x Hc).
Qed.

(** *** Every out-neighbour once *)

Lemma adjacent_vertices_unique g v :
  adjacent_vertices (unique_adjacency g) v = remove_dups (adjacent_vertices g v).
Proof.
  unfold adjacent_vertices, unique_adjacency. rewrite list_lookup_fmap.
  by destruct (g !! v).
Qed.

Lemma arc_unique g a b : arc (unique_adjacency g) a b <-> arc g a b.
Proof. unfold arc. rewrite adjacent_vertices_unique. apply elem_of_remove_dups. Qed.

Lemma path_unique g p : path (unique_adjacency g) p <-> path g p.
Proof.
  induction p as [|a p IH]; [done|]. rewrite !path_cons, IH.
  split; intros [H1 H2]; (split; [|done]); intros b Hb; apply arc_unique; by apply H1.
Qed.

Lemma is_circuit_unique g c : is_circuit (unique_adjacency g) c <-> is_circuit g c.
Proof.
  unfold is_circuit. rewrite path_unique.
  split; intros (Hnd & Hp & a & b & Hl & Hh & Harc);
    (split; [done|]; split; [done|]); exists a, b; (split; [done|]; split; [done|]);
    by apply arc_unique.
Qed.

Lemma wf_graph_unique g : wf_graph g -> wf_graph (unique_adjacency g).
Proof.
  intros Hwf v w Hw. rewrite adjacent_vertices_unique in Hw.
  rewrite elem_of_remove_dups in Hw. unfold num_vertices, unique_adjacency.
  rewrite length_fmap. exact (Hwf v w Hw).
Qed.

Lemma arcs_unique g a b : arcs (unique_adjacency g) a b <= 1.
Proof.
  unfold arcs. rewrite adjacent_vertices_unique. apply NoDup_once, NoDup_remove_dups.
Qed.


(** The directed cycle 0 -> 1 -> 0, also with further arcs that leave
    vertex 0 for a vertex without out-arcs. *)
Lemma two_cycle_circuit g :
  arc g 0 1 -> arc g 1 0 -> is_circuit g [0; 1].
Proof.
  intros H01 H10. split; [|split].
  - apply NoDup_cons. split; [|apply NoDup_singleton].
    intros H. by apply list_elem_of_singleton in H.
  - split; [done|done].
  - exists 1, 0. done.
Qed.

Lemma two_cycle_only g c :
  (forall a b, arc g a b -> (a = 0 /\ (b = 1 \/ b = 2)) \/ (a = 1 /\ b = 0)) ->
  is_circuit g c -> exists i, c = rotate i [0; 1].
Proof.
  intros Harcs (Hnd & Hp & a & b & Hl & Hh & Harc).
  destruct c as [|x [|y [|z c]]].
  - done.
  - simpl in Hl, Hh. injection Hl as <-. injection Hh as <-.
    apply Harcs in Harc. lia.
  - simpl in Hl, Hh. injection Hl as <-. injection Hh as <-.
    destruct Hp as [Hxy _]. apply Harcs in Hxy, Harc.
    assert ((x = 0 /\ y = 1) \/ (x = 1 /\ y = 0)) as [[-> ->]|[-> ->]] by lia.
    + by exists 0.
    + by exists 1.
  - exfalso. destruct Hp as [Hxy [Hyz Hrest]].
    apply NoDup_cons in Hnd as [Hx Hnd]. apply NoDup_cons in Hnd as [Hy Hnd].
    apply Harcs in Hxy, Hyz.
    assert (x <> z) by (intros ->; apply Hx; right; by left).
    assert (y = 0 /\ z = 2 /\ x = 1) as (-> & -> & ->) by lia.
    destruct c as [|z' c].
    + simpl in Hl, Hh. injection Hl as <-. apply Harcs in Harc. lia.
    + destruct Hrest as [H2 _]. apply Harcs in H2. lia.
Qed.

Lemma two_cycle_arcs a b :
  arc two_cycle a b -> (a = 0 /\ (b = 1 \/ b = 2)) \/ (a = 1 /\ b = 0).
Proof.
  unfold arc, adjacent_vertices. destruct a as [|[|a]]; simpl; intros Hb.
  - apply list_elem_of_singleton in Hb. lia.
  - apply list_elem_of_singleton in Hb. lia.
  - by apply elem_of_nil in Hb.
Qed.

Lemma cycle_with_doubled_exit_arcs a b :
  arc cycle_with_doubled_exit a b -> (a = 0 /\ (b = 1 \/ b = 2)) \/ (a = 1 /\ b = 0).
Proof.
  unfold arc, adjacent_vertices. destruct a as [|[|[|a]]]; simpl; intros Hb.
  - repeat (apply elem_of_cons in Hb as [Hb|Hb]; [lia|]). by apply elem_of_nil in Hb.
  - apply list_elem_of_singleton in Hb. lia.
  - by apply elem_of_nil in Hb.
  - by apply elem_of_nil in Hb.
Qed.

Lemma cycle_with_doubled_exit_wf : wf_graph cycle_with_doubled_exit.
Proof.
  intros v w Hw. apply cycle_with_doubled_exit_arcs in Hw. simpl. lia.
Qed.



(** Parallel arcs on the cycle are what the two modes tell apart: with the
    arc from 0 to 1 doubled, the all-circuits mode reports the closed walk
    through either arc, the unique-circuits mode one of them. *)
Lemma modes_on_doubled_two_cycle :
  hawick_circuits doubled_two_cycle = Some [[0; 1]; [0; 1]] /\
  hawick_unique_circuits doubled_two_cycle = Some [[0; 1]].
Proof. split; reflexivity. Qed.

End CircuitFacts.
